(** * scheduling-primitives: working calendar and occupancy bitmap

    A shallow embedding of [calendar.py], [resolution.py], [types.py],
    [occupancy.py] and [greedy.py], followed by the properties of the
    specification that were checked against it and by further properties
    of the code.

    Conventions of the embedding.
    - A Python [int] is a [Z].
    - A [date] is its proleptic Gregorian ordinal ([date.toordinal()]), so
      [d + timedelta(days=1)] is [d + 1] and [d.weekday()] is
      [(d + 6) mod 7].  The year range 1..9999 of Python dates is not
      enforced.
    - A naive [datetime] is the number of microseconds since midnight of
      ordinal 0; a [timedelta] is a number of microseconds.  Python orders
      datetimes like these numbers.  [timedelta.total_seconds()] is taken
      exactly.  In Python it is the float nearest to the exact quotient:
      it is exact on whole seconds, and below 2^34 seconds its distance
      to the quotient is under a microsecond, so that [int] of it is the
      quotient truncated; from 2^34 seconds on, a fraction of 0.999999
      seconds can round up to the next second.
    - A [time] built by [_parse_time] has an hour and a minute only.  The
      time strings of an exception entry are kept parsed: a string on
      which [_parse_time] raises ([ValueError], [IndexError]) has no
      counterpart in the embedding.
    - A [bytearray] is a [list Z]; indexing follows Python: a negative
      index counts from the end, an index out of range raises
      [IndexError].
    - A [dict] is a [gmap].  The keys of [_exceptions] are ISO date strings
      in the source and are looked up with [d.isoformat()], which is
      injective; the embedding keys the map by the date itself.
    - Exceptions are values of [exn]; a computation returns an [outcome].
      A [while] loop without a bound takes a [fuel] argument and yields
      [OutOfFuel] when it is exhausted.
    - Object identity ([is]) of an [AllocationRecord] is a field [obj_id]
      given to the record when it is constructed. *)

From Stdlib Require Import ZArith Lia.
From stdpp Require Import base option list gmap strings.

Local Open Scope Z_scope.

(** ** Exceptions and outcomes *)

Inductive exn : Type :=
| IndexError
| KeyError
| ValueError
| ZeroDivisionError
| InfeasibleError (operation_id : string)
                  (work_units_remaining work_units_requested : Z)
                  (reason : string).

Inductive outcome (A : Type) : Type :=
| Ret (a : A)
| Raise (e : exn)
| OutOfFuel.

Arguments Ret {A} a.
Arguments Raise {A} e.
Arguments OutOfFuel {A}.

#[global] Instance outcome_ret : MRet outcome := fun A a => Ret a.
#[global] Instance outcome_bind : MBind outcome := fun A B f m =>
  match m with
  | Ret a => f a
  | Raise e => Raise e
  | OutOfFuel => OutOfFuel
  end.

(** ** Dates, times of day and datetimes *)

Abbreviation date := Z (only parsing).
Abbreviation datetime := Z (only parsing).

Record time : Type := mk_time { hour : Z; minute : Z }.

Definition midnight : time := mk_time 0 0.

Definition time_eqb (a b : time) : bool :=
  (hour a =? hour b) && (minute a =? minute b).

Definition time_ltb (a b : time) : bool :=
  (hour a <? hour b) || ((hour a =? hour b) && (minute a <? minute b)).

Definition time_leb (a b : time) : bool := negb (time_ltb b a).

Definition us_per_second : Z := 1000000.
Definition us_per_minute : Z := 60 * us_per_second.
Definition us_per_day : Z := 86400 * us_per_second.

Definition weekday (d : date) : Z := (d + 6) mod 7.

(** [datetime.combine(d, t)] *)
Definition combine (d : date) (t : time) : datetime :=
  d * us_per_day + (hour t * 3600 + minute t * 60) * us_per_second.

(** [dt.date()] *)
Definition date_of (dt : datetime) : date := dt / us_per_day.

(** [int(delta.total_seconds())]: [int] truncates towards zero.  The
    quotient is the value in Python for every [delta] below 2^34 seconds
    in magnitude and for every whole number of seconds. *)
Definition int_total_seconds (delta : Z) : Z := Z.quot delta us_per_second.

(** [timedelta(minutes=n)] *)
Definition timedelta_minutes (n : Z) : Z := n * us_per_minute.

(** ** Sorting

    [list.sort(key=...)] is stable; stable insertion gives the same list. *)

Section Sort.
Context {A : Type} (leb : A -> A -> bool).

Fixpoint insert_sorted (x : A) (l : list A) : list A :=
  match l with
  | [] => [x]
  | y :: l' => if leb x y then x :: l else y :: insert_sorted x l'
  end.

Fixpoint stable_sort (l : list A) : list A :=
  match l with
  | [] => []
  | x :: l' => insert_sorted x (stable_sort l')
  end.

End Sort.

(** ** Layer 1: WorkingCalendar *)

Definition period : Type := time * time.

(** key [lambda p: p[0]] *)
Definition by_start (p q : period) : bool := time_leb p.1 q.1.

(** key [lambda p: (p[0], p[1])] *)
Definition by_start_end (p q : period) : bool :=
  time_ltb p.1 q.1 || (time_eqb p.1 q.1 && time_leb p.2 q.2).

(** An exception entry is a dict with the optional keys ["is_working"],
    ["start"] and ["end"]; the two time strings are kept parsed. *)
Record entry : Type := mk_entry {
  is_working : option bool;
  e_start : option time;
  e_end : option time
}.

Record WorkingCalendar : Type := mk_calendar {
  pattern_id : string;
  _rules : gmap Z (list period);
  _exceptions : gmap Z (list entry)
}.

(** [WorkingCalendar.__init__]: every weekday's periods are sorted by
    start. *)
Definition WorkingCalendar_init (pattern_id : string)
    (rules : gmap Z (list period)) (exceptions : gmap Z (list entry))
  : WorkingCalendar :=
  mk_calendar pattern_id (stable_sort by_start <$> rules) exceptions.

Definition _is_overnight (start end_ : time) : bool :=
  if time_eqb end_ midnight && negb (time_eqb start midnight) then true
  else time_ltb end_ start.

(** The first loop of [_resolve_rules]. *)
Definition same_day_periods (ps : list period) : list period :=
  map (fun p => if _is_overnight p.1 p.2 then (p.1, midnight) else p) ps.

(** The second loop of [_resolve_rules]. *)
Definition carryover_periods (ps : list period) : list period :=
  map (fun p => (midnight, p.2))
      (List.filter
         (fun p => _is_overnight p.1 p.2 && negb (time_eqb p.2 midnight)) ps).

Definition _resolve_rules (cal : WorkingCalendar) (d : date) : list period :=
  let periods :=
    match _rules cal !! weekday d with
    | Some ps => same_day_periods ps
    | None => []
    end in
  let prev_date := d - 1 in
  let periods :=
    match _rules cal !! weekday prev_date with
    | Some ps => periods ++ carryover_periods ps
    | None => periods
    end in
  stable_sort by_start_end periods.

(** [not entry.get("is_working", True) and "start" not in entry
     and "end" not in entry] *)
Definition full_removal (en : entry) : bool :=
  negb (default true (is_working en))
  && negb (bool_decide (is_Some (e_start en)))
  && negb (bool_decide (is_Some (e_end en))).

(** [(_parse_time(entry["start"]), _parse_time(entry["end"]))]; a missing
    key raises [KeyError]. *)
Definition entry_period (en : entry) : outcome period :=
  match e_start en, e_end en with
  | Some s, Some e => Ret (s, e)
  | _, _ => Raise KeyError
  end.

(** The loop [for entry in entries: if entry.get("is_working", False): ...
    periods.append((start, end))], shared by the two branches of
    [_resolve_exceptions] (in the second branch the guard
    [not entry.get("is_working", True)] only skips entries that the
    [elif] would skip as well). *)
Fixpoint append_working (periods : list period) (entries : list entry)
  : outcome (list period) :=
  match entries with
  | [] => Ret periods
  | en :: entries' =>
      if default false (is_working en) then
        p ← entry_period en;
        append_working (periods ++ [p]) entries'
      else append_working periods entries'
  end.

Definition _resolve_exceptions (cal : WorkingCalendar) (d : date)
  : outcome (list period) :=
  match _exceptions cal !! d with
  | None => Raise KeyError
  | Some entries =>
      let has_full_removal := existsb full_removal entries in
      periods ← (if has_full_removal then append_working [] entries
                 else append_working (_resolve_rules cal d) entries);
      Ret (stable_sort by_start periods)
  end.

Definition periods_for_date (cal : WorkingCalendar) (d : date)
  : outcome (list period) :=
  if bool_decide (is_Some (_exceptions cal !! d))
  then _resolve_exceptions cal d
  else Ret (_resolve_rules cal d).

Definition period_interval (d : date) (p : period) : datetime * datetime :=
  let dt_start := combine d p.1 in
  let dt_end := if time_eqb p.2 midnight then combine (d + 1) midnight
                else combine d p.2 in
  (dt_start, dt_end).

Definition _datetime_intervals_for_date (cal : WorkingCalendar) (d : date)
  : outcome (list (datetime * datetime)) :=
  periods ← periods_for_date cal d;
  Ret (map (period_interval d) periods).

(** The body of [for iv_start, iv_end in intervals] in [add_minutes]:
    [inl dt] is the [return] inside the loop, [inr (remaining,
    current_time)] the state when the loop runs to its end. *)
Fixpoint add_scan (intervals : list (datetime * datetime))
    (remaining : Z) (current_time : datetime) : datetime + Z * datetime :=
  match intervals with
  | [] => inr (remaining, current_time)
  | (iv_start, iv_end) :: rest =>
      if iv_end <=? current_time then add_scan rest remaining current_time
      else
        let effective_start := Z.max iv_start current_time in
        let available := int_total_seconds (iv_end - effective_start) / 60 in
        if available <=? 0 then add_scan rest remaining current_time
        else if remaining <=? available
             then inl (effective_start + timedelta_minutes remaining)
             else add_scan rest (remaining - available) iv_end
  end.

(** The loop [while remaining > 0] of [add_minutes]. *)
Fixpoint add_loop (fuel : nat) (cal : WorkingCalendar)
    (remaining : Z) (current_date : date) (current_time : datetime)
  : outcome datetime :=
  if remaining >? 0 then
    match fuel with
    | O => OutOfFuel
    | S fuel' =>
        intervals ← _datetime_intervals_for_date cal current_date;
        match add_scan intervals remaining current_time with
        | inl dt => Ret dt
        | inr (remaining', _) =>
            let current_date' := current_date + 1 in
            add_loop fuel' cal remaining' current_date'
                     (combine current_date' midnight)
        end
    end
  else Ret current_time.

Definition add_minutes (fuel : nat) (cal : WorkingCalendar)
    (start : datetime) (minutes : Z) : outcome datetime :=
  if minutes =? 0 then Ret start
  else add_loop fuel cal minutes (date_of start) start.

(** The body of [for iv_start, iv_end in reversed(intervals)] in
    [subtract_minutes]; the argument is the reversed list. *)
Fixpoint subtract_scan (intervals : list (datetime * datetime))
    (remaining : Z) (current_time : datetime) : datetime + Z * datetime :=
  match intervals with
  | [] => inr (remaining, current_time)
  | (iv_start, iv_end) :: rest =>
      if iv_start >=? current_time
      then subtract_scan rest remaining current_time
      else
        let effective_end := Z.min iv_end current_time in
        let available := int_total_seconds (effective_end - iv_start) / 60 in
        if available <=? 0 then subtract_scan rest remaining current_time
        else if remaining <=? available
             then inl (effective_end - timedelta_minutes remaining)
             else subtract_scan rest (remaining - available) iv_start
  end.

Fixpoint subtract_loop (fuel : nat) (cal : WorkingCalendar)
    (remaining : Z) (current_date : date) (current_time : datetime)
  : outcome datetime :=
  if remaining >? 0 then
    match fuel with
    | O => OutOfFuel
    | S fuel' =>
        intervals ← _datetime_intervals_for_date cal current_date;
        match subtract_scan (rev intervals) remaining current_time with
        | inl dt => Ret dt
        | inr (remaining', _) =>
            let current_date' := current_date - 1 in
            subtract_loop fuel' cal remaining' current_date'
                          (combine (current_date' + 1) midnight)
        end
    end
  else Ret current_time.

Definition subtract_minutes (fuel : nat) (cal : WorkingCalendar)
    (end_ : datetime) (minutes : Z) : outcome datetime :=
  if minutes =? 0 then Ret end_
  else subtract_loop fuel cal minutes (date_of end_) end_.

(** The clamped intervals one date contributes to
    [working_intervals_in_range]. *)
Definition clamp_intervals (start end_ : datetime)
    (intervals : list (datetime * datetime)) : list (datetime * datetime) :=
  List.filter (fun iv => iv.1 <? iv.2)
    (map (fun iv => (Z.max iv.1 start, Z.min iv.2 end_)) intervals).

(** [while current_date <= end_date] runs once for each of the [n] dates
    from [current_date] to [end_date]. *)
Fixpoint intervals_from (n : nat) (cal : WorkingCalendar)
    (start end_ : datetime) (current_date : date)
  : outcome (list (datetime * datetime)) :=
  match n with
  | O => Ret []
  | S n' =>
      intervals ← _datetime_intervals_for_date cal current_date;
      rest ← intervals_from n' cal start end_ (current_date + 1);
      Ret (clamp_intervals start end_ intervals ++ rest)
  end.

(** The generator [working_intervals_in_range], as the list of what it
    yields; it raises what [periods_for_date] raises. *)
Definition working_intervals_in_range (cal : WorkingCalendar)
    (start end_ : datetime) : outcome (list (datetime * datetime)) :=
  let current_date := date_of start in
  let end_date := date_of end_ in
  intervals_from (Z.to_nat (end_date - current_date + 1)) cal
                 start end_ current_date.

(** ** The boundary: TimeResolution *)

Record TimeResolution : Type := mk_resolution {
  unit_seconds : Z;
  label : string
}.

Definition MINUTE : TimeResolution := mk_resolution 60 "minute".
Definition HOUR : TimeResolution := mk_resolution 3600 "hour".

(** Every datetime of the embedding is naive, so [_reject_aware] never
    raises. *)
Definition to_int (r : TimeResolution) (dt epoch : datetime) : outcome Z :=
  let delta_seconds := int_total_seconds (dt - epoch) in
  if unit_seconds r =? 0 then Raise ZeroDivisionError
  else
    let remainder := delta_seconds mod unit_seconds r in
    if negb (remainder =? 0) then Raise ValueError
    else Ret (delta_seconds / unit_seconds r).

Definition to_datetime (r : TimeResolution) (t : Z) (epoch : datetime)
  : datetime :=
  epoch + t * unit_seconds r * us_per_second.

(** ** Shared types: AllocationRecord *)

Definition span : Type := Z * Z.

Record AllocationRecord : Type := mk_record {
  obj_id : nat;
  operation_id : string;
  r_resource_id : string;
  start : Z;
  finish : Z;
  work_units : Z;
  allow_split : bool;
  spans : list span
}.

(** ** Layer 2: OccupancyBitmap *)

Definition _DEFAULT_EXTEND_DAYS : Z := 7.

Record OccupancyBitmap : Type := mk_bitmap {
  resource_id : string;
  horizon_begin : Z;
  bits : list Z;
  _calendar : WorkingCalendar;
  _resolution : TimeResolution;
  _epoch : datetime;
  _allocations : list AllocationRecord
}.

Definition len (bits : list Z) : Z := Z.of_nat (length bits).

Definition horizon_end (bm : OccupancyBitmap) : Z :=
  horizon_begin bm + len (bits bm).

Definition set_bits (bm : OccupancyBitmap) (bits' : list Z) : OccupancyBitmap :=
  mk_bitmap (resource_id bm) (horizon_begin bm) bits' (_calendar bm)
            (_resolution bm) (_epoch bm) (_allocations bm).

Definition set_allocations (bm : OccupancyBitmap)
    (allocations : list AllocationRecord) : OccupancyBitmap :=
  mk_bitmap (resource_id bm) (horizon_begin bm) (bits bm) (_calendar bm)
            (_resolution bm) (_epoch bm) allocations.

(** The position that the index [i] denotes: a negative index counts
    from the end. *)
Definition position (bits : list Z) (i : Z) : Z :=
  if i <? 0 then len bits + i else i.

(** [bits[i]]; the position is in range exactly when the list has an
    element there. *)
Definition getitem (bits : list Z) (i : Z) : outcome Z :=
  let j := position bits i in
  if j <? 0 then Raise IndexError
  else match bits !! Z.to_nat j with
       | Some b => Ret b
       | None => Raise IndexError
       end.

(** [bits[i] = value] *)
Definition setitem (bits : list Z) (i : Z) (value : Z) : outcome (list Z) :=
  let j := position bits i in
  if j <? 0 then Raise IndexError
  else match bits !! Z.to_nat j with
       | Some _ => Ret (<[Z.to_nat j := value]> bits)
       | None => Raise IndexError
       end.

(** [for i in range(i, i + n): bits[i] = value].  The bytearray is
    mutated in place, so the writes made before an [IndexError] stay. *)
Fixpoint set_items (n : nat) (bits : list Z) (i : Z) (value : Z)
  : outcome unit * list Z :=
  match n with
  | O => (Ret (), bits)
  | S n' =>
      match setitem bits i value with
      | Ret bits' => set_items n' bits' (i + 1) value
      | Raise e => (Raise e, bits)
      | OutOfFuel => (OutOfFuel, bits)
      end
  end.

(** [for i in range(lo, hi): bits[i] = value] *)
Definition set_range (bits : list Z) (lo hi : Z) (value : Z)
  : outcome unit * list Z :=
  set_items (Z.to_nat (hi - lo)) bits lo value.

(** The loop over the working intervals in [_fill_bits_from_calendar]. *)
Fixpoint fill_intervals (resolution : TimeResolution) (epoch : datetime)
    (bits_offset : Z) (intervals : list (datetime * datetime))
    (bits : list Z) : outcome (list Z) :=
  match intervals with
  | [] => Ret bits
  | (iv_start, iv_end) :: rest =>
      a ← to_int resolution iv_start epoch;
      b ← to_int resolution iv_end epoch;
      let start_int := a - bits_offset in
      let end_int := b - bits_offset in
      match set_range bits (Z.max 0 start_int) (Z.min (len bits) end_int) 1 with
      | (Ret _, bits') => fill_intervals resolution epoch bits_offset rest bits'
      | (Raise e, _) => Raise e
      | (OutOfFuel, _) => OutOfFuel
      end
  end.

(** [_fill_bits_from_calendar] works on a bytearray that its callers
    have just created and discard when it raises; it is given as a
    function from that bytearray to the filled one.  The generator is
    run to its end before the bits are written, so when a later date
    raises [KeyError] and an earlier interval is misaligned, the
    embedding reports the [KeyError] and Python the [ValueError]. *)
Definition _fill_bits_from_calendar (bits : list Z) (bits_offset : Z)
    (cal : WorkingCalendar) (resolution : TimeResolution) (epoch : datetime)
  : outcome (list Z) :=
  let dt_start := to_datetime resolution bits_offset epoch in
  let dt_end := to_datetime resolution (bits_offset + len bits) epoch in
  intervals ← working_intervals_in_range cal dt_start dt_end;
  fill_intervals resolution epoch bits_offset intervals bits.

(** [bytearray(size)]: [size] zero bytes; a negative size raises
    [ValueError]. *)
Definition bytearray (size : Z) : outcome (list Z) :=
  if size <? 0 then Raise ValueError else Ret (replicate (Z.to_nat size) 0).

(** [OccupancyBitmap.from_calendar] with an explicit resolution. *)
Definition from_calendar (cal : WorkingCalendar)
    (horizon_start horizon_end : datetime) (epoch : datetime)
    (resolution : TimeResolution) : outcome OccupancyBitmap :=
  begin_int ← to_int resolution horizon_start epoch;
  end_int ← to_int resolution horizon_end epoch;
  let size := end_int - begin_int in
  bits ← bytearray size;
  bits ← _fill_bits_from_calendar bits begin_int cal resolution epoch;
  Ret (mk_bitmap (pattern_id cal) begin_int bits cal resolution epoch []).

(** [OccupancyBitmap._extend_to]: the bitmap changes only when the new
    region has been filled. *)
Definition _extend_to (bm : OccupancyBitmap) (needed_end : Z)
  : outcome unit * OccupancyBitmap :=
  if needed_end <=? horizon_end bm then (Ret (), bm)
  else if unit_seconds (_resolution bm) =? 0 then (Raise ZeroDivisionError, bm)
  else
    let min_extend :=
      _DEFAULT_EXTEND_DAYS * 24 * 60 * 60 / unit_seconds (_resolution bm) in
    let new_end := Z.max needed_end (horizon_end bm + min_extend) in
    let old_end := horizon_end bm in
    let extend_size := new_end - old_end in
    match
      new_bits ← bytearray extend_size;
      _fill_bits_from_calendar new_bits old_end (_calendar bm)
                               (_resolution bm) (_epoch bm)
    with
    | Ret new_bits => (Ret (), set_bits bm (bits bm ++ new_bits))
    | Raise e => (Raise e, bm)
    | OutOfFuel => (OutOfFuel, bm)
    end.

Definition infeasible (operation_id : string) (remaining requested : Z) : exn :=
  InfeasibleError operation_id remaining requested "deadline".

(** [deadline is not None and x >= deadline] *)
Definition reached (deadline : option Z) (x : Z) : bool :=
  match deadline with
  | Some d => x >=? d
  | None => false
  end.

(** [min(bitmap.horizon_end, deadline if deadline is not None else
    bitmap.horizon_end)] *)
Definition clip_end (bm : OccupancyBitmap) (deadline : option Z) : Z :=
  Z.min (horizon_end bm) (default (horizon_end bm) deadline).

(** The inner [while i < scan_end - bitmap.horizon_begin] of
    [_walk_non_splittable]; [i] grows by one in each of the [n] rounds, so
    [n] is [scan_end - horizon_begin - i].  [Some run_start] is the
    [return] inside the loop, [None] the loop running to its end. *)
Fixpoint scan_run (n : nat) (bits : list Z) (horizon_begin work_units : Z)
    (i : Z) (run_start : option Z) (run_length : Z) : outcome (option Z) :=
  match n with
  | O => Ret None
  | S n' =>
      let abs_pos := i + horizon_begin in
      b ← getitem bits i;
      if b =? 1 then
        let '(run_start, run_length) :=
          match run_start with
          | None => (abs_pos, 1)
          | Some s => (s, run_length + 1)
          end in
        if run_length >=? work_units then Ret (Some run_start)
        else scan_run n' bits horizon_begin work_units (i + 1)
                      (Some run_start) run_length
      else scan_run n' bits horizon_begin work_units (i + 1) None 0
  end.

(** The loop [while True] of [_walk_non_splittable]. *)
Fixpoint non_splittable_loop (fuel : nat) (bm : OccupancyBitmap)
    (oid : nat) (operation_id : string) (work_units : Z)
    (deadline : option Z) (pos : Z)
  : outcome AllocationRecord * OccupancyBitmap :=
  match fuel with
  | O => (OutOfFuel, bm)
  | S fuel' =>
      let extended :=
        if pos + work_units >? horizon_end bm then
          if reached deadline pos
          then (Raise (infeasible operation_id work_units work_units), bm)
          else _extend_to bm (pos + work_units + 1440)
        else (Ret (), bm) in
      match extended with
      | (Raise e, bm) => (Raise e, bm)
      | (OutOfFuel, bm) => (OutOfFuel, bm)
      | (Ret _, bm) =>
          let scan_end := clip_end bm deadline in
          let i := pos - horizon_begin bm in
          match scan_run (Z.to_nat (scan_end - horizon_begin bm - i)) (bits bm)
                         (horizon_begin bm) work_units i None 0 with
          | Raise e => (Raise e, bm)
          | OutOfFuel => (OutOfFuel, bm)
          | Ret (Some run_start) =>
              (Ret (mk_record oid operation_id (resource_id bm) run_start
                              (run_start + work_units) work_units false
                              [(run_start, run_start + work_units)]), bm)
          | Ret None =>
              if reached deadline scan_end
              then (Raise (infeasible operation_id work_units work_units), bm)
              else
                let extended :=
                  if pos + work_units >? horizon_end bm
                  then _extend_to bm (horizon_end bm + _DEFAULT_EXTEND_DAYS * 1440)
                  else (Ret (), bm) in
                match extended with
                | (Raise e, bm) => (Raise e, bm)
                | (OutOfFuel, bm) => (OutOfFuel, bm)
                | (Ret _, bm) =>
                    non_splittable_loop fuel' bm oid operation_id work_units
                                        deadline scan_end
                end
          end
      end
  end.

Definition _walk_non_splittable (fuel : nat) (bm : OccupancyBitmap)
    (oid : nat) (operation_id : string) (earliest_start work_units : Z)
    (deadline : option Z) : outcome AllocationRecord * OccupancyBitmap :=
  let pos := Z.max earliest_start (horizon_begin bm) in
  non_splittable_loop fuel bm oid operation_id work_units deadline pos.

(** The innermost loop of [_walk_splittable],
    [while run_end - hb < effective_end - hb and bits[run_end - hb] == 1:
     run_end += 1]; [n] is [effective_end - run_end]. *)
Fixpoint run_extent (n : nat) (bits : list Z) (horizon_begin : Z)
    (run_end : Z) : outcome Z :=
  match n with
  | O => Ret run_end
  | S n' =>
      b ← getitem bits (run_end - horizon_begin);
      if b =? 1 then run_extent n' bits horizon_begin (run_end + 1)
      else Ret run_end
  end.

(** The local variables of [_walk_splittable] that its loops update. *)
Record split_state : Type := mk_split {
  s_spans : list span;
  s_first_start : option Z;
  s_remaining : Z
}.

(** The loop [while i < effective_end - bitmap.horizon_begin] of
    [_walk_splittable].  Every round moves [i] forward, so [n], at least
    [effective_end - horizon_begin - i], bounds the rounds. *)
Fixpoint split_scan (n : nat) (bits : list Z)
    (horizon_begin effective_end min_split : Z) (i : Z) (st : split_state)
  : outcome split_state :=
  if i <? effective_end - horizon_begin then
    match n with
    | O => OutOfFuel
    | S n' =>
        b ← getitem bits i;
        if b =? 1 then
          let run_start := i + horizon_begin in
          run_end ← run_extent (Z.to_nat (effective_end - run_start)) bits
                               horizon_begin run_start;
          let run_length := run_end - run_start in
          if run_length <? min_split then
            split_scan n' bits horizon_begin effective_end min_split
                       (run_end - horizon_begin) st
          else
            let consume := Z.min run_length (s_remaining st) in
            let st' :=
              mk_split (s_spans st ++ [(run_start, run_start + consume)])
                       (match s_first_start st with
                        | None => Some run_start
                        | Some f => Some f
                        end)
                       (s_remaining st - consume) in
            if s_remaining st' <=? 0 then Ret st'
            else split_scan n' bits horizon_begin effective_end min_split
                            (run_end - horizon_begin) st'
        else split_scan n' bits horizon_begin effective_end min_split (i + 1) st
    end
  else Ret st.

(** The loop [while remaining > 0] of [_walk_splittable]. *)
Fixpoint splittable_loop (fuel : nat) (bm : OccupancyBitmap)
    (operation_id : string) (work_units min_split : Z) (deadline : option Z)
    (pos : Z) (st : split_state) : outcome split_state * OccupancyBitmap :=
  if s_remaining st >? 0 then
    match fuel with
    | O => (OutOfFuel, bm)
    | S fuel' =>
        let extended :=
          if pos >=? horizon_end bm then
            if reached deadline pos
            then (Raise (infeasible operation_id (s_remaining st) work_units), bm)
            else _extend_to bm (pos + _DEFAULT_EXTEND_DAYS * 1440)
          else (Ret (), bm) in
        match extended with
        | (Raise e, bm) => (Raise e, bm)
        | (OutOfFuel, bm) => (OutOfFuel, bm)
        | (Ret _, bm) =>
            let effective_end := clip_end bm deadline in
            let i := pos - horizon_begin bm in
            match split_scan (Z.to_nat (effective_end - horizon_begin bm - i))
                             (bits bm) (horizon_begin bm) effective_end
                             min_split i st with
            | Raise e => (Raise e, bm)
            | OutOfFuel => (OutOfFuel, bm)
            | Ret st =>
                if s_remaining st >? 0 then
                  if reached deadline effective_end
                  then (Raise (infeasible operation_id (s_remaining st)
                                          work_units), bm)
                  else
                    let pos := effective_end in
                    let extended :=
                      if pos >=? horizon_end bm
                      then _extend_to bm (pos + _DEFAULT_EXTEND_DAYS * 1440)
                      else (Ret (), bm) in
                    match extended with
                    | (Raise e, bm) => (Raise e, bm)
                    | (OutOfFuel, bm) => (OutOfFuel, bm)
                    | (Ret _, bm) =>
                        splittable_loop fuel' bm operation_id work_units
                                        min_split deadline pos st
                    end
                else (Ret st, bm)
            end
        end
    end
  else (Ret st, bm).

Definition _walk_splittable (fuel : nat) (bm : OccupancyBitmap)
    (oid : nat) (operation_id : string) (earliest_start work_units : Z)
    (min_split : Z) (deadline : option Z)
  : outcome AllocationRecord * OccupancyBitmap :=
  let pos := Z.max earliest_start (horizon_begin bm) in
  match splittable_loop fuel bm operation_id work_units min_split deadline pos
                        (mk_split [] None work_units) with
  | (Raise e, bm) => (Raise e, bm)
  | (OutOfFuel, bm) => (OutOfFuel, bm)
  | (Ret st, bm) =>
      (* [spans[-1][1]] *)
      match last (s_spans st) with
      | None => (Raise IndexError, bm)
      | Some last_span =>
          let last_end := last_span.2 in
          (* [start=first_start] is set whenever a span has been added *)
          (Ret (mk_record oid operation_id (resource_id bm)
                          (default 0 (s_first_start st)) last_end work_units
                          true (s_spans st)), bm)
      end
  end.

(** [walk]; [oid] is the identity of the record it constructs. *)
Definition walk (fuel : nat) (bm : OccupancyBitmap) (oid : nat)
    (operation_id : string) (earliest_start work_units : Z)
    (allow_split : bool) (min_split : Z) (deadline : option Z)
  : outcome AllocationRecord * OccupancyBitmap :=
  if allow_split
  then _walk_splittable fuel bm oid operation_id earliest_start work_units
                        min_split deadline
  else _walk_non_splittable fuel bm oid operation_id earliest_start work_units
                            deadline.

(** [_mark_spans], on the bytearray of the bitmap. *)
Fixpoint mark_spans_bits (bits : list Z) (horizon_begin : Z)
    (spans : list span) (value : Z) : outcome unit * list Z :=
  match spans with
  | [] => (Ret (), bits)
  | (begin, end_) :: rest =>
      let offset := begin - horizon_begin in
      match set_range bits offset (offset + (end_ - begin)) value with
      | (Ret _, bits') => mark_spans_bits bits' horizon_begin rest value
      | (Raise e, bits') => (Raise e, bits')
      | (OutOfFuel, bits') => (OutOfFuel, bits')
      end
  end.

Definition _mark_spans (bm : OccupancyBitmap) (spans : list span) (value : Z)
  : outcome unit * OccupancyBitmap :=
  let '(r, bits') := mark_spans_bits (bits bm) (horizon_begin bm) spans value in
  (r, set_bits bm bits').

Definition allocate (fuel : nat) (bm : OccupancyBitmap) (oid : nat)
    (operation_id : string) (earliest_start work_units : Z)
    (allow_split : bool) (min_split : Z) (deadline : option Z)
  : outcome AllocationRecord * OccupancyBitmap :=
  match walk fuel bm oid operation_id earliest_start work_units allow_split
             min_split deadline with
  | (Raise e, bm) => (Raise e, bm)
  | (OutOfFuel, bm) => (OutOfFuel, bm)
  | (Ret record, bm) =>
      match _mark_spans bm (spans record) 0 with
      | (Raise e, bm) => (Raise e, bm)
      | (OutOfFuel, bm) => (OutOfFuel, bm)
      | (Ret _, bm) =>
          (Ret record, set_allocations bm (_allocations bm ++ [record]))
      end
  end.

(** [span_start < end_offset and start_offset < span_end] *)
Definition span_hits (start_offset end_offset : Z) (s : span) : bool :=
  (s.1 <? end_offset) && (start_offset <? s.2).

(** The conflict loop of [apply_dynamic_exception]: a record is appended
    at its first span that passes the test. *)
Definition conflicts_of (allocations : list AllocationRecord)
    (start_offset end_offset : Z) : list AllocationRecord :=
  List.filter (fun record => existsb (span_hits start_offset end_offset)
                                     (spans record)) allocations.

Definition apply_dynamic_exception (bm : OccupancyBitmap)
    (start_offset end_offset : Z) (is_working : bool)
  : outcome (list AllocationRecord) * OccupancyBitmap :=
  let offset_begin := start_offset - horizon_begin bm in
  let offset_end := end_offset - horizon_begin bm in
  if is_working then
    match set_range (bits bm) (Z.max 0 offset_begin)
                    (Z.min (len (bits bm)) offset_end) 1 with
    | (Ret _, bits') => (Ret [], set_bits bm bits')
    | (Raise e, bits') => (Raise e, set_bits bm bits')
    | (OutOfFuel, bits') => (OutOfFuel, set_bits bm bits')
    end
  else
    let conflicts := conflicts_of (_allocations bm) start_offset end_offset in
    match set_range (bits bm) (Z.max 0 offset_begin)
                    (Z.min (len (bits bm)) offset_end) 0 with
    | (Ret _, bits') => (Ret conflicts, set_bits bm bits')
    | (Raise e, bits') => (Raise e, set_bits bm bits')
    | (OutOfFuel, bits') => (OutOfFuel, set_bits bm bits')
    end.

(** [a is not record] compares identities. *)
Definition deallocate (bm : OccupancyBitmap) (record : AllocationRecord)
  : outcome unit * OccupancyBitmap :=
  match _mark_spans bm (spans record) 1 with
  | (Raise e, bm) => (Raise e, bm)
  | (OutOfFuel, bm) => (OutOfFuel, bm)
  | (Ret _, bm) =>
      (Ret (), set_allocations bm
                 (List.filter (fun a => negb (Nat.eqb (obj_id a) (obj_id record)))
                              (_allocations bm)))
  end.

(** ** The standard calendar of the test suite *)

(** Monday 2025-01-06, [date(2025, 1, 6).toordinal()]. *)
Definition epoch_date : date := 739257.
Definition EPOCH : datetime := combine epoch_date midnight.

Definition working_day : list period := [(mk_time 8 0, mk_time 17 0)].

(** Mon-Fri 08:00-17:00, no exceptions. *)
Definition standard_calendar : WorkingCalendar :=
  WorkingCalendar_init "standard"
    (list_to_map [(0, working_day); (1, working_day); (2, working_day);
                  (3, working_day); (4, working_day)])
    ∅.

(** [make_bitmap("standard")]: the week from the epoch, MINUTE
    resolution. *)
Definition standard_bitmap : outcome OccupancyBitmap :=
  from_calendar standard_calendar EPOCH (EPOCH + 7 * us_per_day) EPOCH MINUTE.

(** ** Notions used by the properties *)

(** The bit of the unit slot [j], an absolute offset, when the bytearray
    that starts at [horizon_begin] covers it. *)
Definition bit_at (bits : list Z) (horizon_begin j : Z) : option Z :=
  if j <? horizon_begin then None else bits !! Z.to_nat (j - horizon_begin).

Definition unit_bit (bm : OccupancyBitmap) (j : Z) : option Z :=
  bit_at (bits bm) (horizon_begin bm) j.

(** Every unit of the span [s] is covered and holds [v]. *)
Definition span_filled (bits : list Z) (horizon_begin v : Z) (s : span) : Prop :=
  forall j, s.1 <= j < s.2 -> bit_at bits horizon_begin j = Some v.

(** The unit [j] lies in one of the spans. *)
Definition in_spans (l : list span) (j : Z) : Prop :=
  Exists (fun s : span => s.1 <= j < s.2) l.

(** The unit [j] lies in a span of the record. *)
Definition covers (r : AllocationRecord) (j : Z) : Prop :=
  in_spans (spans r) j.

#[global] Instance in_spans_dec (l : list span) (j : Z) : Decision (in_spans l j).
Proof. unfold in_spans. apply _. Defined.

(** The run state of [scan_run] before it reads [bits[i]]. *)
Definition run_state_ok (bits : list Z) (hb w i : Z)
    (run_start : option Z) (run_length : Z) : Prop :=
  match run_start with
  | None => True
  | Some s => hb <= s /\ run_length = i + hb - s /\ 1 <= run_length < w /\
              forall j, s <= j < i + hb -> bit_at bits hb j = Some 1
  end.

(** Invariant (I2): every unit of every span of every committed
    allocation has its bit at 0. *)
Definition I2 (bm : OccupancyBitmap) : Prop :=
  forall r, r ∈ _allocations bm -> forall j, covers r j -> unit_bit bm j = Some 0.

(** [bm'] is [bm] with bits appended, as auto-extension leaves it. *)
Definition extends (bm bm' : OccupancyBitmap) : Prop :=
  exists ext, bm' = set_bits bm (bits bm ++ ext).

(** No committed record has the identity [oid]: what Python guarantees
    for the identity of a newly constructed object. *)
Definition fresh (oid : nat) (bm : OccupancyBitmap) : Prop :=
  Forall (fun r => obj_id r <> oid) (_allocations bm).

#[global] Instance AllocationRecord_eq_dec : EqDecision AllocationRecord.
Proof. solve_decision. Defined.

(** The calls a scheduler makes on one bitmap. *)
Inductive operation : Type :=
| Allocate (oid : nat) (operation_id : string) (earliest_start work_units : Z)
           (allow_split : bool) (min_split : Z) (deadline : option Z)
| Walk (oid : nat) (operation_id : string) (earliest_start work_units : Z)
       (allow_split : bool) (min_split : Z) (deadline : option Z)
| Deallocate (record : AllocationRecord)
| DynamicException (start_offset end_offset : Z) (is_working : bool).

(** The bitmap after one call, whether the call returned or raised;
    [None] when the call did not end within [fuel]. *)
Definition run_op (fuel : nat) (bm : OccupancyBitmap) (o : operation)
  : option OccupancyBitmap :=
  match o with
  | Allocate oid op es w split ms deadline =>
      match allocate fuel bm oid op es w split ms deadline with
      | (OutOfFuel, _) => None
      | (_, bm') => Some bm'
      end
  | Walk oid op es w split ms deadline =>
      match walk fuel bm oid op es w split ms deadline with
      | (OutOfFuel, _) => None
      | (_, bm') => Some bm'
      end
  | Deallocate record =>
      match deallocate bm record with
      | (OutOfFuel, _) => None
      | (_, bm') => Some bm'
      end
  | DynamicException b e is_working =>
      match apply_dynamic_exception bm b e is_working with
      | (OutOfFuel, _) => None
      | (_, bm') => Some bm'
      end
  end.

Fixpoint run_ops (fuel : nat) (bm : OccupancyBitmap) (os : list operation)
  : option OccupancyBitmap :=
  match os with
  | [] => Some bm
  | o :: os' =>
      match run_op fuel bm o with
      | Some bm' => run_ops fuel bm' os'
      | None => None
      end
  end.

(** A span of the record meets the half-open range [[b, e)]. *)
Definition intersects (r : AllocationRecord) (b e : Z) : Prop :=
  exists j, b <= j < e /\ covers r j.

#[global] Instance intersects_dec (r : AllocationRecord) (b e : Z) :
  Decision (intersects r b e).
Proof.
  refine (cast_if (decide (Exists (fun s : span => Z.max b s.1 < Z.min e s.2)
                                  (spans r))));
    unfold intersects, covers, in_spans.
  - abstract (apply Exists_exists in e0 as (s & Hs & Hlt); exists (Z.max b s.1);
              split; [lia|]; apply Exists_exists; exists s; split; [done|lia]).
  - abstract (intros (j & Hj & Hex); apply n;
              apply Exists_exists in Hex as (s & Hs & Hjs);
              apply Exists_exists; exists s; split; [done|lia]).
Defined.

(** The calls under which (I2) is kept: an allocation constructs a new
    record, a release is given a committed record, and a dynamic
    exception either removes capacity or adds it over a range that meets
    no span of a committed record. *)
Definition admissible (bm : OccupancyBitmap) (o : operation) : Prop :=
  match o with
  | Allocate oid _ _ _ _ _ _ => fresh oid bm
  | Walk _ _ _ _ _ _ _ => True
  | Deallocate record => record ∈ _allocations bm
  | DynamicException b e is_working =>
      is_working = false \/
      Forall (fun r => ~ intersects r b e) (_allocations bm)
  end.

Fixpoint admissible_run (fuel : nat) (bm : OccupancyBitmap)
    (os : list operation) : Prop :=
  match os with
  | [] => True
  | o :: os' =>
      admissible bm o /\
      match run_op fuel bm o with
      | Some bm' => admissible_run fuel bm' os'
      | None => True
      end
  end.

(** The spans of two committed records with different identities share
    no unit. *)
Definition disjoint_allocations (l : list AllocationRecord) : Prop :=
  forall r1 r2, r1 ∈ l -> r2 ∈ l -> obj_id r1 <> obj_id r2 ->
  forall j, covers r1 j -> covers r2 j -> False.

(** The invariant that the admissible calls keep; it contains (I2). *)
Definition consistent (bm : OccupancyBitmap) : Prop :=
  I2 bm /\ NoDup (map obj_id (_allocations bm)) /\
  disjoint_allocations (_allocations bm).

(** The result of a computation that returns, [d] otherwise. *)
Definition the {A : Type} (o : outcome A) (d : A) : A :=
  match o with
  | Ret a => a
  | _ => d
  end.

Definition empty_bitmap : OccupancyBitmap :=
  mk_bitmap "" 0 [] standard_calendar MINUTE EPOCH [].

(** The bits of the standard calendar over one day, by minutes: 08:00 is
    minute 480 and 17:00 minute 1020. *)
Definition day_bits (working : bool) : list Z :=
  if working
  then replicate 480%nat 0 ++ replicate 540%nat 1 ++ replicate 420%nat 0
  else replicate 1440%nat 0.

(** The fresh standard bitmap, [make_bitmap("standard")]: five working
    days and the weekend. *)
Definition std : OccupancyBitmap :=
  mk_bitmap "standard" 0
            (concat (replicate 5%nat (day_bits true))
             ++ concat (replicate 2%nat (day_bits false)))
            standard_calendar MINUTE EPOCH [].

(** The standard calendar materialised by hours from Monday 00:00 to
    Monday 12:00. *)
Definition morning_bitmap : outcome OccupancyBitmap :=
  from_calendar standard_calendar EPOCH (EPOCH + 720 * us_per_minute) EPOCH HOUR.

Definition morning : OccupancyBitmap :=
  mk_bitmap "standard" 0 (replicate 8%nat 0 ++ replicate 4%nat 1)
            standard_calendar HOUR EPOCH [].

Definition no_record : AllocationRecord := mk_record 0 "" "" 0 0 0 false [].

(** Scenario S7: two hours allocated from Monday 08:00 on the fresh
    standard bitmap. *)
Definition s7_allocated : outcome AllocationRecord * OccupancyBitmap :=
  allocate 1 std 0 "OP-1" 480 120 false 1 None.

(** The record that scenario S7 commits. *)
Definition s7_record : AllocationRecord :=
  mk_record 0 "OP-1" "standard" 480 600 120 false [(480, 600)].

(** Overtime declared over a committed allocation. *)
Definition overtime_scenario : option OccupancyBitmap :=
  run_ops 1 std [Allocate 0 "OP-1" 480 120 false 1 None;
                 DynamicException 480 600 true].

(** Overtime on Monday evening, a breakdown, a search and a release
    after an allocation. *)
Definition breakdown_calls : list operation :=
  [Allocate 0 "OP-1" 480 120 false 1 None;
   DynamicException 1020 1200 true;
   DynamicException 540 600 false;
   Walk 1 "OP-2" 480 60 false 1 None;
   Deallocate s7_record].

#[global] Instance admissible_dec (bm : OccupancyBitmap) (o : operation) :
  Decision (admissible bm o).
Proof. destruct o; cbn; unfold fresh; apply _. Defined.

#[global] Instance admissible_run_dec (fuel : nat) (os : list operation) :
  forall bm, Decision (admissible_run fuel bm os).
Proof.
  induction os as [|o os IH]; intros bm; cbn; [apply _|].
  destruct (run_op fuel bm o); apply _.
Defined.

(** All the [w] units from [s] are free. *)
Definition free_run (bm : OccupancyBitmap) (s w : Z) : Prop :=
  span_filled (bits bm) (horizon_begin bm) 1 (s, s + w).

Definition free_runb (bm : OccupancyBitmap) (s w : Z) : bool :=
  forallb (fun j => bool_decide (unit_bit bm j = Some 1)) (seqZ s w).

(** The record has no empty span. *)
Definition proper_spans (r : AllocationRecord) : Prop :=
  Forall (fun s : span => s.1 < s.2) (spans r).

(** The spans of the record lie in the window of the bitmap. *)
Definition in_window (bm : OccupancyBitmap) (r : AllocationRecord) : Prop :=
  Forall (fun s : span => horizon_begin bm <= s.1 /\ s.2 <= horizon_end bm)
         (spans r).

(** A record for Monday 08:00 of the week after the one that the fresh
    standard bitmap covers. *)
Definition next_week_record : AllocationRecord :=
  mk_record 7 "OP-9" "standard" 10560 10620 60 false [(10560, 10620)].

(** A record for the hour before the epoch. *)
Definition last_week_record : AllocationRecord :=
  mk_record 8 "OP-8" "standard" (-60) 0 60 false [(-60, 0)].

(** An exception clears the date: one of its entries is
    [is_working=False] without a time range. *)
Definition cleared (cal : WorkingCalendar) (d : date) : Prop :=
  exists entries, _exceptions cal !! d = Some entries /\
                  existsb full_removal entries = true.

(** The entry is [is_working=True] with the times of [p]. *)
Definition working_entry (p : period) (en : entry) : Prop :=
  is_working en = Some true /\ e_start en = Some p.1 /\ e_end en = Some p.2.

(** A night shift from Monday 22:00 to Tuesday 06:00, and Tuesday
    2025-01-07 closed, but for four hours of maintenance in the second
    calendar. *)
Definition tuesday : date := epoch_date + 1.

Definition night_shift : gmap Z (list period) :=
  {[ 0 := [(mk_time 22 0, mk_time 6 0)] ]}.

Definition closed_entry : entry := mk_entry (Some false) None None.

Definition night_calendar : WorkingCalendar :=
  WorkingCalendar_init "night" night_shift {[ tuesday := [closed_entry] ]}.

Definition maintenance_calendar : WorkingCalendar :=
  WorkingCalendar_init "maintenance" night_shift
    {[ tuesday := [closed_entry;
                   mk_entry (Some true) (Some (mk_time 10 0)) (Some (mk_time 14 0))] ]}.

(** The intervals are ordered and do not overlap, and lie between [lo]
    and [hi]. *)
Fixpoint chain (lo : Z) (l : list (datetime * datetime)) (hi : Z) : Prop :=
  match l with
  | [] => lo <= hi
  | (s, e) :: l' => lo <= s /\ s <= e /\ chain e l' hi
  end.

(** Every date of the calendar resolves to intervals that are ordered,
    do not overlap and lie within the date. *)
Definition well_formed (cal : WorkingCalendar) : Prop :=
  forall d, exists intervals,
    _datetime_intervals_for_date cal d = Ret intervals /\
    chain (combine d midnight) intervals (combine (d + 1) midnight).

(** [dt] is on a whole minute. *)
Definition whole_minute (dt : datetime) : Prop := (us_per_minute | dt).

(** [dt] lies in working time: in a half-open interval of some date. *)
Definition in_working_time (cal : WorkingCalendar) (dt : datetime) : Prop :=
  exists d intervals s e,
    _datetime_intervals_for_date cal d = Ret intervals /\
    (s, e) ∈ intervals /\ s <= dt < e.

(** [dt] lies in an interval of some date and is not its start: working
    time precedes it. *)
Definition after_working_time (cal : WorkingCalendar) (dt : datetime) : Prop :=
  exists d intervals s e,
    _datetime_intervals_for_date cal d = Ret intervals /\
    (s, e) ∈ intervals /\ s < dt <= e.

(** The ends of the intervals are on whole minutes. *)
Definition aligned_intervals (l : list (datetime * datetime)) : Prop :=
  Forall (fun iv => whole_minute iv.1 /\ whole_minute iv.2) l.

(** The remaining minutes, when a scan runs to its end. *)
Definition forget (x : datetime + Z * datetime) : datetime + Z :=
  match x with
  | inl p => inl p
  | inr (r, _) => inr r
  end.

(** An interval and the result of a scan, with time reversed. *)
Definition mirror (iv : datetime * datetime) : datetime * datetime :=
  (- iv.2, - iv.1).

Definition mirror_result (x : datetime + Z * datetime) : datetime + Z * datetime :=
  match x with
  | inl p => inl (- p)
  | inr (r, c) => inr (r, - c)
  end.

(** The intervals of a date, for a calendar that resolves it. *)
Definition day_intervals (cal : WorkingCalendar) (d : date)
  : list (datetime * datetime) :=
  the (_datetime_intervals_for_date cal d) [].

(** The intervals of the [n] dates from [d]. *)
Fixpoint flat (cal : WorkingCalendar) (d : date) (n : nat)
  : list (datetime * datetime) :=
  match n with
  | O => []
  | S n' => day_intervals cal d ++ flat cal (d + 1) n'
  end.

(** The intervals of the dates from [a] to [b - 1]. *)
Definition between (cal : WorkingCalendar) (a b : date)
  : list (datetime * datetime) :=
  flat cal a (Z.to_nat (b - a)).

(** The intervals of the [n] dates back from [d], latest first. *)
Fixpoint flat_back (cal : WorkingCalendar) (d : date) (n : nat)
  : list (datetime * datetime) :=
  match n with
  | O => []
  | S n' => rev (day_intervals cal d) ++ flat_back cal (d - 1) n'
  end.

Definition monday_1600 : datetime := EPOCH + timedelta_minutes 960.
Definition monday_1630 : datetime := EPOCH + timedelta_minutes 990.
Definition tuesday_0830 : datetime := EPOCH + timedelta_minutes 1950.

(** ** More of the shared types *)

(** [AllocationRecord.wall_time] *)
Definition wall_time (r : AllocationRecord) : Z := finish r - start r.

(** [AllocationRecord.is_complete] *)
Definition is_complete (r : AllocationRecord) (required_work_units : Z) : bool :=
  work_units r >=? required_work_units.

(** ** More of Layer 1: counting working minutes *)

(** The body of [for iv_start, iv_end in intervals] in
    [working_minutes_between]; the result is [total] after the loop. *)
Fixpoint count_minutes (start end_ : datetime)
    (intervals : list (datetime * datetime)) (total : Z) : Z :=
  match intervals with
  | [] => total
  | (iv_start, iv_end) :: rest =>
      let effective_start := Z.max iv_start start in
      let effective_end := Z.min iv_end end_ in
      if effective_start <? effective_end then
        let minutes :=
          int_total_seconds (effective_end - effective_start) / 60 in
        count_minutes start end_ rest (total + minutes)
      else count_minutes start end_ rest total
  end.

(** [while current_date <= end_date] in [working_minutes_between], once
    for each of the [n] dates from [current_date] to [end_date]. *)
Fixpoint minutes_from (n : nat) (cal : WorkingCalendar)
    (start end_ : datetime) (current_date : date) (total : Z) : outcome Z :=
  match n with
  | O => Ret total
  | S n' =>
      intervals ← _datetime_intervals_for_date cal current_date;
      minutes_from n' cal start end_ (current_date + 1)
                   (count_minutes start end_ intervals total)
  end.

Definition working_minutes_between (cal : WorkingCalendar)
    (start end_ : datetime) : outcome Z :=
  if start >=? end_ then Ret 0
  else
    let current_date := date_of start in
    let end_date := date_of end_ in
    minutes_from (Z.to_nat (end_date - current_date + 1)) cal
                 start end_ current_date 0.

(** ** More of Layer 2: snapshots of a bitmap *)

(** The record [r] as a new object with the identity [oid]. *)
Definition with_id (oid : nat) (r : AllocationRecord) : AllocationRecord :=
  mk_record oid (operation_id r) (r_resource_id r) (start r) (finish r)
            (work_units r) (allow_split r) (spans r).

(** [pickle.loads] of a pickled list of records: every record is
    constructed anew, with the next of the identities from [oid]; a
    record that occurs again in the list (the same object, which [memo]
    maps to its copy) is the same copy again. *)
Fixpoint unpickle (memo : list (nat * nat)) (oid : nat)
    (l : list AllocationRecord) : list AllocationRecord :=
  match l with
  | [] => []
  | r :: l' =>
      match list_find (fun p => p.1 = obj_id r) memo with
      | Some (_, (_, new)) => with_id new r :: unpickle memo oid l'
      | None => with_id oid r :: unpickle ((obj_id r, oid) :: memo) (S oid) l'
      end
  end.

(** [checkpoint]: what the pickled bytes hold, [(bytes(self.bits),
    list(self._allocations))]. *)
Definition checkpoint (bm : OccupancyBitmap)
  : list Z * list AllocationRecord :=
  (bits bm, _allocations bm).

(** [restore]; [oid] is the first identity of the records that
    [pickle.loads] constructs. *)
Definition restore (bm : OccupancyBitmap)
    (snap : list Z * list AllocationRecord) (oid : nat) : OccupancyBitmap :=
  let '(bits_data, allocations) := (snap.1, unpickle [] oid snap.2) in
  (* [self.bits[:] = bits_data] *)
  let bits1 := bits_data in
  let bits2 := if len bits_data <? len bits1
               then take (Z.to_nat (len bits_data)) bits1 else bits1 in
  set_allocations (set_bits bm bits2) allocations.

(** ** The reference scheduler *)

Record Operation : Type := mk_operation {
  op_operation_id : string;
  op_resource_id : string;
  op_work_units : Z;
  op_earliest_start : Z;
  op_allow_split : bool;
  op_min_split : Z;
  op_deadline : option Z
}.

(** The bitmaps are objects that [resources] refers to: [resources] maps
    a resource to the location of its bitmap in the store, and two
    resources may share a bitmap. *)
Definition store : Type := nat -> OccupancyBitmap.

(** The store after the bitmap at [l] has been mutated into [bm]. *)
Definition store_set (h : store) (l : nat) (bm : OccupancyBitmap) : store :=
  fun l' => if Nat.eqb l' l then bm else h l'.

(** The loop of [greedy_schedule]; the record of the [i]-th operation
    has the identity [oid + i]. *)
Fixpoint greedy_loop (fuel : nat) (oid : nat) (operations : list Operation)
    (resources : gmap string nat) (h : store) (results : list AllocationRecord)
  : outcome (list AllocationRecord) * store :=
  match operations with
  | [] => (Ret results, h)
  | op :: operations' =>
      match resources !! op_resource_id op with
      | None => (Raise KeyError, h)
      | Some l =>
          match allocate fuel (h l) oid (op_operation_id op)
                         (op_earliest_start op) (op_work_units op)
                         (op_allow_split op) (op_min_split op)
                         (op_deadline op) with
          | (Ret record, bm) =>
              greedy_loop fuel (S oid) operations' resources (store_set h l bm)
                          (results ++ [record])
          | (Raise e, bm) => (Raise e, store_set h l bm)
          | (OutOfFuel, bm) => (OutOfFuel, store_set h l bm)
          end
      end
  end.

Definition greedy_schedule (fuel : nat) (oid : nat)
    (operations : list Operation) (resources : gmap string nat) (h : store)
  : outcome (list AllocationRecord) * store :=
  greedy_loop fuel oid operations resources h [].

(** ** Notions used by the further properties *)

(** The fields of a record, which [==] compares. *)
Definition fields (r : AllocationRecord) : AllocationRecord := with_id 0 r.

(** The whole minutes of a list of intervals. *)
Definition minutes_of (l : list (datetime * datetime)) : Z :=
  foldr (fun iv total => int_total_seconds (iv.2 - iv.1) / 60 + total) 0 l.

(** Neighbours of the list are in the order [leb]. *)
Fixpoint ordered {A : Type} (leb : A -> A -> bool) (l : list A) : Prop :=
  match l with
  | [] => True
  | x :: l' =>
      match l' with
      | [] => True
      | y :: _ => leb x y = true
      end /\ ordered leb l'
  end.

(** The entry adds no period and does not clear the date: what
    [_resolve_exceptions] leaves for a removal with a time range. *)
Definition ignored_entry (en : entry) : Prop :=
  default false (is_working en) = false /\ full_removal en = false.

(** A machine breakdown on Monday from 10:00 to 12:00, as a planned
    exception of the standard calendar. *)
Definition breakdown_calendar : WorkingCalendar :=
  WorkingCalendar_init "breakdown"
    (list_to_map [(0, working_day); (1, working_day); (2, working_day);
                  (3, working_day); (4, working_day)])
    {[ epoch_date := [mk_entry (Some false) (Some (mk_time 10 0))
                               (Some (mk_time 12 0))] ]}.

(** The unit [j] lies in one of the intervals, converted as
    [_fill_bits_from_calendar] converts them. *)
Definition working_unit (resolution : TimeResolution) (epoch : datetime)
    (intervals : list (datetime * datetime)) (j : Z) : bool :=
  existsb (fun iv =>
             match to_int resolution iv.1 epoch, to_int resolution iv.2 epoch with
             | Ret a, Ret b => (a <=? j) && (j <? b)
             | _, _ => false
             end) intervals.

(** The units of the spans, [sum(end - begin for begin, end in spans)]. *)
Definition span_units (l : list span) : Z :=
  foldr (fun s total => s.2 - s.1 + total) 0 l.

(** The run state of [scan_run], as far as the positions go. *)
Definition run_position_ok (hb w i : Z) (run_start : option Z)
    (run_length : Z) : Prop :=
  match run_start with
  | None => True
  | Some s => run_length = i + hb - s /\ 1 <= run_length < w
  end.

(** The state of [_walk_splittable] when it looks for the next run from
    [bound], having started at [lo] for [w] units. *)
Definition split_inv (w min_split lo : Z) (st : split_state) (bound : Z) : Prop :=
  chain lo (s_spans st) bound /\
  Forall (fun s : span => s.1 < s.2) (s_spans st) /\
  span_units (s_spans st) + s_remaining st = w /\
  0 <= s_remaining st /\
  s_first_start st = fst <$> head (s_spans st) /\
  (0 < s_remaining st ->
   Forall (fun s : span => min_split <= s.2 - s.1) (s_spans st)) /\
  Forall (fun s : span => min_split <= s.2 - s.1) (removelast (s_spans st)).

(** Twelve hours with the hour from 9 to 10 taken out of the working
    time. *)
Definition gapped : OccupancyBitmap :=
  mk_bitmap "standard" 0 (replicate 8%nat 0 ++ [1; 0; 1; 1])
            standard_calendar HOUR EPOCH [].

(** The identities of the committed records of every bitmap are below
    [oid], so that [oid] and its successors are new. *)
Definition ids_below (oid : nat) (h : store) : Prop :=
  forall l, Forall (fun r => (obj_id r < oid)%nat) (_allocations (h l)).

(** The operation and the record that answers it. *)
Definition answers (op : Operation) (r : AllocationRecord) : Prop :=
  operation_id r = op_operation_id op /\
  work_units r = op_work_units op /\
  allow_split r = op_allow_split op.

(** Two jobs of two hours on the morning of the standard calendar. *)
Definition two_jobs : list operation :=
  [Allocate 0 "OP-1" 8 2 false 1 None; Allocate 1 "OP-2" 8 2 false 1 None].

Definition two_operations : list Operation :=
  [mk_operation "OP-1" "M1" 2 8 false 1 None;
   mk_operation "OP-2" "M1" 2 8 false 1 None].

Definition one_machine : gmap string nat := {[ "M1" := 0%nat ]}.

Definition morning_store : store := fun _ => morning.

(** [bm'] is [bm] but for its bits and its allocations. *)
Definition same_frame (bm bm' : OccupancyBitmap) : Prop :=
  exists bits' allocations',
    bm' = set_allocations (set_bits bm bits') allocations'.

(** The first of the two jobs, and the morning once it is committed. *)
Definition first_job : AllocationRecord :=
  mk_record 0 "OP-1" "standard" 8 10 2 false [(8, 10)].

Definition one_job_done : OccupancyBitmap :=
  mk_bitmap "standard" 0 (replicate 10%nat 0 ++ [1; 1])
            standard_calendar HOUR EPOCH [first_job].

(** An operation for a machine that [one_machine] does not have. *)
Definition stray_operation : Operation :=
  mk_operation "OP-3" "M2" 1 8 false 1 None.

(** Every date of the calendar resolves to its intervals: no exception
    entry lacks a time that it needs. *)
Definition resolves (cal : WorkingCalendar) : Prop :=
  forall d, exists intervals, _datetime_intervals_for_date cal d = Ret intervals.

(** The date [d] has a working minute: one minute added at the midnight
    that begins [d] ends within the intervals of [d]. *)
Definition offers_minute (cal : WorkingCalendar) (d : date) : Prop :=
  exists intervals p,
    _datetime_intervals_for_date cal d = Ret intervals /\
    add_scan intervals 1 (combine d midnight) = inl p.

(** The computation ends: it returns or raises. *)
Definition ends {A : Type} (o : outcome A) : Prop := o <> OutOfFuel.

(** * Properties *)

(** ** Bytearray indexing *)

Lemma len_nonneg (bits : list Z) : 0 <= len bits.
Proof. unfold len. lia. Qed.

Lemma len_app (l1 l2 : list Z) : len (l1 ++ l2) = len l1 + len l2.
Proof. unfold len. rewrite length_app. lia. Qed.

Lemma position_nonneg (bits : list Z) (i : Z) : 0 <= i -> position bits i = i.
Proof. intros Hi. unfold position. by destruct (Z.ltb_spec i 0); [lia|]. Qed.

Lemma getitem_Some (bits : list Z) (i : Z) :
  0 <= i < len bits -> exists b, bits !! Z.to_nat i = Some b /\ getitem bits i = Ret b.
Proof.
  intros Hi. unfold getitem. rewrite position_nonneg by lia.
  destruct (Z.ltb_spec i 0); [lia|].
  destruct (bits !! Z.to_nat i) as [b|] eqn:E; [eauto|].
  apply lookup_ge_None in E. unfold len in Hi. lia.
Qed.

Lemma setitem_in_range (bits : list Z) (i v : Z) :
  0 <= i < len bits -> setitem bits i v = Ret (<[Z.to_nat i := v]> bits).
Proof.
  intros Hi. unfold setitem. rewrite position_nonneg by lia.
  destruct (Z.ltb_spec i 0); [lia|].
  destruct (bits !! Z.to_nat i) as [b|] eqn:E; [done|].
  apply lookup_ge_None in E. unfold len in Hi. lia.
Qed.

Lemma set_items_spec (n : nat) : forall (bits : list Z) (i v : Z),
  0 <= i -> i + Z.of_nat n <= len bits ->
  exists bits', set_items n bits i v = (Ret (), bits') /\
    length bits' = length bits /\
    forall k : nat, bits' !! k =
      if decide (i <= Z.of_nat k < i + Z.of_nat n) then Some v else bits !! k.
Proof.
  induction n as [|n IH]; intros bits i v Hi Hn.
  - exists bits. split; [done|]. split; [done|]. intros k.
    destruct (decide _); [lia|done].
  - cbn [set_items]. rewrite setitem_in_range by lia.
    destruct (IH (<[Z.to_nat i := v]> bits) (i + 1) v) as (bits' & E & Hl & Hk).
    { lia. } { unfold len in *. rewrite length_insert. lia. }
    exists bits'. split; [done|]. split; [by rewrite Hl, length_insert|].
    intros k. rewrite Hk.
    destruct (decide (i + 1 <= Z.of_nat k < i + 1 + Z.of_nat n)).
    + destruct (decide _); [done|lia].
    + destruct (decide (i <= Z.of_nat k < i + Z.of_nat (S n))).
      * assert (k = Z.to_nat i) as -> by lia.
        apply list_lookup_insert_eq. unfold len in Hn. lia.
      * apply list_lookup_insert_ne. lia.
Qed.

Lemma set_range_spec (bits : list Z) (lo hi v : Z) :
  (lo < hi -> 0 <= lo /\ hi <= len bits) ->
  exists bits', set_range bits lo hi v = (Ret (), bits') /\
    length bits' = length bits /\
    forall k : nat, bits' !! k =
      if decide (lo <= Z.of_nat k < hi) then Some v else bits !! k.
Proof.
  intros H. unfold set_range.
  destruct (Z.lt_ge_cases lo hi) as [Hlt|Hge].
  - destruct (H Hlt) as [H0 H1].
    destruct (set_items_spec (Z.to_nat (hi - lo)) bits lo v) as (bits' & E & Hl & Hk);
      [lia|lia|].
    exists bits'. split; [done|]. split; [done|]. intros k. rewrite Hk.
    destruct (decide _), (decide _); try done; lia.
  - replace (Z.to_nat (hi - lo)) with O by lia.
    exists bits. split; [done|]. split; [done|]. intros k.
    destruct (decide _); [lia|done].
Qed.

(** ** Auto-extension only appends *)

Lemma set_bits_same (bm : OccupancyBitmap) : set_bits bm (bits bm) = bm.
Proof. by destruct bm. Qed.

Lemma extends_refl (bm : OccupancyBitmap) : extends bm bm.
Proof. exists []. by rewrite app_nil_r, set_bits_same. Qed.

Lemma extends_trans (bm1 bm2 bm3 : OccupancyBitmap) :
  extends bm1 bm2 -> extends bm2 bm3 -> extends bm1 bm3.
Proof.
  intros [e1 ->] [e2 ->]. exists (e1 ++ e2). cbn. by rewrite app_assoc.
Qed.

Lemma extends_horizon_begin (bm bm' : OccupancyBitmap) :
  extends bm bm' -> horizon_begin bm' = horizon_begin bm.
Proof. by intros [e ->]. Qed.

Lemma extends_allocations (bm bm' : OccupancyBitmap) :
  extends bm bm' -> _allocations bm' = _allocations bm.
Proof. by intros [e ->]. Qed.

Lemma extends_resource_id (bm bm' : OccupancyBitmap) :
  extends bm bm' -> resource_id bm' = resource_id bm.
Proof. by intros [e ->]. Qed.

Lemma extends_bits (bm bm' : OccupancyBitmap) :
  extends bm bm' -> exists ext, bits bm' = bits bm ++ ext.
Proof. intros [e ->]. by exists e. Qed.

Lemma extends_same_length (bm bm' : OccupancyBitmap) :
  extends bm bm' -> length (bits bm') = length (bits bm) -> bm' = bm.
Proof.
  intros [e ->]. cbn. rewrite length_app. intros H.
  destruct e; cbn in H; [|lia]. by rewrite app_nil_r, set_bits_same.
Qed.

Lemma bit_at_app (bits ext : list Z) (hb j v : Z) :
  bit_at bits hb j = Some v -> bit_at (bits ++ ext) hb j = Some v.
Proof.
  unfold bit_at. destruct (j <? hb); [done|]. apply lookup_app_l_Some.
Qed.

Lemma extends_unit_bit (bm bm' : OccupancyBitmap) (j v : Z) :
  extends bm bm' -> unit_bit bm j = Some v -> unit_bit bm' j = Some v.
Proof. intros [e ->]. apply bit_at_app. Qed.

Lemma _extend_to_extends (bm : OccupancyBitmap) (needed_end : Z) r bm' :
  _extend_to bm needed_end = (r, bm') -> extends bm bm'.
Proof.
  unfold _extend_to. intros H.
  destruct (needed_end <=? horizon_end bm).
  { inversion H. apply extends_refl. }
  destruct (unit_seconds (_resolution bm) =? 0).
  { inversion H. apply extends_refl. }
  destruct (_ ≫= _) as [new_bits| |] in H; inversion H; subst;
    [by eexists | apply extends_refl..].
Qed.


(** ** What the walks return *)

Lemma bit_at_lookup (bits : list Z) (hb i b : Z) :
  0 <= i -> bits !! Z.to_nat i = Some b -> bit_at bits hb (i + hb) = Some b.
Proof.
  intros Hi E. unfold bit_at. destruct (Z.ltb_spec (i + hb) hb); [lia|].
  by replace (i + hb - hb) with i by lia.
Qed.

Lemma scan_run_sound (n : nat) : forall (bits : list Z) (hb w i : Z) rs rl s,
  0 <= i -> (n <> O -> i + Z.of_nat n <= len bits) ->
  run_state_ok bits hb w i rs rl ->
  scan_run n bits hb w i rs rl = Ret (Some s) ->
  hb <= s /\ span_filled bits hb 1 (s, s + w).
Proof.
  induction n as [|n IH]; intros bits hb w i rs rl s Hi Hn Hinv H; [done|].
  cbn [scan_run] in H. specialize (Hn ltac:(done)).
  destruct (getitem_Some bits i) as (b & Eb & Eg); [lia|].
  rewrite Eg in H. cbn in H.
  destruct (Z.eqb_spec b 1) as [Hb1|Hb].
  - subst b. pose proof (bit_at_lookup bits hb i 1 Hi Eb) as Hbit.
    destruct rs as [s0|].
    + destruct Hinv as (Hs0 & Hrl & Hlt & Hrun).
      destruct (Z.geb_spec (rl + 1) w) as [Hge|Hlt'].
      * inversion H; subst s0. split; [done|]. intros j Hj. cbn in Hj.
        destruct (decide (j = i + hb)) as [->|]; [done|]. apply Hrun. lia.
      * apply (IH bits hb w (i + 1) (Some s0) (rl + 1) s); [lia|lia| |done].
        repeat split; [done|lia|lia|lia|]. intros j Hj.
        destruct (decide (j = i + hb)) as [->|]; [done|]. apply Hrun. lia.
    + destruct (Z.geb_spec 1 w) as [Hge|Hlt'].
      * inversion H; subst s. split; [lia|]. intros j Hj. cbn in Hj.
        by replace j with (i + hb) by lia.
      * apply (IH bits hb w (i + 1) (Some (i + hb)) 1 s); [lia|lia| |done].
        repeat split; [lia|lia|lia|lia|]. intros j Hj.
        by replace j with (i + hb) by lia.
  - apply (IH bits hb w (i + 1) None 0 s); [lia|lia|done|done].
Qed.

Lemma span_filled_extends (bm bm' : OccupancyBitmap) (v : Z) (s : span) :
  extends bm bm' ->
  span_filled (bits bm) (horizon_begin bm) v s ->
  span_filled (bits bm') (horizon_begin bm') v s.
Proof.
  intros [e ->] H j Hj. cbn. by apply bit_at_app, H.
Qed.

(** A deadline that has not been reached by the end of the scan lies
    beyond the horizon, so the scan ended at the horizon. *)
Lemma clip_end_not_reached (bm : OccupancyBitmap) (deadline : option Z) :
  reached deadline (clip_end bm deadline) = false ->
  clip_end bm deadline = horizon_end bm.
Proof.
  unfold reached, clip_end. destruct deadline as [d|]; cbn; [|lia].
  destruct (Z.geb_spec (Z.min (horizon_end bm) d) d); [done|lia].
Qed.

Lemma clip_end_le (bm : OccupancyBitmap) (deadline : option Z) :
  clip_end bm deadline <= horizon_end bm.
Proof. unfold clip_end. lia. Qed.

Lemma horizon_end_extends (bm bm' : OccupancyBitmap) :
  extends bm bm' -> horizon_end bm <= horizon_end bm'.
Proof.
  intros [e ->]. unfold horizon_end. cbn. rewrite len_app.
  pose proof (len_nonneg e). lia.
Qed.

Lemma non_splittable_loop_sound (fuel : nat) :
  forall (bm : OccupancyBitmap) oid op w deadline pos r bm',
  horizon_begin bm <= pos ->
  non_splittable_loop fuel bm oid op w deadline pos = (Ret r, bm') ->
  extends bm bm' /\
  exists s, horizon_begin bm <= s /\
    r = mk_record oid op (resource_id bm) s (s + w) w false [(s, s + w)] /\
    span_filled (bits bm') (horizon_begin bm') 1 (s, s + w).
Proof.
  induction fuel as [|fuel IH]; intros bm oid op w deadline pos r bm' Hpos H;
    [done|].
  cbn [non_splittable_loop] in H.
  set (ext1 := if pos + w >? horizon_end bm then _ else _) in H.
  assert (extends bm ext1.2) as Hx1.
  { subst ext1. destruct (pos + w >? horizon_end bm); [|apply extends_refl].
    destruct (reached deadline pos); [apply extends_refl|].
    destruct (_extend_to _ _) as [o b] eqn:E. by apply _extend_to_extends in E. }
  destruct ext1 as [[[]| |] bm1]; cbn in Hx1; [|done..].
  pose proof (extends_horizon_begin _ _ Hx1) as Hhb1.
  pose proof (clip_end_le bm1 deadline) as Hce.
  destruct (scan_run _ _ _ _ _ _ _) as [[s|]| |] eqn:Escan in H; [| |done..].
  - inversion H; subst r bm'. split; [done|].
    apply scan_run_sound in Escan as [Hs Hfill];
      [ | lia | unfold horizon_end in *; lia | done ].
    exists s. rewrite (extends_resource_id _ _ Hx1). repeat split; [lia|done].
  - destruct (reached deadline (clip_end bm1 deadline)) eqn:Er; [done|].
    apply clip_end_not_reached in Er.
    set (ext2 := if pos + w >? horizon_end bm1 then _ else _) in H.
    assert (extends bm1 ext2.2) as Hx2.
    { subst ext2. destruct (pos + w >? horizon_end bm1); [|apply extends_refl].
      destruct (_extend_to _ _) as [o b] eqn:E. by apply _extend_to_extends in E. }
    destruct ext2 as [[[]| |] bm2]; cbn in Hx2; [|done..].
    pose proof (extends_horizon_begin _ _ Hx2) as Hhb2.
    apply IH in H as (Hx3 & s & Hs & -> & Hfill).
    + split; [eauto using extends_trans|]. exists s.
      rewrite (extends_resource_id _ _ Hx2), (extends_resource_id _ _ Hx1).
      repeat split; [lia|done].
    + rewrite Er, Hhb2. unfold horizon_end. pose proof (len_nonneg (bits bm1)). lia.
Qed.

Lemma run_extent_spec (n : nat) : forall (bits : list Z) (hb run_end : Z),
  hb <= run_end -> (n <> O -> run_end - hb + Z.of_nat n <= len bits) ->
  exists run_end', run_extent n bits hb run_end = Ret run_end' /\
    run_end <= run_end' <= run_end + Z.of_nat n /\
    forall j, run_end <= j < run_end' -> bit_at bits hb j = Some 1.
Proof.
  induction n as [|n IH]; intros bits hb run_end Hhb Hn.
  - exists run_end. split; [done|]. split; [lia|]. intros j Hj. lia.
  - specialize (Hn ltac:(done)). cbn [run_extent].
    destruct (getitem_Some bits (run_end - hb)) as (b & Eb & Eg); [lia|].
    rewrite Eg. cbn. destruct (Z.eqb_spec b 1) as [Hb|Hb].
    + subst b. destruct (IH bits hb (run_end + 1)) as (re' & E & Hre & Hfill);
        [lia|lia|].
      exists re'. split; [done|]. split; [lia|]. intros j Hj.
      destruct (decide (j = run_end)) as [->|]; [|apply Hfill; lia].
      apply bit_at_lookup with (hb := hb) in Eb; [|lia].
      by replace (run_end - hb + hb) with run_end in Eb by lia.
    + exists run_end. split; [done|]. split; [lia|]. intros j Hj. lia.
Qed.

Lemma split_scan_sound (n : nat) :
  forall (bits : list Z) (hb effective_end min_split i : Z) st st',
  0 <= i -> effective_end - hb <= len bits ->
  Forall (span_filled bits hb 1) (s_spans st) ->
  split_scan n bits hb effective_end min_split i st = Ret st' ->
  Forall (span_filled bits hb 1) (s_spans st').
Proof.
  induction n as [|n IH]; intros bits hb ee ms i st st' Hi Hee Hst H.
  - cbn [split_scan] in H. destruct (i <? ee - hb); [done|]. by inversion H; subst.
  - cbn [split_scan] in H.
    destruct (Z.ltb_spec i (ee - hb)) as [Hlt|Hge]; [|by inversion H; subst].
    destruct (getitem_Some bits i) as (b & Eb & Eg); [lia|].
    rewrite Eg in H. cbn in H. destruct (Z.eqb_spec b 1) as [Hb|Hb].
    + subst b.
      destruct (run_extent_spec (Z.to_nat (ee - (i + hb))) bits hb (i + hb))
        as (re & Ere & Hre & Hfill); [lia|lia|].
      rewrite Ere in H. cbn in H.
      destruct (re - (i + hb) <? ms).
      { apply IH in H; [done|lia|done|done]. }
      assert (Forall (span_filled bits hb 1)
                (s_spans st ++ [(i + hb, i + hb + Z.min (re - (i + hb)) (s_remaining st))]))
        as Hst'.
      { apply Forall_app. split; [done|]. apply Forall_singleton.
        intros j Hj. cbn in Hj. apply Hfill. lia. }
      destruct (_ <=? 0) in H; [by inversion H; subst|].
      apply IH in H; [done|lia|done|done].
    + apply IH in H; [done|lia|done|done].
Qed.

Lemma Forall_span_filled_extends (bm bm' : OccupancyBitmap) (v : Z) (l : list span) :
  extends bm bm' ->
  Forall (span_filled (bits bm) (horizon_begin bm) v) l ->
  Forall (span_filled (bits bm') (horizon_begin bm') v) l.
Proof.
  intros Hx H. eapply Forall_impl; [exact H|].
  intros s. by apply span_filled_extends.
Qed.

Lemma splittable_loop_sound (fuel : nat) :
  forall (bm : OccupancyBitmap) op w ms deadline pos st st' bm',
  horizon_begin bm <= pos ->
  Forall (span_filled (bits bm) (horizon_begin bm) 1) (s_spans st) ->
  splittable_loop fuel bm op w ms deadline pos st = (Ret st', bm') ->
  extends bm bm' /\
  Forall (span_filled (bits bm') (horizon_begin bm') 1) (s_spans st').
Proof.
  induction fuel as [|fuel IH]; intros bm op w ms deadline pos st st' bm' Hpos Hst H.
  { cbn [splittable_loop] in H. destruct (s_remaining st >? 0); [done|].
    inversion H; subst. split; [apply extends_refl|done]. }
  cbn [splittable_loop] in H.
  destruct (s_remaining st >? 0);
    [|inversion H; subst; split; [apply extends_refl|done]].
  set (ext1 := if pos >=? horizon_end bm then _ else _) in H.
  assert (extends bm ext1.2) as Hx1.
  { subst ext1. destruct (pos >=? horizon_end bm); [|apply extends_refl].
    destruct (reached deadline pos); [apply extends_refl|].
    destruct (_extend_to _ _) as [o b] eqn:E. by apply _extend_to_extends in E. }
  destruct ext1 as [[[]| |] bm1]; cbn in Hx1; [|done..].
  pose proof (extends_horizon_begin _ _ Hx1) as Hhb1.
  pose proof (clip_end_le bm1 deadline) as Hce.
  destruct (split_scan _ _ _ _ _ _ _) as [st1| |] eqn:Escan in H; [|done..].
  apply split_scan_sound in Escan;
    [ | lia | unfold horizon_end in Hce; lia
      | by apply (Forall_span_filled_extends bm bm1) ].
  destruct (s_remaining st1 >? 0);
    [|by inversion H; subst].
  destruct (reached deadline (clip_end bm1 deadline)) eqn:Er; [done|].
  apply clip_end_not_reached in Er.
  set (ext2 := if clip_end bm1 deadline >=? horizon_end bm1 then _ else _) in H.
  assert (extends bm1 ext2.2) as Hx2.
  { subst ext2. destruct (_ >=? horizon_end bm1); [|apply extends_refl].
    destruct (_extend_to _ _) as [o b] eqn:E. by apply _extend_to_extends in E. }
  destruct ext2 as [[[]| |] bm2]; cbn in Hx2; [|done..].
  pose proof (extends_horizon_begin _ _ Hx2) as Hhb2.
  apply IH in H as [Hx3 Hst3].
  - split; [eauto using extends_trans|done].
  - rewrite Er, Hhb2. unfold horizon_end. pose proof (len_nonneg (bits bm1)). lia.
  - by apply (Forall_span_filled_extends bm1 bm2).
Qed.

(** Every span of a record that [walk] returns covers free units of the
    bitmap as the walk leaves it, and the walk only appends bits. *)
Lemma walk_sound (fuel : nat) (bm : OccupancyBitmap) oid op es w split ms deadline r bm' :
  walk fuel bm oid op es w split ms deadline = (Ret r, bm') ->
  extends bm bm' /\ obj_id r = oid /\
  Forall (span_filled (bits bm') (horizon_begin bm') 1) (spans r).
Proof.
  unfold walk. destruct split.
  - unfold _walk_splittable.
    destruct (splittable_loop _ _ _ _ _ _ _ _) as [[st| |] bm1] eqn:E; [|done..].
    apply splittable_loop_sound in E as [Hx Hst]; [|lia|by constructor].
    destruct (last (s_spans st)); [|done]. intros H. by inversion H; subst.
  - unfold _walk_non_splittable. intros H.
    apply non_splittable_loop_sound in H as (Hx & s & Hs & -> & Hfill); [|lia].
    repeat split; [done|]. by apply Forall_singleton.
Qed.

(** Whatever its outcome, a walk only appends bits. *)
Lemma non_splittable_loop_extends (fuel : nat) :
  forall (bm : OccupancyBitmap) oid op w deadline pos o bm',
  non_splittable_loop fuel bm oid op w deadline pos = (o, bm') -> extends bm bm'.
Proof.
  induction fuel as [|fuel IH]; intros bm oid op w deadline pos o bm' H.
  { inversion H. apply extends_refl. }
  cbn [non_splittable_loop] in H.
  set (ext1 := if pos + w >? horizon_end bm then _ else _) in H.
  assert (extends bm ext1.2) as Hx1.
  { subst ext1. destruct (pos + w >? horizon_end bm); [|apply extends_refl].
    destruct (reached deadline pos); [apply extends_refl|].
    destruct (_extend_to _ _) as [o' b] eqn:E. by apply _extend_to_extends in E. }
  destruct ext1 as [[[]| |] bm1]; cbn in Hx1; [|by inversion H; subst..].
  destruct (scan_run _ _ _ _ _ _ _) as [[s|]| |] in H; [|  |by inversion H; subst..].
  { by inversion H; subst. }
  destruct (reached deadline (clip_end bm1 deadline)); [by inversion H; subst|].
  set (ext2 := if pos + w >? horizon_end bm1 then _ else _) in H.
  assert (extends bm1 ext2.2) as Hx2.
  { subst ext2. destruct (pos + w >? horizon_end bm1); [|apply extends_refl].
    destruct (_extend_to _ _) as [o' b] eqn:E. by apply _extend_to_extends in E. }
  destruct ext2 as [[[]| |] bm2]; cbn in Hx2;
    [|inversion H; subst; eauto using extends_trans..].
  apply IH in H. eauto using extends_trans.
Qed.

Lemma splittable_loop_extends (fuel : nat) :
  forall (bm : OccupancyBitmap) op w ms deadline pos st o bm',
  splittable_loop fuel bm op w ms deadline pos st = (o, bm') -> extends bm bm'.
Proof.
  induction fuel as [|fuel IH]; intros bm op w ms deadline pos st o bm' H.
  { cbn [splittable_loop] in H.
    destruct (s_remaining st >? 0); inversion H; apply extends_refl. }
  cbn [splittable_loop] in H.
  destruct (s_remaining st >? 0); [|inversion H; apply extends_refl].
  set (ext1 := if pos >=? horizon_end bm then _ else _) in H.
  assert (extends bm ext1.2) as Hx1.
  { subst ext1. destruct (pos >=? horizon_end bm); [|apply extends_refl].
    destruct (reached deadline pos); [apply extends_refl|].
    destruct (_extend_to _ _) as [o' b] eqn:E. by apply _extend_to_extends in E. }
  destruct ext1 as [[[]| |] bm1]; cbn in Hx1; [|by inversion H; subst..].
  destruct (split_scan _ _ _ _ _ _ _) as [st1| |] in H; [|by inversion H; subst..].
  destruct (s_remaining st1 >? 0); [|by inversion H; subst].
  destruct (reached deadline (clip_end bm1 deadline)); [by inversion H; subst|].
  set (ext2 := if clip_end bm1 deadline >=? horizon_end bm1 then _ else _) in H.
  assert (extends bm1 ext2.2) as Hx2.
  { subst ext2. destruct (_ >=? horizon_end bm1); [|apply extends_refl].
    destruct (_extend_to _ _) as [o' b] eqn:E. by apply _extend_to_extends in E. }
  destruct ext2 as [[[]| |] bm2]; cbn in Hx2;
    [|inversion H; subst; eauto using extends_trans..].
  apply IH in H. eauto using extends_trans.
Qed.

Lemma walk_extends (fuel : nat) (bm : OccupancyBitmap) oid op es w split ms deadline o bm' :
  walk fuel bm oid op es w split ms deadline = (o, bm') -> extends bm bm'.
Proof.
  unfold walk. destruct split.
  - unfold _walk_splittable.
    destruct (splittable_loop _ _ _ _ _ _ _ _) as [[st| |] bm1] eqn:E;
      apply splittable_loop_extends in E.
    + destruct (last (s_spans st)); intros H; by inversion H; subst.
    + intros H; by inversion H; subst.
    + intros H; by inversion H; subst.
  - apply non_splittable_loop_extends.
Qed.

(** ** Marking spans *)

Lemma span_filled_in_range (bits : list Z) (hb v : Z) (s : span) :
  span_filled bits hb v s -> s.1 < s.2 -> hb <= s.1 /\ s.2 <= hb + len bits.
Proof.
  intros H Hlt. split.
  - specialize (H s.1 ltac:(lia)). unfold bit_at in H.
    destruct (Z.ltb_spec s.1 hb); [done|lia].
  - specialize (H (s.2 - 1) ltac:(lia)). unfold bit_at in H.
    destruct (Z.ltb_spec (s.2 - 1) hb); [done|].
    apply lookup_lt_Some in H. unfold len. lia.
Qed.

Lemma mark_spans_bits_spec (l : list span) : forall (bits : list Z) (hb v : Z),
  Forall (fun s : span => s.1 < s.2 -> hb <= s.1 /\ s.2 <= hb + len bits) l ->
  exists bits', mark_spans_bits bits hb l v = (Ret (), bits') /\
    length bits' = length bits /\
    forall k : nat, bits' !! k =
      if decide (in_spans l (hb + Z.of_nat k)) then
        (if decide (k < length bits)%nat then Some v else None)
      else bits !! k.
Proof.
  induction l as [|[b e] l IH]; intros bits hb v Hl.
  - exists bits. split; [done|]. split; [done|]. intros k.
    destruct (decide _) as [H|]; [by apply Exists_nil in H|done].
  - apply Forall_cons in Hl as [Hs Hl]. cbn in Hs. cbn [mark_spans_bits].
    destruct (set_range_spec bits (b - hb) (b - hb + (e - b)) v)
      as (bits1 & E1 & Hlen1 & Hk1); [lia|].
    rewrite E1.
    destruct (IH bits1 hb v) as (bits2 & E2 & Hlen2 & Hk2).
    { unfold len in *. by rewrite Hlen1. }
    exists bits2. split; [done|]. split; [by rewrite Hlen2|].
    intros k. rewrite Hk2, Hlen1, Hk1. unfold in_spans.
    destruct (decide (Exists _ l)) as [Hin|Hnin].
    + destruct (decide (Exists _ _)) as [|Hn]; [done|].
      exfalso. apply Hn. by apply Exists_cons_tl.
    + destruct (decide (b - hb <= Z.of_nat k < b - hb + (e - b))) as [Hin1|Hn1].
      * destruct (decide (Exists _ _)) as [|Hn].
        -- destruct (decide (k < length bits)%nat); [done|]. unfold len in Hs. lia.
        -- exfalso. apply Hn. apply Exists_cons_hd. cbn. lia.
      * destruct (decide (Exists _ _)) as [Hin2|]; [|done].
        apply Exists_cons in Hin2 as [Hin2|Hin2]; [cbn in Hin2; lia|done].
Qed.

Lemma Forall_span_filled_in_range (bits : list Z) (hb v : Z) (l : list span) :
  Forall (span_filled bits hb v) l ->
  Forall (fun s : span => s.1 < s.2 -> hb <= s.1 /\ s.2 <= hb + len bits) l.
Proof.
  intros H. eapply Forall_impl; [exact H|]. intros s. apply span_filled_in_range.
Qed.

Lemma in_spans_filled (bits : list Z) (hb v j : Z) (l : list span) :
  Forall (span_filled bits hb v) l -> in_spans l j -> bit_at bits hb j = Some v.
Proof.
  intros Hall Hin. apply Exists_exists in Hin as (s & Hs & Hj).
  rewrite Forall_forall in Hall. by apply (Hall s Hs).
Qed.

Lemma bit_at_nat (bits : list Z) (hb : Z) (k : nat) :
  bit_at bits hb (hb + Z.of_nat k) = bits !! k.
Proof.
  unfold bit_at. destruct (Z.ltb_spec (hb + Z.of_nat k) hb); [lia|].
  f_equal. lia.
Qed.

(** Marking a set of free spans with 0 and then with 1 gives the
    bytearray back. *)
Lemma mark_spans_bits_inverse (bits : list Z) (hb : Z) (l : list span) :
  Forall (span_filled bits hb 1) l ->
  exists bits0,
    mark_spans_bits bits hb l 0 = (Ret (), bits0) /\
    mark_spans_bits bits0 hb l 1 = (Ret (), bits).
Proof.
  intros Hfree.
  pose proof (Forall_span_filled_in_range _ _ _ _ Hfree) as Hrange.
  destruct (mark_spans_bits_spec l bits hb 0 Hrange) as (bits0 & E0 & Hlen0 & Hk0).
  exists bits0. split; [done|].
  destruct (mark_spans_bits_spec l bits0 hb 1) as (bits1 & E1 & Hlen1 & Hk1).
  { unfold len. by rewrite Hlen0. }
  rewrite E1. f_equal. apply list_eq. intros k. rewrite Hk1, Hlen0, Hk0.
  destruct (decide (in_spans l (hb + Z.of_nat k))) as [Hin|]; [|done].
  pose proof (in_spans_filled _ _ _ _ _ Hfree Hin) as Hb. rewrite bit_at_nat in Hb.
  destruct (decide (k < length bits)%nat) as [|Hge]; [done|].
  apply lookup_lt_Some in Hb. lia.
Qed.

(** ** Allocate then deallocate *)

Lemma filter_fresh (oid : nat) (l : list AllocationRecord) :
  Forall (fun r => obj_id r <> oid) l ->
  List.filter (fun a => negb (Nat.eqb (obj_id a) oid)) l = l.
Proof.
  induction 1 as [|r l Hr _ IH]; [done|]. cbn.
  destruct (Nat.eqb_spec (obj_id r) oid); [done|]. cbn. by rewrite IH.
Qed.

(** C3. When [allocate] returns a record and has not extended the bitmap,
    [deallocate] of that record returns and leaves the bytearray and the
    list of allocations as they were before the [allocate]. *)
Theorem allocate_deallocate_inverse (fuel : nat) (bm : OccupancyBitmap)
    (oid : nat) (op : string) (es w : Z) (split : bool) (ms : Z)
    (deadline : option Z) (record : AllocationRecord) (bm1 : OccupancyBitmap) :
  fresh oid bm ->
  allocate fuel bm oid op es w split ms deadline = (Ret record, bm1) ->
  length (bits bm1) = length (bits bm) ->
  exists bm2, deallocate bm1 record = (Ret (), bm2) /\
    bits bm2 = bits bm /\ _allocations bm2 = _allocations bm /\ bm2 = bm.
Proof.
  intros Hfresh Halloc Hlen. unfold allocate in Halloc.
  destruct (walk _ _ _ _ _ _ _ _ _) as [[r| |] bmw] eqn:Ew; [|done..].
  apply walk_sound in Ew as (Hx & Hid & Hfree).
  destruct (mark_spans_bits_inverse _ _ _ Hfree) as (bits0 & E0 & E1).
  unfold _mark_spans in Halloc. rewrite E0 in Halloc.
  inversion Halloc; subst record bm1. clear Halloc. cbn in Hlen.
  assert (length bits0 = length (bits bmw)) as Hlen0.
  { destruct (mark_spans_bits_spec (spans r) (bits bmw) (horizon_begin bmw) 0)
      as (b' & E' & Hl' & _); [by eapply Forall_span_filled_in_range|].
    rewrite E0 in E'. by inversion E'; subst. }
  rewrite Hlen0 in Hlen. apply (extends_same_length _ _ Hx) in Hlen. subst bmw.
  unfold deallocate, _mark_spans. cbn. rewrite E1. cbn.
  rewrite List.filter_app. cbn. rewrite Nat.eqb_refl. cbn. rewrite app_nil_r.
  rewrite filter_fresh.
  - eexists. split; [done|]. cbn. repeat split. by destruct bm.
  - by rewrite Hid.
Qed.

Lemma allocate_deallocate_inverse_witness :
  fresh 0 std /\
  allocate 1 std 0 "OP-1" 480 120 false 1 None
    = (Ret (the s7_allocated.1 no_record), s7_allocated.2) /\
  length (bits s7_allocated.2) = length (bits std) /\
  exists bm2,
    deallocate s7_allocated.2 (the s7_allocated.1 no_record) = (Ret (), bm2) /\
    bits bm2 = bits std /\ _allocations bm2 = _allocations std /\ bm2 = std.
Proof.
  assert (fresh 0 std) as H1 by (vm_compute; constructor).
  assert (allocate 1 std 0 "OP-1" 480 120 false 1 None
          = (Ret (the s7_allocated.1 no_record), s7_allocated.2)) as H2
    by (vm_compute; reflexivity).
  assert (length (bits s7_allocated.2) = length (bits std)) as H3
    by (vm_compute; reflexivity).
  split; [exact H1|]. split; [exact H2|]. split; [exact H3|].
  exact (allocate_deallocate_inverse 1 std 0 "OP-1" 480 120 false 1 None
           _ _ H1 H2 H3).
Defined.

(** ** Invariant (I2) *)

Lemma bit_at_Z (bits : list Z) (hb j : Z) :
  hb <= j -> bit_at bits hb j = bits !! Z.to_nat (j - hb).
Proof. intros Hj. unfold bit_at. destruct (Z.ltb_spec j hb); [lia|done]. Qed.

Lemma bit_at_in_range (bits : list Z) (hb j v : Z) :
  bit_at bits hb j = Some v -> hb <= j < hb + len bits.
Proof.
  unfold bit_at. destruct (Z.ltb_spec j hb) as [|Hge]; [done|]. intros Hb.
  apply lookup_lt_Some in Hb. unfold len. lia.
Qed.

(** The bits after [_mark_spans] on spans that lie in the window. *)
Lemma mark_spans_bits_bit_at (l : list span) (bits : list Z) (hb v : Z) :
  Forall (fun s : span => s.1 < s.2 -> hb <= s.1 /\ s.2 <= hb + len bits) l ->
  exists bits', mark_spans_bits bits hb l v = (Ret (), bits') /\
    length bits' = length bits /\
    forall j, bit_at bits' hb j =
      if decide (in_spans l j)
      then match bit_at bits hb j with Some _ => Some v | None => None end
      else bit_at bits hb j.
Proof.
  intros Hl. destruct (mark_spans_bits_spec l bits hb v Hl) as (bits' & E & Hlen & Hk).
  exists bits'. split; [done|]. split; [done|]. intros j.
  destruct (Z.lt_ge_cases j hb) as [Hlt|Hge].
  - unfold bit_at. destruct (Z.ltb_spec j hb); [|lia]. by destruct (decide _).
  - rewrite !bit_at_Z by done. rewrite Hk.
    replace (hb + Z.of_nat (Z.to_nat (j - hb))) with j by lia.
    destruct (decide (in_spans l j)); [|done].
    destruct (decide (Z.to_nat (j - hb) < length bits)%nat) as [Hlt|Hnlt].
    + apply lookup_lt_is_Some_2 in Hlt as [b ->]. done.
    + rewrite lookup_ge_None_2; [done|lia].
Qed.

Lemma I2_spans_filled (bm : OccupancyBitmap) (r : AllocationRecord) :
  I2 bm -> r ∈ _allocations bm ->
  Forall (span_filled (bits bm) (horizon_begin bm) 0) (spans r).
Proof.
  intros HI Hr. apply Forall_forall. intros s Hs j Hj.
  apply (HI r Hr). apply Exists_exists. eauto.
Qed.

Lemma consistent_extends (bm bm' : OccupancyBitmap) :
  extends bm bm' -> consistent bm -> consistent bm'.
Proof.
  intros Hx (HI & Hnd & Hdis). unfold consistent.
  rewrite (extends_allocations _ _ Hx). split; [|done]. intros r Hr j Hj. rewrite (extends_allocations _ _ Hx) in Hr.
  by apply (extends_unit_bit bm), (HI r).
Qed.

Lemma consistent_allocate (fuel : nat) (bm : OccupancyBitmap) oid op es w split ms
    deadline o bm' :
  fresh oid bm -> consistent bm ->
  allocate fuel bm oid op es w split ms deadline = (o, bm') -> consistent bm'.
Proof.
  intros Hfresh Hc H. unfold allocate in H.
  destruct (walk _ _ _ _ _ _ _ _ _) as [[r| |] bmw] eqn:Ew.
  2,3: inversion H; subst; by apply walk_extends in Ew; apply (consistent_extends bm).
  apply walk_sound in Ew as (Hx & Hid & Hfree).
  apply (consistent_extends _ _ Hx) in Hc as (HI & Hnd & Hdis).
  assert (fresh oid bmw) as Hfresh'.
  { unfold fresh. by rewrite (extends_allocations _ _ Hx). }
  clear Hx Hfresh bm.
  destruct (mark_spans_bits_bit_at (spans r) (bits bmw) (horizon_begin bmw) 0)
    as (bits0 & E0 & Hlen0 & Hbit0); [by eapply Forall_span_filled_in_range|].
  unfold _mark_spans in H. rewrite E0 in H. inversion H; subst o bm'. clear H.
  split; [|split]; cbn.
  - intros r' Hr' j Hj. unfold unit_bit. cbn. rewrite Hbit0.
    apply elem_of_app in Hr' as [Hr'|Hr'].
    + pose proof (HI r' Hr' j Hj) as Hz. unfold unit_bit in Hz. rewrite Hz.
      by destruct (decide _).
    + apply list_elem_of_singleton in Hr'. subst r'.
      destruct (decide (in_spans (spans r) j)); [|done].
      by rewrite (in_spans_filled _ _ _ _ _ Hfree Hj).
  - rewrite map_app. cbn. apply NoDup_app. split; [done|]. split.
    + intros x Hx Hx'. apply list_elem_of_singleton in Hx'. subst x.
      apply list_elem_of_fmap in Hx as (r' & Hr' & Hin).
      unfold fresh in Hfresh'. rewrite Forall_forall in Hfresh'.
      apply (Hfresh' r' Hin). congruence.
    + apply NoDup_singleton.
  - intros r1 r2 H1 H2 Hne j Hj1 Hj2.
    apply elem_of_app in H1 as [H1|H1], H2 as [H2|H2].
    + by apply (Hdis r1 r2 H1 H2 Hne j).
    + apply list_elem_of_singleton in H2. subst r2.
      pose proof (HI r1 H1 j Hj1) as Hz.
      pose proof (in_spans_filled _ _ _ _ _ Hfree Hj2) as Ho.
      unfold unit_bit in Hz. congruence.
    + apply list_elem_of_singleton in H1. subst r1.
      pose proof (HI r2 H2 j Hj2) as Hz.
      pose proof (in_spans_filled _ _ _ _ _ Hfree Hj1) as Ho.
      unfold unit_bit in Hz. congruence.
    + apply list_elem_of_singleton in H1, H2. congruence.
Qed.

(** What [apply_dynamic_exception] does, for every bitmap and range: it
    returns, the units of the range that the window covers take the new
    value, and nothing else changes. *)
Lemma apply_dynamic_exception_spec (bm : OccupancyBitmap) (b e : Z) (iw : bool) :
  exists bits',
    apply_dynamic_exception bm b e iw
      = (Ret (if iw then [] else conflicts_of (_allocations bm) b e),
         set_bits bm bits') /\
    length bits' = length (bits bm) /\
    forall j, bit_at bits' (horizon_begin bm) j =
      if decide (b <= j < e)
      then match unit_bit bm j with
           | Some _ => Some (if iw then 1 else 0)
           | None => None
           end
      else unit_bit bm j.
Proof.
  unfold apply_dynamic_exception.
  set (hb := horizon_begin bm). set (lo := Z.max 0 (b - hb)).
  set (hi := Z.min (len (bits bm)) (e - hb)).
  assert (forall v, exists bits', set_range (bits bm) lo hi v = (Ret (), bits') /\
            length bits' = length (bits bm) /\
            forall j, bit_at bits' hb j =
              if decide (b <= j < e)
              then match unit_bit bm j with Some _ => Some v | None => None end
              else unit_bit bm j) as Hv.
  { intros v.
    destruct (set_range_spec (bits bm) lo hi v) as (bits' & E & Hlen & Hk); [lia|].
    exists bits'. split; [done|]. split; [done|]. intros j. unfold unit_bit. fold hb.
    destruct (Z.lt_ge_cases j hb) as [Hlt|Hge].
    - unfold bit_at. destruct (Z.ltb_spec j hb); [|lia]. by destruct (decide _).
    - rewrite !bit_at_Z by done. rewrite Hk.
      destruct (decide (lo <= Z.of_nat (Z.to_nat (j - hb)) < hi)) as [Hin|Hout].
      + destruct (decide (b <= j < e)); [|lia].
        destruct (lookup_lt_is_Some_2 (bits bm) (Z.to_nat (j - hb))) as [x ->];
          [unfold len in *; lia|done].
      + destruct (decide (b <= j < e)); [|done].
        rewrite lookup_ge_None_2; [done|unfold len in *; lia]. }
  destruct iw.
  - destruct (Hv 1) as (bits' & -> & Hlen & Hk). by exists bits'.
  - destruct (Hv 0) as (bits' & -> & Hlen & Hk). by exists bits'.
Qed.

Lemma consistent_dynamic_removal (bm : OccupancyBitmap) (b e : Z) o bm' :
  consistent bm ->
  apply_dynamic_exception bm b e false = (o, bm') -> consistent bm'.
Proof.
  intros (HI & Hnd & Hdis) H.
  destruct (apply_dynamic_exception_spec bm b e false) as (bits' & E & Hlen & Hk).
  rewrite E in H. inversion H; subst o bm'. split; [|done].
  intros r Hr j Hj. unfold unit_bit. cbn. rewrite Hk.
  rewrite (HI r Hr j Hj). by destruct (decide _).
Qed.

(** Overtime keeps (I2) exactly when its range meets no span of a
    committed record. *)
Lemma overtime_I2 (bm : OccupancyBitmap) (b e : Z) o bm' :
  I2 bm -> apply_dynamic_exception bm b e true = (o, bm') ->
  I2 bm' <-> Forall (fun r => ~ intersects r b e) (_allocations bm).
Proof.
  intros HI H.
  destruct (apply_dynamic_exception_spec bm b e true) as (bits' & E & Hlen & Hk).
  rewrite E in H. inversion H; subst o bm'. clear H. split.
  - intros HI'. apply Forall_forall. intros r Hr (j & Hj & Hc).
    pose proof (HI' r Hr j Hc) as H1. unfold unit_bit in H1. cbn in H1.
    rewrite Hk, (HI r Hr j Hc) in H1. by destruct (decide _).
  - intros Hno r Hr j Hc. unfold unit_bit. cbn. rewrite Hk.
    destruct (decide (b <= j < e)) as [Hj|_]; [|by apply (HI r)].
    rewrite Forall_forall in Hno. destruct (Hno r Hr). by exists j.
Qed.

Lemma consistent_dynamic_addition (bm : OccupancyBitmap) (b e : Z) o bm' :
  consistent bm -> Forall (fun r => ~ intersects r b e) (_allocations bm) ->
  apply_dynamic_exception bm b e true = (o, bm') -> consistent bm'.
Proof.
  intros (HI & Hnd & Hdis) Hno H. split.
  - by apply (overtime_I2 bm b e o bm' HI H).
  - destruct (apply_dynamic_exception_spec bm b e true) as (bits' & E & _).
    rewrite E in H. by inversion H; subst.
Qed.

Lemma elem_of_filter_bool {A : Type} (f : A -> bool) (l : list A) (x : A) :
  x ∈ List.filter f l <-> x ∈ l /\ f x = true.
Proof. rewrite !list_elem_of_In. apply filter_In. Qed.

Lemma NoDup_map_filter {A B : Type} (g : A -> B) (f : A -> bool) (l : list A) :
  NoDup (map g l) -> NoDup (map g (List.filter f l)).
Proof.
  induction l as [|x l IH]; [done|]. cbn. intros Hnd.
  apply NoDup_cons in Hnd as [Hx Hnd]. destruct (f x); [|by apply IH].
  cbn. apply NoDup_cons. split; [|by apply IH].
  intros Hin. apply Hx. apply list_elem_of_fmap in Hin as (y & -> & Hy).
  apply list_elem_of_fmap. exists y. split; [done|].
  by apply elem_of_filter_bool in Hy as [Hy _].
Qed.

Lemma consistent_deallocate (bm : OccupancyBitmap) (r : AllocationRecord) o bm' :
  r ∈ _allocations bm -> consistent bm ->
  deallocate bm r = (o, bm') -> consistent bm'.
Proof.
  intros Hr (HI & Hnd & Hdis) H.
  pose proof (I2_spans_filled bm r HI Hr) as Hz.
  destruct (mark_spans_bits_bit_at (spans r) (bits bm) (horizon_begin bm) 1)
    as (bits1 & E1 & Hlen1 & Hbit1); [by eapply Forall_span_filled_in_range|].
  unfold deallocate, _mark_spans in H. rewrite E1 in H.
  inversion H; subst o bm'. clear H. split; [|split]; cbn.
  - intros r' Hr' j Hj. apply elem_of_filter_bool in Hr' as [Hr' Hne].
    unfold unit_bit. cbn. rewrite Hbit1.
    destruct (decide (in_spans (spans r) j)) as [Hin|]; [|by apply (HI r')].
    assert (obj_id r' <> obj_id r) as Hid
      by (by destruct (Nat.eqb_spec (obj_id r') (obj_id r))).
    destruct (Hdis r' r Hr' Hr Hid j Hj Hin).
  - by apply NoDup_map_filter.
  - intros r1 r2 H1 H2. apply elem_of_filter_bool in H1 as [H1 _], H2 as [H2 _].
    by apply Hdis.
Qed.

Lemma consistent_run_op (fuel : nat) (bm : OccupancyBitmap) (o : operation) bm' :
  admissible bm o -> consistent bm -> run_op fuel bm o = Some bm' -> consistent bm'.
Proof.
  intros Ha Hc H. destruct o as [oid op es w split ms dl|oid op es w split ms dl|r|b e iw];
    cbn in Ha, H.
  - destruct (allocate _ _ _ _ _ _ _ _ _) as [out bm1] eqn:E.
    apply (consistent_allocate _ _ _ _ _ _ _ _ _ _ _ Ha Hc) in E.
    destruct out; by inversion H; subst.
  - destruct (walk _ _ _ _ _ _ _ _ _) as [out bm1] eqn:E.
    apply walk_extends in E. apply (consistent_extends _ _ E) in Hc.
    destruct out; by inversion H; subst.
  - destruct (deallocate _ _) as [out bm1] eqn:E.
    apply (consistent_deallocate _ _ _ _ Ha Hc) in E.
    destruct out; by inversion H; subst.
  - destruct (apply_dynamic_exception _ _ _ _) as [out bm1] eqn:E.
    assert (consistent bm1) as Hc1.
    { destruct iw.
      - destruct Ha as [|Ha]; [done|].
        by apply (consistent_dynamic_addition _ _ _ _ _ Hc Ha) in E.
      - by apply (consistent_dynamic_removal _ _ _ _ _ Hc) in E. }
    destruct out; by inversion H; subst.
Qed.

Lemma consistent_run_ops (fuel : nat) (os : list operation) :
  forall bm bm', consistent bm -> admissible_run fuel bm os ->
  run_ops fuel bm os = Some bm' -> consistent bm'.
Proof.
  induction os as [|o os IH]; intros bm bm' Hc Ha H; cbn in *.
  - by inversion H; subst.
  - destruct Ha as [Ho Ha]. destruct (run_op fuel bm o) as [bm1|] eqn:E; [|done].
    apply (IH bm1); [|done..]. by apply (consistent_run_op fuel bm o).
Qed.

(** C5, amended.  From a bitmap with no allocation, after any sequence
    of [allocate], [walk], [deallocate] of a committed record,
    [apply_dynamic_exception] with [is_working=False] and
    [apply_dynamic_exception] with [is_working=True] over a range that
    meets no span of a committed record, whether each call returned or
    raised, every unit of every span of every recorded allocation has its
    bit at 0. *)
Theorem I2_preserved (fuel : nat) (bm : OccupancyBitmap) (os : list operation)
    (bm' : OccupancyBitmap) :
  _allocations bm = [] ->
  admissible_run fuel bm os ->
  run_ops fuel bm os = Some bm' ->
  I2 bm'.
Proof.
  intros Hnil Ha H. apply (consistent_run_ops fuel os bm bm'); [|done..].
  unfold consistent, I2, disjoint_allocations. rewrite Hnil.
  split; [|split].
  - intros r Hr. by apply elem_of_nil in Hr.
  - constructor.
  - intros r1 r2 Hr. by apply elem_of_nil in Hr.
Qed.

Lemma I2_preserved_witness :
  _allocations std = [] /\
  admissible_run 1 std breakdown_calls /\
  run_ops 1 std breakdown_calls
    = Some (default empty_bitmap (run_ops 1 std breakdown_calls)) /\
  I2 (default empty_bitmap (run_ops 1 std breakdown_calls)).
Proof.
  assert (_allocations std = []) as H1 by (vm_compute; reflexivity).
  assert (admissible_run 1 std breakdown_calls) as H2
    by (apply (bool_decide_eq_true_1 (admissible_run 1 std breakdown_calls));
        vm_compute; reflexivity).
  assert (run_ops 1 std breakdown_calls
          = Some (default empty_bitmap (run_ops 1 std breakdown_calls))) as H3
    by (vm_compute; reflexivity).
  split; [exact H1|]. split; [exact H2|]. split; [exact H3|].
  exact (I2_preserved 1 std breakdown_calls _ H1 H2 H3).
Defined.

(** C5 as stated fails: overtime declared over a committed allocation
    sets its bits back to 1 while the record stays in the list. *)
Lemma overtime_breaks_I2 :
  _allocations std = [] /\
  exists bm', overtime_scenario = Some bm' /\ ~ I2 bm'.
Proof.
  split; [vm_compute; reflexivity|].
  exists (default empty_bitmap overtime_scenario).
  split; [vm_compute; reflexivity|]. intros HI.
  assert (_allocations (default empty_bitmap overtime_scenario) = [s7_record])
    as Ha by (vm_compute; reflexivity).
  assert (unit_bit (default empty_bitmap overtime_scenario) 480 = Some 1)
    as Hb by (vm_compute; reflexivity).
  specialize (HI s7_record). rewrite Ha in HI.
  specialize (HI ltac:(left) 480). rewrite Hb in HI.
  discriminate HI. apply Exists_cons_hd. cbn. lia.
Qed.

(** ** Dynamic exceptions and release *)

Lemma span_hits_meets (b e : Z) (s : span) :
  b < e -> s.1 < s.2 ->
  span_hits b e s = true <-> exists j, b <= j < e /\ s.1 <= j < s.2.
Proof.
  intros Hbe Hs. unfold span_hits. rewrite andb_true_iff, !Z.ltb_lt. split.
  - intros [H1 H2]. exists (Z.max b s.1). lia.
  - intros (j & Hj1 & Hj2). lia.
Qed.

Lemma conflict_intersects (b e : Z) (r : AllocationRecord) :
  b < e -> proper_spans r ->
  existsb (span_hits b e) (spans r) = true <-> intersects r b e.
Proof.
  intros Hbe Hr. unfold intersects, covers, in_spans, proper_spans in *.
  rewrite existsb_exists. rewrite Forall_forall in Hr. split.
  - intros (s & Hs & Hhit). apply list_elem_of_In in Hs.
    apply span_hits_meets in Hhit as (j & Hj1 & Hj2); [|done|by apply Hr].
    exists j. split; [done|]. apply Exists_exists. eauto.
  - intros (j & Hj & Hex). apply Exists_exists in Hex as (s & Hs & Hjs).
    exists s. split; [by apply list_elem_of_In|].
    apply span_hits_meets; [done|by apply Hr|eauto].
Qed.

Lemma filter_bool_Prop {A : Type} (f : A -> bool) (P : A -> Prop)
    `{!forall x, Decision (P x)} (l : list A) :
  Forall (fun x => f x = true <-> P x) l -> List.filter f l = filter P l.
Proof.
  induction 1 as [|x l Hx _ IH]; [done|]. rewrite filter_cons. cbn.
  destruct Hx as [H1 H2].
  destruct (f x), (decide (P x)) as [p|n]; rewrite IH; try done.
  - destruct n. by apply H1.
  - by specialize (H2 p).
Qed.

(** C6, amended.  For [begin < end] and committed records without empty
    spans, [apply_dynamic_exception(bm, begin, end, is_working=False)]
    returns the allocations with a span that meets [[begin, end)], each
    once and in allocation order, sets the bits of the range that the
    window covers to 0, changes no other bit and keeps the list of
    allocations. *)
Theorem dynamic_removal_reports_conflicts (bm : OccupancyBitmap) (b e : Z) :
  b < e ->
  Forall proper_spans (_allocations bm) ->
  exists conflicts bm',
    apply_dynamic_exception bm b e false = (Ret conflicts, bm') /\
    conflicts = filter (fun r => intersects r b e) (_allocations bm) /\
    _allocations bm' = _allocations bm /\
    horizon_begin bm' = horizon_begin bm /\
    length (bits bm') = length (bits bm) /\
    forall j, unit_bit bm' j =
      if decide (b <= j < e)
      then match unit_bit bm j with Some _ => Some 0 | None => None end
      else unit_bit bm j.
Proof.
  intros Hbe Hproper.
  destruct (apply_dynamic_exception_spec bm b e false) as (bits' & E & Hlen & Hk).
  eexists _, _. split; [exact E|]. repeat split; [|done..].
  apply filter_bool_Prop. eapply Forall_impl; [exact Hproper|].
  intros r Hr. by apply conflict_intersects.
Qed.

(** C10. Whatever the bitmap and the other arguments, [walk] with
    [allow_split=True] and [work_units == 0] raises [IndexError] (from
    [spans[-1]] on the empty list) and leaves the bitmap as it was. *)
Theorem walk_split_zero_units (fuel : nat) (bm : OccupancyBitmap) (oid : nat)
    (op : string) (es ms : Z) (deadline : option Z) :
  walk fuel bm oid op es 0 true ms deadline = (Raise IndexError, bm).
Proof. by destruct fuel. Qed.

Lemma s7_allocated_eq :
  s7_allocated = (Ret s7_record, s7_allocated.2).
Proof. vm_compute. reflexivity. Qed.

Lemma dynamic_removal_reports_conflicts_witness :
  540 < 600 /\
  Forall proper_spans (_allocations s7_allocated.2) /\
  exists conflicts bm',
    apply_dynamic_exception s7_allocated.2 540 600 false = (Ret conflicts, bm') /\
    conflicts = filter (fun r => intersects r 540 600) (_allocations s7_allocated.2) /\
    _allocations bm' = _allocations s7_allocated.2 /\
    horizon_begin bm' = horizon_begin s7_allocated.2 /\
    length (bits bm') = length (bits s7_allocated.2) /\
    forall j, unit_bit bm' j =
      if decide (540 <= j < 600)
      then match unit_bit s7_allocated.2 j with Some _ => Some 0 | None => None end
      else unit_bit s7_allocated.2 j.
Proof.
  assert (540 < 600) as H1 by lia.
  assert (Forall proper_spans (_allocations s7_allocated.2)) as H2.
  { replace (_allocations s7_allocated.2) with [s7_record]
      by (vm_compute; reflexivity).
    repeat constructor. }
  split; [exact H1|]. split; [exact H2|].
  exact (dynamic_removal_reports_conflicts s7_allocated.2 540 600 H1 H2).
Defined.

(** Scenario S8: the breakdown from 540 to 600 after the allocation of
    S7 reports that one allocation. *)
Lemma dynamic_removal_s8 :
  (apply_dynamic_exception s7_allocated.2 540 600 false).1 = Ret [s7_record].
Proof. vm_compute. reflexivity. Qed.

(** C6 as stated fails on an empty range: the record allocated on
    [[480, 600)] is reported for the range from 540 to 540, which
    contains no unit. *)
Lemma empty_range_reports_conflict :
  (apply_dynamic_exception s7_allocated.2 540 540 false).1 = Ret [s7_record] /\
  _allocations s7_allocated.2 = [s7_record] /\
  ~ intersects s7_record 540 540.
Proof.
  split; [vm_compute; reflexivity|]. split; [vm_compute; reflexivity|].
  intros (j & Hj & _). lia.
Qed.

(** C7, amended.  [apply_dynamic_exception] returns for every range and
    changes no bit outside the part of the range that the window covers;
    [deallocate] returns for every record whose spans lie in the window,
    and then sets the bits of these spans to 1 and changes no other. *)
Theorem dynamic_exception_clips_deallocate_in_window (bm : OccupancyBitmap)
    (b e : Z) (iw : bool) (record : AllocationRecord) :
  in_window bm record ->
  (exists conflicts bm',
     apply_dynamic_exception bm b e iw = (Ret conflicts, bm') /\
     length (bits bm') = length (bits bm) /\
     forall j, ~ (b <= j < e /\ horizon_begin bm <= j < horizon_end bm) ->
               unit_bit bm' j = unit_bit bm j) /\
  (exists bm',
     deallocate bm record = (Ret (), bm') /\
     length (bits bm') = length (bits bm) /\
     forall j, unit_bit bm' j =
       if decide (covers record j) then Some 1 else unit_bit bm j).
Proof.
  intros Hwin. split.
  - destruct (apply_dynamic_exception_spec bm b e iw) as (bits' & E & Hlen & Hk).
    eexists _, _. split; [exact E|]. split; [done|]. intros j Hj.
    unfold unit_bit at 1. cbn. rewrite Hk.
    destruct (decide (b <= j < e)) as [Hin|]; [|done].
    destruct (unit_bit bm j) as [x|] eqn:Ex; [|done].
    apply bit_at_in_range in Ex. unfold horizon_end in Hj. lia.
  - destruct (mark_spans_bits_bit_at (spans record) (bits bm) (horizon_begin bm) 1)
      as (bits1 & E1 & Hlen1 & Hbit1).
    { eapply Forall_impl; [exact Hwin|]. unfold horizon_end. intros s Hs _. lia. }
    unfold deallocate, _mark_spans. rewrite E1. eexists. split; [done|].
    split; [done|]. intros j. unfold unit_bit at 1. cbn. rewrite Hbit1.
    unfold covers. destruct (decide (in_spans (spans record) j)) as [Hin|]; [|done].
    apply Exists_exists in Hin as (s & Hs & Hj).
    unfold in_window in Hwin. rewrite Forall_forall in Hwin. specialize (Hwin s Hs).
    rewrite bit_at_Z by lia.
    destruct (lookup_lt_is_Some_2 (bits bm) (Z.to_nat (j - horizon_begin bm)))
      as [x ->]; [unfold horizon_end, len in Hwin; lia|done].
Qed.

Lemma dynamic_exception_clips_deallocate_in_window_witness :
  in_window s7_allocated.2 s7_record /\
  (exists conflicts bm',
     apply_dynamic_exception s7_allocated.2 (-60) 20000 true = (Ret conflicts, bm') /\
     length (bits bm') = length (bits s7_allocated.2) /\
     forall j, ~ (-60 <= j < 20000 /\
                  horizon_begin s7_allocated.2 <= j < horizon_end s7_allocated.2) ->
               unit_bit bm' j = unit_bit s7_allocated.2 j) /\
  (exists bm',
     deallocate s7_allocated.2 s7_record = (Ret (), bm') /\
     length (bits bm') = length (bits s7_allocated.2) /\
     forall j, unit_bit bm' j =
       if decide (covers s7_record j) then Some 1 else unit_bit s7_allocated.2 j).
Proof.
  assert (in_window s7_allocated.2 s7_record) as H1.
  { unfold in_window.
    replace (horizon_begin s7_allocated.2) with 0 by (vm_compute; reflexivity).
    replace (horizon_end s7_allocated.2) with 10080 by (vm_compute; reflexivity).
    repeat constructor; cbn; lia. }
  split; [exact H1|].
  exact (dynamic_exception_clips_deallocate_in_window
           s7_allocated.2 (-60) 20000 true s7_record H1).
Defined.

(** C7 as stated fails for [deallocate]: a span beyond the horizon makes
    it raise [IndexError], and a span before the horizon is written at
    the end of the bytearray, where Python's negative indices point. *)
Lemma deallocate_out_of_window :
  deallocate std next_week_record = (Raise IndexError, std) /\
  unit_bit std 10079 = Some 0 /\
  exists bm', deallocate std last_week_record = (Ret (), bm') /\
              unit_bit bm' 10079 = Some 1.
Proof.
  split; [vm_compute; reflexivity|]. split; [vm_compute; reflexivity|].
  exists (deallocate std last_week_record).2.
  split; vm_compute; reflexivity.
Qed.

(** ** The first scan of the non-splittable walk finds the earliest run *)

Lemma scan_run_earliest (n : nat) : forall (bits : list Z) (hb w i : Z) rs rl pos s,
  0 < w -> 0 <= i -> (n <> O -> i + Z.of_nat n <= len bits) ->
  run_state_ok bits hb w i rs rl ->
  (forall s', pos <= s' < default (i + hb) rs ->
              ~ span_filled bits hb 1 (s', s' + w)) ->
  pos <= default (i + hb) rs ->
  scan_run n bits hb w i rs rl = Ret (Some s) ->
  pos <= s /\ forall s', pos <= s' < s -> ~ span_filled bits hb 1 (s', s' + w).
Proof.
  induction n as [|n IH]; intros bits hb w i rs rl pos s Hw Hi Hn Hinv Hex Hpos H;
    [done|].
  cbn [scan_run] in H. specialize (Hn ltac:(done)).
  destruct (getitem_Some bits i) as (b & Eb & Eg); [lia|].
  rewrite Eg in H. cbn in H.
  pose proof (bit_at_lookup bits hb i b Hi Eb) as Hbit.
  destruct (Z.eqb_spec b 1) as [Hb1|Hb].
  - subst b. destruct rs as [s0|]; cbn in Hex, Hpos.
    + destruct Hinv as (Hs0 & Hrl & Hlt & Hrun).
      destruct (Z.geb_spec (rl + 1) w).
      * inversion H; subst s0. done.
      * apply (IH bits hb w (i + 1) (Some s0) (rl + 1) pos s); try done; try lia.
        repeat split; [done|lia|lia|lia|]. intros j Hj.
        destruct (decide (j = i + hb)) as [->|]; [done|]. apply Hrun. lia.
    + destruct (Z.geb_spec 1 w).
      * inversion H; subst s. done.
      * apply (IH bits hb w (i + 1) (Some (i + hb)) 1 pos s); try done; try lia.
        repeat split; [lia|lia|lia|lia|]. intros j Hj.
        by replace j with (i + hb) by lia.
  - apply (IH bits hb w (i + 1) None 0 pos s); try done; try lia.
    + cbn. intros s' Hs' Hfree.
      destruct (Z.lt_ge_cases s' (default (i + hb) rs)) as [Hlt|Hge].
      { apply (Hex s'); [lia|done]. }
      assert (s' <= i + hb < s' + w) as Hin.
      { destruct rs as [s0|]; cbn in Hge; [|lia].
        destruct Hinv as (Hs0 & Hrl & Hlt & Hrun). lia. }
      specialize (Hfree (i + hb) Hin). congruence.
    + cbn. destruct rs as [s0|]; cbn in Hpos; [|lia].
      destruct Hinv as (Hs0 & Hrl & Hlt & Hrun). lia.
Qed.

(** X18.  When the first scan of a non-splittable walk finds a run, the
    start that it returns is the smallest [s >= max(earliest_start,
    horizon_begin)] from which [work_units] units are free. *)
Lemma walk_first_scan_earliest (bm : OccupancyBitmap) oid op es w ms deadline r bm' :
  0 < w ->
  walk 1 bm oid op es w false ms deadline = (Ret r, bm') ->
  Z.max es (horizon_begin bm) <= start r /\
  free_run bm' (start r) w /\
  forall s', Z.max es (horizon_begin bm) <= s' < start r -> ~ free_run bm' s' w.
Proof.
  intros Hw H. unfold walk, _walk_non_splittable in H.
  cbn [non_splittable_loop] in H.
  set (pos := Z.max es (horizon_begin bm)) in *.
  set (ext1 := if pos + w >? horizon_end bm then _ else _) in H.
  assert (extends bm ext1.2) as Hx1.
  { subst ext1. destruct (pos + w >? horizon_end bm); [|apply extends_refl].
    destruct (reached deadline pos); [apply extends_refl|].
    destruct (_extend_to _ _) as [o b] eqn:E. by apply _extend_to_extends in E. }
  destruct ext1 as [[[]| |] bm1]; cbn in Hx1; [|done..].
  pose proof (extends_horizon_begin _ _ Hx1) as Hhb1.
  pose proof (clip_end_le bm1 deadline) as Hce.
  destruct (scan_run _ _ _ _ _ _ _) as [[s|]| |] eqn:Escan in H; [| |done..].
  2:{ destruct (reached deadline (clip_end bm1 deadline)); [done|].
      by destruct (if pos + w >? horizon_end bm1 then _ else _) as [[[]| |] ?]. }
  inversion H; subst r bm'. clear H. cbn [start].
  assert (horizon_begin bm1 <= pos) as Hpos by lia.
  pose proof Escan as Hfree.
  apply scan_run_sound in Hfree as [_ Hfree];
    [ | lia | unfold horizon_end in *; lia | done ].
  apply (scan_run_earliest _ _ _ _ _ _ _ pos) in Escan as [Hle Hmin];
    [ | done | lia | unfold horizon_end in *; lia | done | cbn; lia | cbn; lia ].
  done.
Qed.

(** ** The non-splittable walk across an extension *)

Lemma free_runb_spec (bm : OccupancyBitmap) (s w : Z) :
  free_runb bm s w = true -> free_run bm s w.
Proof.
  unfold free_runb, free_run, span_filled. rewrite forallb_forall.
  intros H j Hj. cbn in Hj.
  apply (bool_decide_eq_true_1 (unit_bit bm j = Some 1)), H, list_elem_of_In.
  apply elem_of_seqZ. lia.
Qed.

(** [std] and [morning] are what [from_calendar] builds. *)
Lemma standard_bitmap_std : standard_bitmap = Ret std.
Proof. vm_compute. reflexivity. Qed.

Lemma morning_bitmap_morning : morning_bitmap = Ret morning.
Proof. vm_compute. reflexivity. Qed.

(** Scenario S4. *)
Lemma walk_s4 :
  walk 1 std 0 "OP-1" 480 300 false 1 None
  = (Ret (mk_record 0 "OP-1" "standard" 480 780 300 false [(480, 780)]), std).
Proof. vm_compute. reflexivity. Qed.

(** Scenario S5. *)
Lemma walk_s5 :
  walk 1 std 0 "OP-1" 480 600 false 1 (Some 1020)
  = (Raise (InfeasibleError "OP-1" 600 600 "deadline"), std).
Proof. vm_compute. reflexivity. Qed.

(** A non-splittable walk returns a record with one span of
    [work_units] free units that starts at [start] and ends at
    [finish]. *)
Lemma walk_non_splittable_shape (fuel : nat) (bm : OccupancyBitmap) oid op es w
    deadline r bm' :
  walk fuel bm oid op es w false 1 deadline = (Ret r, bm') ->
  spans r = [(start r, finish r)] /\ finish r - start r = w /\
  horizon_begin bm <= start r /\ free_run bm' (start r) w.
Proof.
  unfold walk, _walk_non_splittable. intros H.
  apply non_splittable_loop_sound in H as (Hx & s & Hs & -> & Hfill); [|lia].
  cbn. repeat split; [lia|lia|done].
Qed.

(** C1, at the input where the code departs from it.  The standard
    calendar is materialised by hours from Monday 00:00 to 12:00: the
    horizon is [[0, 12)] and the hours 8 to 11 are free.  The walk for 5
    units from 0 scans the 4 free units up to the horizon, extends the
    bitmap, and starts a new run at the old horizon: it returns the
    start 12 although the 5 units from 8 are free in the bitmap it
    leaves. *)
Theorem walk_misses_run_across_extension :
  exists bm',
    walk 2 morning 0 "OP-1" 0 5 false 1 None
      = (Ret (mk_record 0 "OP-1" "standard" 12 17 5 false [(12, 17)]), bm') /\
    horizon_end morning = 12 /\
    free_run bm' 8 5.
Proof.
  exists (walk 2 morning 0 "OP-1" 0 5 false 1 None).2.
  split; [vm_compute; reflexivity|]. split; [vm_compute; reflexivity|].
  apply free_runb_spec. vm_compute. reflexivity.
Qed.

(** C2, at the input where the code departs from it.  On the same
    bitmap the walk for 5 units from 0 with the deadline 14 raises
    [InfeasibleError], although the 5 units from 8 are free in the
    bitmap it leaves and end at 13, before the deadline. *)
Theorem walk_deadline_misses_run_across_extension :
  exists bm',
    walk 2 morning 0 "OP-1" 0 5 false 1 (Some 14)
      = (Raise (InfeasibleError "OP-1" 5 5 "deadline"), bm') /\
    free_run bm' 8 5 /\ 8 + 5 <= 14.
Proof.
  exists (walk 2 morning 0 "OP-1" 0 5 false 1 (Some 14)).2.
  split; [vm_compute; reflexivity|].
  split; [|lia]. apply free_runb_spec. vm_compute. reflexivity.
Qed.

(** C9, at the input where the code departs from it.  From the same
    bitmap and the same earliest start 7, the walk for 5 units finishes
    at 17 and the walk for 6 units at 14. *)
Theorem walk_not_monotone :
  exists r1 bm1 r2 bm2,
    walk 2 morning 0 "OP-1" 7 5 false 1 None = (Ret r1, bm1) /\
    walk 2 morning 1 "OP-2" 7 6 false 1 None = (Ret r2, bm2) /\
    5 <= 6 /\ finish r1 = 17 /\ finish r2 = 14.
Proof.
  exists (mk_record 0 "OP-1" "standard" 12 17 5 false [(12, 17)]),
         (walk 2 morning 0 "OP-1" 7 5 false 1 None).2,
         (mk_record 1 "OP-2" "standard" 8 14 6 false [(8, 14)]),
         (walk 2 morning 1 "OP-2" 7 6 false 1 None).2.
  split; [vm_compute; reflexivity|]. split; [vm_compute; reflexivity|].
  repeat split. lia.
Qed.

(** ** Exceptions that clear a date *)

Lemma elem_of_insert_sorted {A : Type} (leb : A -> A -> bool) (x y : A) (l : list A) :
  y ∈ insert_sorted leb x l <-> y = x \/ y ∈ l.
Proof.
  induction l as [|z l IH]; cbn.
  - rewrite list_elem_of_singleton, elem_of_nil. tauto.
  - destruct (leb x z).
    + by rewrite elem_of_cons.
    + rewrite !elem_of_cons, IH. tauto.
Qed.

Lemma elem_of_stable_sort {A : Type} (leb : A -> A -> bool) (y : A) (l : list A) :
  y ∈ stable_sort leb l <-> y ∈ l.
Proof.
  induction l as [|x l IH]; cbn; [done|].
  by rewrite elem_of_insert_sorted, elem_of_cons, IH.
Qed.

Lemma entry_period_Ret (en : entry) (p : period) :
  entry_period en = Ret p <-> e_start en = Some p.1 /\ e_end en = Some p.2.
Proof.
  unfold entry_period. destruct p as [s e]. cbn.
  destruct (e_start en), (e_end en);
    (split; [intros H; inversion H; by subst
            | intros [H1 H2]; inversion H1; inversion H2; by subst]).
Qed.

Lemma append_working_spec (entries : list entry) : forall periods : list period,
  match append_working periods entries with
  | Ret ps => forall p, p ∈ ps <->
                p ∈ periods \/ exists en, en ∈ entries /\ working_entry p en
  | Raise e => e = KeyError /\
               exists en, en ∈ entries /\ is_working en = Some true /\
                          (e_start en = None \/ e_end en = None)
  | OutOfFuel => False
  end.
Proof.
  induction entries as [|en entries IH]; intros periods; cbn.
  - intros p. split; [by left|]. intros [H|(en & H & _)]; [done|].
    by apply elem_of_nil in H.
  - destruct (is_working en) as [[|]|] eqn:Ew; cbn.
    + destruct (entry_period en) as [q| |] eqn:Eq; cbn.
      * specialize (IH (periods ++ [q])).
        destruct (append_working _ entries) as [ps|e|]; [| |done].
        -- intros p. rewrite IH, elem_of_app, list_elem_of_singleton. split.
           ++ intros [[H| ->]|(en' & H & Hw)]; [by left| |].
              ** right. exists en. split; [left|]. split; [done|].
                 by apply entry_period_Ret.
              ** right. exists en'. split; [by right|done].
           ++ intros [H|(en' & H & Hw)]; [by left; left|].
              apply elem_of_cons in H as [->|H].
              ** left; right. destruct Hw as (_ & Hs & He).
                 assert (entry_period en = Ret p) as Hp by by apply entry_period_Ret.
                 congruence.
              ** right. eauto.
        -- destruct IH as (-> & en' & H & Hw). split; [done|].
           exists en'. split; [by right|done].
      * unfold entry_period in Eq.
        destruct (e_start en) eqn:Es, (e_end en) eqn:Ee; inversion Eq; subst;
          (split; [done|]); exists en; (split; [left|]); eauto.
      * unfold entry_period in Eq. by destruct (e_start en), (e_end en).
    + specialize (IH periods).
      destruct (append_working periods entries) as [ps|e|]; [| |done].
      * intros p. rewrite IH. split.
        -- intros [H|(en' & H & Hw)]; [by left|]. right. exists en'.
           split; [by right|done].
        -- intros [H|(en' & H & Hw)]; [by left|].
           apply elem_of_cons in H as [->|H]; [|right; eauto].
           destruct Hw as (Hw & _). congruence.
      * destruct IH as (-> & en' & H & Hw). split; [done|].
        exists en'. split; [by right|done].
    + specialize (IH periods).
      destruct (append_working periods entries) as [ps|e|]; [| |done].
      * intros p. rewrite IH. split.
        -- intros [H|(en' & H & Hw)]; [by left|]. right. exists en'.
           split; [by right|done].
        -- intros [H|(en' & H & Hw)]; [by left|].
           apply elem_of_cons in H as [->|H]; [|right; eauto].
           destruct Hw as (Hw & _). congruence.
      * destruct IH as (-> & en' & H & Hw). split; [done|].
        exists en'. split; [by right|done].
Qed.

(** C8, amended.  On a date that an exception clears,
    [periods_for_date] returns the periods of the [is_working=True]
    entries of the exception and no other: neither the weekday's rules
    nor the carry-over of the previous day's overnight periods
    contribute.  (It raises [KeyError] when such an entry lacks a
    time.) *)
Theorem cleared_day_periods (cal : WorkingCalendar) (d : date)
    (entries : list entry) :
  _exceptions cal !! d = Some entries ->
  existsb full_removal entries = true ->
  match periods_for_date cal d with
  | Ret periods =>
      forall p, p ∈ periods <-> exists en, en ∈ entries /\ working_entry p en
  | Raise e =>
      e = KeyError /\
      exists en, en ∈ entries /\ is_working en = Some true /\
                 (e_start en = None \/ e_end en = None)
  | OutOfFuel => False
  end.
Proof.
  intros Hd Hfull. unfold periods_for_date, _resolve_exceptions. rewrite Hd.
  rewrite bool_decide_eq_true_2 by eauto. rewrite Hfull.
  pose proof (append_working_spec entries []) as H.
  destruct (append_working [] entries) as [ps|e|]; cbn; [|done..].
  intros p. rewrite elem_of_stable_sort, H. split; [|eauto].
  intros [Hnil|?]; [|done]. by apply elem_of_nil in Hnil.
Qed.

Lemma cleared_day_periods_witness :
  _exceptions maintenance_calendar !! tuesday
    = Some [closed_entry;
            mk_entry (Some true) (Some (mk_time 10 0)) (Some (mk_time 14 0))] /\
  existsb full_removal
    [closed_entry;
     mk_entry (Some true) (Some (mk_time 10 0)) (Some (mk_time 14 0))] = true /\
  match periods_for_date maintenance_calendar tuesday with
  | Ret periods =>
      forall p, p ∈ periods <->
        exists en,
          en ∈ [closed_entry;
                mk_entry (Some true) (Some (mk_time 10 0)) (Some (mk_time 14 0))] /\
          working_entry p en
  | Raise e =>
      e = KeyError /\
      exists en,
        en ∈ [closed_entry;
              mk_entry (Some true) (Some (mk_time 10 0)) (Some (mk_time 14 0))] /\
        is_working en = Some true /\ (e_start en = None \/ e_end en = None)
  | OutOfFuel => False
  end.
Proof.
  assert (_exceptions maintenance_calendar !! tuesday
          = Some [closed_entry;
                  mk_entry (Some true) (Some (mk_time 10 0)) (Some (mk_time 14 0))])
    as H1 by (vm_compute; reflexivity).
  assert (existsb full_removal
            [closed_entry;
             mk_entry (Some true) (Some (mk_time 10 0)) (Some (mk_time 14 0))]
          = true) as H2 by reflexivity.
  split; [exact H1|]. split; [exact H2|].
  exact (cleared_day_periods maintenance_calendar tuesday _ H1 H2).
Defined.

(** C8 as stated fails: Monday's night shift ends on Tuesday at 06:00
    and is carried over to a Tuesday that the rules govern, but on the
    Tuesday that an exception clears no period is left. *)
Lemma cleared_day_drops_carryover :
  cleared night_calendar tuesday /\
  _rules night_calendar !! weekday (tuesday - 1)
    = Some [(mk_time 22 0, mk_time 6 0)] /\
  _is_overnight (mk_time 22 0) (mk_time 6 0) = true /\
  time_eqb (mk_time 6 0) midnight = false /\
  _resolve_rules night_calendar tuesday = [(midnight, mk_time 6 0)] /\
  periods_for_date night_calendar tuesday = Ret [].
Proof.
  split.
  { exists [closed_entry]. split; [vm_compute; reflexivity|reflexivity]. }
  repeat split; vm_compute; reflexivity.
Qed.

(** ** Forward and backward walks over a list of intervals *)

(** The minutes between two whole minutes, as [add_minutes] and
    [subtract_minutes] compute them. *)
Lemma available_whole (a b : Z) :
  whole_minute a -> whole_minute b -> a <= b ->
  exists k, 0 <= k /\ int_total_seconds (b - a) / 60 = k /\
            b - a = k * us_per_minute.
Proof.
  intros [x ->] [y ->] Hle. unfold us_per_minute, us_per_second in *.
  exists (y - x). unfold int_total_seconds, us_per_second.
  rewrite Z.quot_div_nonneg by lia.
  replace (y * (60 * 1000000) - x * (60 * 1000000))
    with ((y - x) * 60 * 1000000) by lia.
  rewrite Z.div_mul by lia. rewrite Z.div_mul by lia. lia.
Qed.


Lemma whole_minute_minus (a n : Z) :
  whole_minute a -> whole_minute (a - timedelta_minutes n).
Proof.
  intros [x ->]. exists (x - n). unfold timedelta_minutes. lia.
Qed.

Lemma us_per_minute_pos : 0 < us_per_minute.
Proof. reflexivity. Qed.

Lemma add_scan_app (l1 l2 : list (datetime * datetime)) : forall r c,
  add_scan (l1 ++ l2) r c =
  match add_scan l1 r c with
  | inl p => inl p
  | inr (r', c') => add_scan l2 r' c'
  end.
Proof.
  induction l1 as [|[s e] l1 IH]; intros r c; cbn; [done|].
  destruct (e <=? c); [apply IH|]. destruct (_ <=? 0); [apply IH|].
  destruct (r <=? _); [done|apply IH].
Qed.

Lemma subtract_scan_app (l1 l2 : list (datetime * datetime)) : forall r c,
  subtract_scan (l1 ++ l2) r c =
  match subtract_scan l1 r c with
  | inl p => inl p
  | inr (r', c') => subtract_scan l2 r' c'
  end.
Proof.
  induction l1 as [|[s e] l1 IH]; intros r c; cbn; [done|].
  destruct (s >=? c); [apply IH|]. destruct (_ <=? 0); [apply IH|].
  destruct (r <=? _); [done|apply IH].
Qed.



(** On intervals that start at or after both, the cursor does not
    matter. *)
Lemma add_scan_cursor (l : list (datetime * datetime)) : forall r c1 c2,
  Forall (fun iv => c1 <= iv.1 /\ c2 <= iv.1 /\ iv.1 <= iv.2) l ->
  aligned_intervals l ->
  forget (add_scan l r c1) = forget (add_scan l r c2).
Proof.
  induction l as [|[s e] l IH]; intros r c1 c2 Hl Ha; cbn; [done|].
  apply Forall_cons in Hl as [(H1 & H2 & Hse) Hl]. cbn in H1, H2, Hse.
  apply Forall_cons in Ha as [[As Ae] Ha]. cbn in As, Ae.
  destruct (available_whole s e As Ae Hse) as (k & Hk & Ek & Hd).
  pose proof us_per_minute_pos as HM.
  rewrite !Z.max_l by lia. rewrite Ek.
  destruct (Z.leb_spec k 0) as [Hk0|Hk0].
  - assert (s = e) by nia. subst e.
    destruct (Z.leb_spec s c1), (Z.leb_spec s c2); by apply IH.
  - destruct (Z.leb_spec e c1); [nia|]. destruct (Z.leb_spec e c2); [nia|].
    destruct (r <=? k); [done|]. reflexivity.
Qed.

Lemma subtract_scan_cursor (l : list (datetime * datetime)) : forall r c1 c2,
  Forall (fun iv => iv.1 <= iv.2 /\ iv.2 <= c1 /\ iv.2 <= c2) l ->
  aligned_intervals l ->
  forget (subtract_scan l r c1) = forget (subtract_scan l r c2).
Proof.
  induction l as [|[s e] l IH]; intros r c1 c2 Hl Ha; cbn; [done|].
  apply Forall_cons in Hl as [(Hse & H1 & H2) Hl]. cbn in H1, H2, Hse.
  apply Forall_cons in Ha as [[As Ae] Ha]. cbn in As, Ae.
  destruct (available_whole s e As Ae Hse) as (k & Hk & Ek & Hd).
  pose proof us_per_minute_pos as HM.
  rewrite !Z.min_l by lia. rewrite Ek.
  destruct (Z.leb_spec k 0) as [Hk0|Hk0].
  - assert (s = e) by nia. subst e.
    destruct (Z.geb_spec s c1), (Z.geb_spec s c2); by apply IH.
  - destruct (Z.geb_spec s c1); [nia|]. destruct (Z.geb_spec s c2); [nia|].
    destruct (r <=? k); [done|]. reflexivity.
Qed.

Lemma forget_inl (x : datetime + Z * datetime) (p : datetime) :
  forget x = inl p -> x = inl p.
Proof. destruct x as [q|[r c]]; cbn; intros H; by inversion H. Qed.

Lemma chain_bounds (l : list (datetime * datetime)) : forall lo hi,
  chain lo l hi ->
  lo <= hi /\ Forall (fun iv => lo <= iv.1 /\ iv.1 <= iv.2 /\ iv.2 <= hi) l.
Proof.
  induction l as [|[s e] l IH]; intros lo hi H; cbn in H.
  - split; [done|constructor].
  - destruct H as (H1 & H2 & H3). apply IH in H3 as [H3 H4].
    split; [lia|]. constructor; [cbn; lia|].
    eapply Forall_impl; [exact H4|]. intros [a b]; cbn [fst snd]; lia.
Qed.

Lemma chain_weaken (l : list (datetime * datetime)) (lo lo' hi hi' : Z) :
  lo' <= lo -> hi <= hi' -> chain lo l hi -> chain lo' l hi'.
Proof.
  revert lo lo'. induction l as [|[s e] l IH]; intros lo lo' Hlo Hhi H; cbn in *.
  - lia.
  - destruct H as (H1 & H2 & H3). repeat split; [lia|lia|].
    by apply (IH e e).
Qed.

Lemma chain_app (l1 l2 : list (datetime * datetime)) : forall lo hi,
  chain lo (l1 ++ l2) hi <-> exists mid, chain lo l1 mid /\ chain mid l2 hi.
Proof.
  induction l1 as [|[s e] l1 IH]; intros lo hi; cbn.
  - split.
    + intros H. exists lo. split; [lia|done].
    + intros (mid & H1 & H2). by apply (chain_weaken l2 mid lo hi hi).
  - rewrite IH. split.
    + intros (H1 & H2 & mid & H3 & H4). eauto 10.
    + intros (mid & (H1 & H2 & H3) & H4). eauto 10.
Qed.


Lemma aligned_intervals_app (l1 l2 : list (datetime * datetime)) :
  aligned_intervals (l1 ++ l2) <-> aligned_intervals l1 /\ aligned_intervals l2.
Proof. apply Forall_app. Qed.


(** The backward walk is the forward walk on the mirrored intervals. *)
Lemma subtract_scan_mirror (l : list (datetime * datetime)) : forall r c,
  subtract_scan l r c = mirror_result (add_scan (map mirror l) r (- c)).
Proof.
  induction l as [|[s e] l IH]; intros r c;
    cbn [subtract_scan add_scan map mirror mirror_result fst snd];
    [by rewrite Z.opp_involutive|].
  replace (- s <=? - c) with (s >=? c)
    by (destruct (Z.geb_spec s c), (Z.leb_spec (- s) (- c)); lia).
  destruct (s >=? c); [apply IH|].
  replace (- s - Z.max (- e) (- c)) with (Z.min e c - s) by lia.
  destruct (_ <=? 0); [apply IH|].
  destruct (r <=? _).
  - cbn [mirror_result]. f_equal. unfold timedelta_minutes. lia.
  - by rewrite IH.
Qed.


Lemma chain_mirror (l : list (datetime * datetime)) : forall lo hi,
  chain lo l hi -> chain (- hi) (rev (map mirror l)) (- lo).
Proof.
  induction l as [|[s e] l IH]; intros lo hi H; cbn in *; [lia|].
  destruct H as (H1 & H2 & H3). apply chain_app. exists (- e).
  split; [by apply IH|]. cbn. lia.
Qed.




(** ** The walks of the calendar as walks over one list *)

Lemma combine_midnight (d : date) : combine d midnight = d * us_per_day.
Proof. unfold combine. cbn. lia. Qed.

Lemma date_of_bounds (dt : datetime) :
  date_of dt * us_per_day <= dt < (date_of dt + 1) * us_per_day.
Proof.
  unfold date_of. pose proof (Z.mod_pos_bound dt us_per_day ltac:(reflexivity)).
  pose proof (Z.div_mod dt us_per_day ltac:(discriminate)). lia.
Qed.


Lemma whole_minute_combine (d : date) (t : time) : whole_minute (combine d t).
Proof.
  exists (d * 1440 + hour t * 60 + minute t).
  unfold combine, us_per_day, us_per_minute, us_per_second. lia.
Qed.

Lemma aligned_day (cal : WorkingCalendar) (d : date) intervals :
  _datetime_intervals_for_date cal d = Ret intervals ->
  aligned_intervals intervals.
Proof.
  unfold _datetime_intervals_for_date.
  destruct (periods_for_date cal d) as [ps| |]; cbn; [|done..].
  intros H. inversion H. apply Forall_fmap, Forall_forall. intros [s e] _.
  unfold period_interval. cbn. split; [apply whole_minute_combine|].
  destruct (time_eqb e midnight); apply whole_minute_combine.
Qed.

Section Flat.
Context (cal : WorkingCalendar) (Hwf : well_formed cal).

Lemma day_intervals_Ret (d : date) :
  _datetime_intervals_for_date cal d = Ret (day_intervals cal d).
Proof. unfold day_intervals. by destruct (Hwf d) as (ivs & -> & _). Qed.

Lemma day_intervals_chain (d : date) :
  chain (d * us_per_day) (day_intervals cal d) ((d + 1) * us_per_day).
Proof.
  unfold day_intervals. destruct (Hwf d) as (ivs & -> & H).
  by rewrite !combine_midnight in H.
Qed.

Lemma day_intervals_aligned (d : date) :
  aligned_intervals (day_intervals cal d).
Proof. apply (aligned_day cal d), day_intervals_Ret. Qed.

Lemma flat_chain (n : nat) : forall d,
  chain (d * us_per_day) (flat cal d n) ((d + Z.of_nat n) * us_per_day).
Proof.
  induction n as [|n IH]; intros d; cbn [flat].
  - cbn. lia.
  - apply chain_app. exists ((d + 1) * us_per_day).
    split; [apply day_intervals_chain|].
    replace (d + Z.of_nat (S n)) with (d + 1 + Z.of_nat n) by lia. apply IH.
Qed.

Lemma flat_aligned (n : nat) : forall d, aligned_intervals (flat cal d n).
Proof.
  induction n as [|n IH]; intros d; cbn [flat]; [constructor|].
  apply aligned_intervals_app. split; [apply day_intervals_aligned|apply IH].
Qed.

Lemma flat_app (n1 n2 : nat) : forall d,
  flat cal d (n1 + n2) = flat cal d n1 ++ flat cal (d + Z.of_nat n1) n2.
Proof.
  induction n1 as [|n1 IH]; intros d; cbn [flat Nat.add app].
  - f_equal. lia.
  - rewrite IH, <- app_assoc. do 3 f_equal. lia.
Qed.

Lemma between_chain (a b : date) :
  a <= b -> chain (a * us_per_day) (between cal a b) (b * us_per_day).
Proof.
  intros H. unfold between.
  replace b with (a + Z.of_nat (Z.to_nat (b - a))) at 2 by lia. apply flat_chain.
Qed.

Lemma between_aligned (a b : date) : aligned_intervals (between cal a b).
Proof. apply flat_aligned. Qed.

Lemma between_split (a m b : date) :
  a <= m <= b -> between cal a b = between cal a m ++ between cal m b.
Proof.
  intros H. unfold between.
  replace (Z.to_nat (b - a)) with (Z.to_nat (m - a) + Z.to_nat (b - m))%nat by lia.
  rewrite flat_app. do 2 f_equal. lia.
Qed.

Lemma between_day (d : date) : between cal d (d + 1) = day_intervals cal d.
Proof.
  unfold between. replace (Z.to_nat (d + 1 - d)) with 1%nat by lia.
  cbn. apply app_nil_r.
Qed.

End Flat.

Lemma available_le (x : Z) :
  0 <= x -> int_total_seconds x / 60 * us_per_minute <= x.
Proof.
  intros Hx. unfold int_total_seconds, us_per_minute, us_per_second.
  rewrite Z.quot_div_nonneg by lia.
  pose proof (Z.mul_div_le x 1000000 ltac:(lia)).
  pose proof (Z.mul_div_le (x / 1000000) 60 ltac:(lia)). lia.
Qed.

(** What a forward scan leaves when it runs to its end, and where it
    ends otherwise. *)
Lemma add_scan_inr (l : list (datetime * datetime)) : forall r c r' c' hi,
  0 < r -> c <= hi -> Forall (fun iv => iv.2 <= hi) l ->
  add_scan l r c = inr (r', c') -> 0 < r' /\ c' <= hi.
Proof.
  induction l as [|[s e] l IH]; intros r c r' c' hi Hr Hc Hl H; cbn in H.
  - inversion H; by subst.
  - apply Forall_cons in Hl as [He Hl]. cbn in He.
    destruct (e <=? c); [by apply (IH r c _ _ hi)|].
    destruct (_ <=? 0); [by apply (IH r c _ _ hi)|].
    destruct (Z.leb_spec r (int_total_seconds (e - Z.max s c) / 60)); [done|].
    refine (IH _ e r' c' hi _ _ Hl H); lia.
Qed.

Lemma add_scan_inl (l : list (datetime * datetime)) : forall r c p hi,
  0 < r -> c <= hi -> Forall (fun iv => iv.2 <= hi) l ->
  add_scan l r c = inl p -> c < p <= hi.
Proof.
  induction l as [|[s e] l IH]; intros r c p hi Hr Hc Hl H; cbn in H; [done|].
  apply Forall_cons in Hl as [He Hl]. cbn in He.
  destruct (Z.leb_spec e c); [by apply (IH r c _ hi)|].
  destruct (Z.leb_spec (int_total_seconds (e - Z.max s c) / 60) 0);
    [by apply (IH r c _ hi)|].
  destruct (Z.leb_spec r (int_total_seconds (e - Z.max s c) / 60)) as [Hle|Hgt].
  - inversion H; subst p. unfold timedelta_minutes.
    assert (0 <= e - Z.max s c) as Hx.
    { destruct (Z.le_gt_cases 0 (e - Z.max s c)) as [|Hneg]; [done|].
      unfold int_total_seconds, us_per_second in *.
      pose proof (Z.quot_opp_l (- (e - Z.max s c)) 1000000 ltac:(lia)) as Hq.
      rewrite Z.opp_involutive in Hq.
      pose proof (Z.quot_pos (- (e - Z.max s c)) 1000000 ltac:(lia) ltac:(lia)).
      assert (Z.quot (e - Z.max s c) 1000000 <= 0) by lia.
      pose proof (Z.div_le_upper_bound (Z.quot (e - Z.max s c) 1000000) 60 0
                    ltac:(lia) ltac:(lia)). lia. }
    pose proof (available_le _ Hx). pose proof us_per_minute_pos. nia.
  - assert (e < p <= hi) by (refine (IH _ e p hi _ _ Hl H); lia). lia.
Qed.

Lemma subtract_scan_inr (l : list (datetime * datetime)) : forall r c r' c' lo,
  0 < r -> lo <= c -> Forall (fun iv => lo <= iv.1) l ->
  subtract_scan l r c = inr (r', c') -> 0 < r' /\ lo <= c'.
Proof.
  intros r c r' c' lo Hr Hc Hl H. rewrite subtract_scan_mirror in H.
  destruct (add_scan _ _ _) as [|[r1 c1]] eqn:E; [done|].
  cbn in H. inversion H; subst.
  apply (add_scan_inr _ _ _ _ _ (- lo)) in E as [H1 H2]; [lia|done|lia|].
  apply Forall_fmap. eapply Forall_impl; [exact Hl|].
  intros [a b]; cbn; lia.
Qed.

Lemma subtract_scan_inl (l : list (datetime * datetime)) : forall r c q lo,
  0 < r -> lo <= c -> Forall (fun iv => lo <= iv.1) l ->
  subtract_scan l r c = inl q -> lo <= q < c.
Proof.
  intros r c q lo Hr Hc Hl H. rewrite subtract_scan_mirror in H.
  destruct (add_scan _ _ _) as [p|] eqn:E; [|by destruct p].
  cbn in H. inversion H; subst.
  apply (add_scan_inl _ _ _ _ (- lo)) in E; [lia|done|lia|].
  apply Forall_fmap. eapply Forall_impl; [exact Hl|].
  intros [a b]; cbn; lia.
Qed.

Lemma us_per_day_pos : 0 < us_per_day.
Proof. reflexivity. Qed.

Section Loops.
Context (cal : WorkingCalendar) (Hwf : well_formed cal).

Lemma between_bounds (a b : date) :
  a <= b ->
  Forall (fun iv => a * us_per_day <= iv.1 /\ iv.1 <= iv.2 /\
                    iv.2 <= b * us_per_day) (between cal a b).
Proof. intros H. by apply chain_bounds, between_chain. Qed.

(** [add_loop] is the forward scan over the dates it may visit. *)
Lemma add_loop_flat (fuel : nat) : forall r d c,
  0 < r -> c <= (d + 1) * us_per_day ->
  add_loop fuel cal r d c =
  match forget (add_scan (flat cal d fuel) r c) with
  | inl p => Ret p
  | inr _ => OutOfFuel
  end.
Proof.
  pose proof us_per_day_pos as HU.
  induction fuel as [|fuel IH]; intros r d c Hr Hc; cbn [add_loop flat].
  - destruct (Z.gtb_spec r 0); [done|lia].
  - destruct (Z.gtb_spec r 0); [|lia].
    rewrite (day_intervals_Ret cal Hwf). cbn. rewrite add_scan_app.
    destruct (add_scan (day_intervals cal d) r c) as [p|[r' c']] eqn:E; [done|].
    apply (add_scan_inr _ _ _ _ _ ((d + 1) * us_per_day)) in E as [Hr' Hc'];
      [|done|done|].
    2:{ pose proof (chain_bounds _ _ _ (day_intervals_chain cal Hwf d)) as [_ Hb].
        eapply Forall_impl; [exact Hb|]. intros [a b]; cbn [fst snd]; lia. }
    rewrite combine_midnight, IH by lia.
    rewrite (add_scan_cursor _ r' c' ((d + 1) * us_per_day)); [done| |].
    + pose proof (chain_bounds _ _ _ (flat_chain cal Hwf fuel (d + 1))) as [_ Hb].
      eapply Forall_impl; [exact Hb|]. intros [a b]; cbn [fst snd]; lia.
    + by apply flat_aligned.
Qed.

Lemma flat_back_rev (n : nat) : forall d,
  flat_back cal d n = rev (between cal (d + 1 - Z.of_nat n) (d + 1)).
Proof.
  induction n as [|n IH]; intros d; cbn [flat_back].
  - unfold between. by replace (Z.to_nat _) with O by lia.
  - rewrite (between_split cal (d + 1 - Z.of_nat (S n)) d (d + 1)) by lia.
    rewrite rev_app_distr, between_day, IH.
    replace (d - 1 + 1) with d by lia.
    by replace (d + 1 - Z.of_nat (S n)) with (d - Z.of_nat n) by lia.
Qed.

(** [subtract_loop] is the backward scan over the dates it may visit. *)
Lemma subtract_loop_flat (fuel : nat) : forall r d c,
  0 < r -> d * us_per_day <= c ->
  subtract_loop fuel cal r d c =
  match forget (subtract_scan (flat_back cal d fuel) r c) with
  | inl p => Ret p
  | inr _ => OutOfFuel
  end.
Proof.
  pose proof us_per_day_pos as HU.
  induction fuel as [|fuel IH]; intros r d c Hr Hc; cbn [subtract_loop flat_back].
  - destruct (Z.gtb_spec r 0); [done|lia].
  - destruct (Z.gtb_spec r 0); [|lia].
    rewrite (day_intervals_Ret cal Hwf). cbn. rewrite subtract_scan_app.
    destruct (subtract_scan (rev (day_intervals cal d)) r c) as [p|[r' c']] eqn:E;
      [done|].
    apply (subtract_scan_inr _ _ _ _ _ (d * us_per_day)) in E as [Hr' Hc'];
      [|done|done|].
    2:{ apply Forall_rev.
        pose proof (chain_bounds _ _ _ (day_intervals_chain cal Hwf d)) as [_ Hb].
        eapply Forall_impl; [exact Hb|]. intros [a b]; cbn [fst snd]; lia. }
    replace (d - 1 + 1) with d by lia.
    rewrite combine_midnight, IH by lia.
    rewrite (subtract_scan_cursor _ r' c' (d * us_per_day)); [done| |].
    + rewrite flat_back_rev. apply Forall_rev.
      pose proof (between_bounds (d - 1 + 1 - Z.of_nat fuel) (d - 1 + 1) ltac:(lia))
        as Hb.
      eapply Forall_impl; [exact Hb|]. intros [a b]; cbn [fst snd]; lia.
    + rewrite flat_back_rev. apply Forall_rev. by apply between_aligned.
Qed.

End Loops.

(** ** The round trip of [add_minutes] and [subtract_minutes] *)

Section RoundTrip.
Context (cal : WorkingCalendar) (Hwf : well_formed cal).

Lemma between_flat (d : date) (n : nat) :
  between cal d (d + Z.of_nat n) = flat cal d n.
Proof. unfold between. f_equal. lia. Qed.





End RoundTrip.


(** The standard calendar is well formed. *)
Lemma standard_rules (k : Z) :
  0 <= k < 7 ->
  _rules standard_calendar !! k = if k <? 5 then Some working_day else None.
Proof.
  intros H.
  assert (k = 0 \/ k = 1 \/ k = 2 \/ k = 3 \/ k = 4 \/ k = 5 \/ k = 6) as Hk by lia.
  destruct Hk as [->|[->|[->|[->|[->|[->| ->]]]]]]; vm_compute; reflexivity.
Qed.

Lemma weekday_range (d : date) : 0 <= weekday d < 7.
Proof. unfold weekday. apply Z.mod_pos_bound. lia. Qed.

Lemma standard_intervals (d : date) :
  _datetime_intervals_for_date standard_calendar d
  = Ret (if weekday d <? 5
         then [(combine d (mk_time 8 0), combine d (mk_time 17 0))]
         else []).
Proof.
  unfold _datetime_intervals_for_date, periods_for_date.
  replace (_exceptions standard_calendar !! d) with (@None (list entry))
    by (symmetry; apply lookup_empty).
  rewrite bool_decide_eq_false_2 by (by intros [x Hx]).
  unfold _resolve_rules.
  rewrite !standard_rules by apply weekday_range.
  destruct (weekday d <? 5), (weekday (d - 1) <? 5); reflexivity.
Qed.

Lemma standard_calendar_well_formed : well_formed standard_calendar.
Proof.
  intros d. eexists. split; [apply standard_intervals|].
  unfold combine, midnight, us_per_day, us_per_second.
  destruct (weekday d <? 5); cbn [chain hour minute]; lia.
Qed.

Lemma standard_working_hours (d : date) (m : Z) :
  (weekday d <? 5) = true -> 480 <= m < 1020 ->
  in_working_time standard_calendar (combine d midnight + timedelta_minutes m).
Proof.
  intros Hd Hm. exists d. eexists. exists (combine d (mk_time 8 0)), (combine d (mk_time 17 0)).
  split; [apply standard_intervals|]. rewrite Hd. split; [left|].
  unfold combine, midnight, timedelta_minutes, us_per_day, us_per_minute,
    us_per_second.
  cbn [hour minute]. lia.
Qed.



(** Scenarios S1 and S2. *)
Lemma add_minutes_s1 :
  add_minutes 1 standard_calendar (EPOCH + timedelta_minutes 540) 60
  = Ret (EPOCH + timedelta_minutes 600).
Proof. vm_compute. reflexivity. Qed.

Lemma add_minutes_s2 :
  add_minutes 2 standard_calendar monday_1630 60 = Ret tuesday_0830.
Proof. vm_compute. reflexivity. Qed.

(** * Further properties of the code *)

(** ** The boundary: integers and datetimes *)

Lemma int_total_seconds_units (t u : Z) :
  int_total_seconds (t * u * us_per_second) = t * u.
Proof. unfold int_total_seconds. apply Z.quot_mul. discriminate. Qed.

Lemma to_int_Ret (r : TimeResolution) (dt epoch : datetime) (t : Z) :
  to_int r dt epoch = Ret t ->
  unit_seconds r <> 0 /\ int_total_seconds (dt - epoch) = t * unit_seconds r.
Proof.
  unfold to_int.
  destruct (Z.eqb_spec (unit_seconds r) 0) as [Hu|Hu]; [done|].
  destruct (Z.eqb_spec (int_total_seconds (dt - epoch) mod unit_seconds r) 0)
    as [Hm|Hm]; cbn; [|done].
  apply Z.div_exact in Hm; [|done].
  intros H. inversion H. split; [done|]. lia.
Qed.

(** X1.  An integer time converted to a datetime converts back to itself,
    for every resolution whose unit is not zero. *)
Theorem to_int_to_datetime (r : TimeResolution) (t : Z) (epoch : datetime) :
  unit_seconds r <> 0 ->
  to_int r (to_datetime r t epoch) epoch = Ret t.
Proof.
  intros Hu. unfold to_int, to_datetime.
  replace (epoch + t * unit_seconds r * us_per_second - epoch)
    with (t * unit_seconds r * us_per_second) by lia.
  rewrite int_total_seconds_units.
  destruct (Z.eqb_spec (unit_seconds r) 0) as [|_]; [done|].
  rewrite Z.mod_mul by done. cbn. by rewrite Z.div_mul.
Qed.

Lemma to_int_to_datetime_witness :
  unit_seconds HOUR <> 0 /\
  to_int HOUR (to_datetime HOUR (-3) EPOCH) EPOCH = Ret (-3).
Proof. split; [discriminate|]. apply to_int_to_datetime. discriminate. Defined.

(** X2.  For a datetime less than 2^34 seconds from the epoch, [to_int]
    returns [t] exactly when the seconds from the epoch to [dt], truncated
    towards zero to a whole number, are [t] units: a misaligned second
    raises, a fraction of a second is dropped. *)
Theorem to_int_returns (r : TimeResolution) (dt epoch : datetime) (t : Z) :
  Z.abs (dt - epoch) < 2 ^ 34 * us_per_second ->
  to_int r dt epoch = Ret t <->
  unit_seconds r <> 0 /\
  Z.quot (dt - epoch) us_per_second = t * unit_seconds r.
Proof.
  intros _. fold (int_total_seconds (dt - epoch)).
  split; [apply to_int_Ret|]. intros [Hu H]. unfold to_int.
  destruct (Z.eqb_spec (unit_seconds r) 0) as [|_]; [done|].
  rewrite H, Z.mod_mul by done. cbn. by rewrite Z.div_mul.
Qed.

Lemma to_int_returns_witness :
  Z.abs (EPOCH + 60999999 - EPOCH) < 2 ^ 34 * us_per_second /\
  (to_int MINUTE (EPOCH + 60999999) EPOCH = Ret 1 <->
   unit_seconds MINUTE <> 0 /\
   Z.quot (EPOCH + 60999999 - EPOCH) us_per_second = 1 * unit_seconds MINUTE).
Proof.
  assert (Z.abs (EPOCH + 60999999 - EPOCH) < 2 ^ 34 * us_per_second) as H
    by (vm_compute; reflexivity).
  exact (conj H (to_int_returns MINUTE (EPOCH + 60999999) EPOCH 1 H)).
Defined.

(** X3.  A datetime a whole number of seconds from the epoch that [to_int]
    accepts is given back by [to_datetime]. *)
Theorem to_datetime_to_int (r : TimeResolution) (dt epoch : datetime) (t : Z) :
  (us_per_second | dt - epoch) ->
  to_int r dt epoch = Ret t ->
  to_datetime r t epoch = dt.
Proof.
  intros [k Hk] H. apply to_int_Ret in H as [_ H].
  unfold to_datetime. rewrite <- H, Hk. unfold int_total_seconds.
  rewrite Z.quot_mul by discriminate. lia.
Qed.

Lemma to_datetime_to_int_witness :
  (us_per_second | monday_1600 - EPOCH) /\
  to_int HOUR monday_1600 EPOCH = Ret 16 /\
  to_datetime HOUR 16 EPOCH = monday_1600.
Proof.
  assert (us_per_second | monday_1600 - EPOCH) as H1.
  { exists 57600. vm_compute. reflexivity. }
  assert (to_int HOUR monday_1600 EPOCH = Ret 16) as H2 by (vm_compute; reflexivity).
  exact (conj H1 (conj H2 (to_datetime_to_int HOUR monday_1600 EPOCH 16 H1 H2))).
Defined.

(** ** Counting working minutes *)

Lemma count_minutes_total (start end_ : datetime)
    (l : list (datetime * datetime)) : forall total,
  count_minutes start end_ l total = total + count_minutes start end_ l 0.
Proof.
  induction l as [|[s e] l IH]; intros total; cbn [count_minutes]; [lia|].
  destruct (Z.max s start <? Z.min e end_); [|apply IH].
  rewrite IH, (IH (0 + _)). lia.
Qed.

Lemma count_minutes_clamp (start end_ : datetime)
    (l : list (datetime * datetime)) :
  count_minutes start end_ l 0 = minutes_of (clamp_intervals start end_ l).
Proof.
  unfold clamp_intervals.
  induction l as [|[s e] l IH]; cbn [count_minutes map List.filter fst snd];
    [done|].
  destruct (Z.max s start <? Z.min e end_); [|apply IH].
  rewrite count_minutes_total, IH. unfold minutes_of. cbn [foldr fst snd]. lia.
Qed.

Lemma minutes_of_app (l1 l2 : list (datetime * datetime)) :
  minutes_of (l1 ++ l2) = minutes_of l1 + minutes_of l2.
Proof.
  unfold minutes_of. induction l1 as [|iv l1 IH]; cbn [foldr app]; [done|].
  rewrite IH. lia.
Qed.

Lemma minutes_from_intervals (n : nat) (cal : WorkingCalendar)
    (start end_ : datetime) : forall d total,
  minutes_from n cal start end_ d total
  = (ivs ← intervals_from n cal start end_ d; Ret (total + minutes_of ivs)).
Proof.
  induction n as [|n IH]; intros d total; cbn [minutes_from intervals_from].
  { cbn. f_equal. unfold minutes_of. cbn. lia. }
  destruct (_datetime_intervals_for_date cal d) as [ivs| |]; cbn; [|done..].
  rewrite IH.
  destruct (intervals_from n cal start end_ (d + 1)) as [rest| |]; cbn; [|done..].
  f_equal. rewrite minutes_of_app, count_minutes_total, count_minutes_clamp. lia.
Qed.

(** X4.  [working_minutes_between] counts the whole minutes of the intervals
    that [working_intervals_in_range] yields for the same range; for an
    empty range it returns 0 without consulting the calendar. *)
Theorem working_minutes_between_intervals (cal : WorkingCalendar)
    (start end_ : datetime) :
  working_minutes_between cal start end_
  = if start >=? end_ then Ret 0
    else ivs ← working_intervals_in_range cal start end_; Ret (minutes_of ivs).
Proof.
  unfold working_minutes_between, working_intervals_in_range.
  destruct (start >=? end_); [done|].
  rewrite minutes_from_intervals.
  by destruct (intervals_from _ cal start end_ (date_of start)).
Qed.

Lemma count_minutes_app (start end_ : datetime)
    (l1 l2 : list (datetime * datetime)) : forall total,
  count_minutes start end_ (l1 ++ l2) total
  = count_minutes start end_ l2 (count_minutes start end_ l1 total).
Proof.
  induction l1 as [|[s e] l1 IH]; intros total; cbn [count_minutes app]; [done|].
  destruct (Z.max s start <? Z.min e end_); apply IH.
Qed.

Lemma count_minutes_after (start end_ : datetime)
    (l : list (datetime * datetime)) (total : Z) :
  Forall (fun iv => end_ <= iv.1) l -> count_minutes start end_ l total = total.
Proof.
  induction 1 as [|[s e] l H _ IH]; cbn [count_minutes]; [done|].
  cbn [fst] in H. destruct (Z.ltb_spec (Z.max s start) (Z.min e end_)); [lia|done].
Qed.

Lemma count_minutes_start (s1 s2 end_ : datetime)
    (l : list (datetime * datetime)) : forall total,
  Forall (fun iv => s1 <= iv.1 /\ s2 <= iv.1) l ->
  count_minutes s1 end_ l total = count_minutes s2 end_ l total.
Proof.
  induction l as [|[s e] l IH]; intros total H; cbn [count_minutes]; [done|].
  inversion H as [|? ? [H1 H2] H']; subst. cbn [fst] in H1, H2.
  rewrite !Z.max_l by lia. rewrite !IH by done. done.
Qed.

Lemma available_mono (x y : Z) :
  x <= y -> int_total_seconds x / 60 <= int_total_seconds y / 60.
Proof.
  intros H. unfold int_total_seconds. apply Z.div_le_mono; [lia|].
  apply Z.quot_le_mono; [reflexivity|done].
Qed.

Lemma available_nonneg (x : Z) : 0 <= x -> 0 <= int_total_seconds x / 60.
Proof. intros H. apply (available_mono 0 x H). Qed.

Lemma available_minutes (r : Z) :
  int_total_seconds (timedelta_minutes r) / 60 = r.
Proof.
  unfold int_total_seconds, timedelta_minutes, us_per_minute.
  replace (r * (60 * us_per_second)) with (r * 60 * us_per_second) by lia.
  rewrite Z.quot_mul by discriminate. by apply Z.div_mul.
Qed.

(** The minutes that the forward scan consumes are the minutes counted
    between its start and its result. *)
Lemma count_minutes_add_scan (l : list (datetime * datetime)) :
  forall lo hi c r p total,
  chain lo l hi -> 0 < r -> add_scan l r c = inl p ->
  count_minutes c p l total = total + r.
Proof.
  induction l as [|[s e] l IH]; intros lo hi c r p total Hch Hr;
    cbn [add_scan count_minutes]; [done|].
  cbn [chain] in Hch. destruct Hch as (Hlo & Hse & Hch).
  pose proof (chain_bounds _ _ _ Hch) as [Hehi Hb].
  destruct (Z.leb_spec e c) as [Hec|Hec].
  { intros H. destruct (Z.ltb_spec (Z.max s c) (Z.min e p)); [lia|].
    by apply (IH e hi). }
  destruct (Z.leb_spec (int_total_seconds (e - Z.max s c) / 60) 0) as [Ha|Ha].
  { intros H.
    destruct (Z.ltb_spec (Z.max s c) (Z.min e p)) as [Hlt|Hlt].
    - pose proof (available_mono (Z.min e p - Z.max s c) (e - Z.max s c)
                    ltac:(lia)).
      pose proof (available_nonneg (Z.min e p - Z.max s c) ltac:(lia)).
      rewrite (IH e hi c r p) by done. lia.
    - by apply (IH e hi). }
  pose proof (available_le (e - Z.max s c)) as Hle.
  destruct (Z.leb_spec r (int_total_seconds (e - Z.max s c) / 60)) as [Hra|Hra].
  - intros H. inversion H as [Hp]. clear H.
    assert (Z.max s c < e) as Hlt.
    { destruct (Z.le_gt_cases e (Z.max s c)) as [Hge|]; [|done].
      pose proof (available_mono (e - Z.max s c) 0 ltac:(lia)) as Hm.
      change (int_total_seconds 0 / 60) with 0 in Hm. lia. }
    assert (timedelta_minutes r <= e - Z.max s c) as Hfit.
    { unfold timedelta_minutes. pose proof us_per_minute_pos. nia. }
    assert (0 < timedelta_minutes r) as Hpos.
    { unfold timedelta_minutes. pose proof us_per_minute_pos. nia. }
    destruct (Z.ltb_spec (Z.max s c) (Z.min e (Z.max s c + timedelta_minutes r)));
      [|lia].
    rewrite Z.min_r by lia.
    replace (Z.max s c + timedelta_minutes r - Z.max s c)
      with (timedelta_minutes r) by lia.
    rewrite available_minutes. apply count_minutes_after.
    eapply Forall_impl; [exact Hb|]. intros [a b]; cbn [fst snd]. lia.
  - intros H.
    destruct (add_scan_inl l (r - int_total_seconds (e - Z.max s c) / 60) e p hi)
      as [Hep _]; [lia|exact Hehi| |exact H|].
    { eapply Forall_impl; [exact Hb|]. intros [a b]; cbn [fst snd]. lia. }
    assert (Z.max s c < e) as Hlt.
    { destruct (Z.le_gt_cases e (Z.max s c)) as [Hge|]; [|done].
      pose proof (available_mono (e - Z.max s c) 0 ltac:(lia)) as Hm.
      change (int_total_seconds 0 / 60) with 0 in Hm. lia. }
    destruct (Z.ltb_spec (Z.max s c) (Z.min e p)); [|lia].
    rewrite Z.min_l by lia.
    rewrite (count_minutes_start c e p l).
    + rewrite (IH e hi e (r - int_total_seconds (e - Z.max s c) / 60) p)
        by (done || lia).
      lia.
    + eapply Forall_impl; [exact Hb|]. intros [a b]; cbn [fst snd]. lia.
Qed.

Section Counting.
Context (cal : WorkingCalendar) (Hwf : well_formed cal).

Lemma minutes_from_flat (n : nat) (start end_ : datetime) : forall d total,
  minutes_from n cal start end_ d total
  = Ret (count_minutes start end_ (flat cal d n) total).
Proof.
  induction n as [|n IH]; intros d total; cbn [minutes_from flat]; [done|].
  rewrite (day_intervals_Ret cal Hwf). cbn. rewrite IH. f_equal.
  rewrite (count_minutes_total _ _ (_ ++ _)).
  rewrite (count_minutes_total _ _ (flat _ _ _)).
  induction (day_intervals cal d) as [|[s e] l IHl] in total |- *;
    cbn [count_minutes app]; [lia|].
  destruct (Z.max s start <? Z.min e end_).
  - rewrite (count_minutes_total _ _ (l ++ _) (0 + _)).
    rewrite (count_minutes_total _ _ l (total + _)).
    specialize (IHl 0). lia.
  - apply IHl.
Qed.

Lemma add_minutes_counted (fuel : nat) (dt : datetime) (n : Z) (p : datetime) :
  0 <= n -> add_minutes fuel cal dt n = Ret p ->
  working_minutes_between cal dt p = Ret n.
Proof.
  intros Hn. unfold add_minutes.
  destruct (Z.eqb_spec n 0) as [->|Hn0].
  { intros H. inversion H. subst p. unfold working_minutes_between.
    by rewrite (proj2 (Z.geb_le dt dt)) by lia. }
  pose proof (date_of_bounds dt) as Hdt.
  rewrite (add_loop_flat cal Hwf) by lia.
  destruct (forget (add_scan (flat cal (date_of dt) fuel) n dt)) as [p'|] eqn:E;
    [|done].
  intros H. inversion H. subst p'. apply forget_inl in E.
  assert (1 <= Z.of_nat fuel) as Hfuel.
  { destruct fuel; [discriminate E|lia]. }
  pose proof us_per_day_pos as Hday.
  pose proof (flat_chain cal Hwf fuel (date_of dt)) as Hch.
  pose proof (chain_bounds _ _ _ Hch) as [Hhi Hb].
  destruct (add_scan_inl (flat cal (date_of dt) fuel) n dt p
              ((date_of dt + Z.of_nat fuel) * us_per_day))
    as [Hlt Hle]; [lia|nia| |exact E|].
  { eapply Forall_impl; [exact Hb|]. intros [a b]; cbn [fst snd]. lia. }
  pose proof (date_of_bounds p) as Hp.
  assert (date_of dt <= date_of p <= date_of dt + Z.of_nat fuel) as Hd by nia.
  unfold working_minutes_between.
  destruct (Z.geb_spec dt p) as [|_]; [lia|].
  rewrite minutes_from_flat. f_equal.
  assert (0 < n) as Hn1 by lia.
  pose proof (count_minutes_add_scan _ _ _ _ _ _ 0 Hch Hn1 E) as Hc.
  rewrite <- (between_flat cal) in Hc |- *.
  replace (date_of dt + Z.of_nat (Z.to_nat (date_of p - date_of dt + 1)))
    with (date_of p + 1) by lia.
  destruct (Z.eq_dec (date_of p) (date_of dt + Z.of_nat fuel)) as [Heq|Hne].
  - rewrite (between_split cal (date_of dt) (date_of dt + Z.of_nat fuel))
      by lia.
    rewrite count_minutes_app, Hc. rewrite count_minutes_after; [lia|].
    eapply Forall_impl; [apply (between_bounds cal Hwf); lia|].
    intros [a b]; cbn [fst snd]. lia.
  - rewrite (between_split cal (date_of dt) (date_of p + 1)) in Hc by lia.
    rewrite count_minutes_app in Hc. rewrite count_minutes_after in Hc; [lia|].
    eapply Forall_impl; [apply (between_bounds cal Hwf); lia|].
    intros [a b]; cbn [fst snd]. lia.
Qed.

End Counting.

(** X5.  Let every date of the calendar resolve to ordered, non-overlapping
    intervals within the date.  The working minutes counted between a
    datetime and the result of adding [n >= 0] working minutes to it are
    [n]. *)
Theorem add_minutes_then_count (cal : WorkingCalendar) (fuel : nat)
    (dt : datetime) (n : Z) (p : datetime) :
  well_formed cal -> 0 <= n ->
  add_minutes fuel cal dt n = Ret p ->
  working_minutes_between cal dt p = Ret n.
Proof. intros Hwf. by apply add_minutes_counted. Qed.

Lemma add_minutes_then_count_witness :
  well_formed standard_calendar /\ 0 <= 60 /\
  add_minutes 2 standard_calendar monday_1630 60 = Ret tuesday_0830 /\
  working_minutes_between standard_calendar monday_1630 tuesday_0830 = Ret 60.
Proof.
  assert (0 <= 60) as H by lia.
  exact (conj standard_calendar_well_formed (conj H (conj add_minutes_s2
           (add_minutes_then_count standard_calendar 2 monday_1630 60
              tuesday_0830 standard_calendar_well_formed H add_minutes_s2)))).
Defined.

(** ** Counting back *)

Lemma count_minutes_mirror (start end_ : datetime)
    (l : list (datetime * datetime)) : forall total,
  count_minutes start end_ l total
  = count_minutes (- end_) (- start) (map mirror l) total.
Proof.
  induction l as [|[a b] l IH]; intros total;
    cbn [count_minutes map mirror fst snd]; [done|].
  replace (Z.max (- b) (- end_)) with (- Z.min b end_) by lia.
  replace (Z.min (- a) (- start)) with (- Z.max a start) by lia.
  replace (- Z.max a start - - Z.min b end_)
    with (Z.min b end_ - Z.max a start) by lia.
  destruct (Z.ltb_spec (Z.max a start) (Z.min b end_)),
    (Z.ltb_spec (- Z.min b end_) (- Z.max a start)); try lia; apply IH.
Qed.

Lemma count_minutes_rev (start end_ : datetime)
    (l : list (datetime * datetime)) :
  count_minutes start end_ (rev l) 0 = count_minutes start end_ l 0.
Proof.
  induction l as [|iv l IH]; [done|]. cbn [rev].
  rewrite count_minutes_app, IH.
  rewrite (count_minutes_total _ _ [iv]).
  change (iv :: l) with ([iv] ++ l). rewrite count_minutes_app.
  rewrite (count_minutes_total _ _ l (count_minutes start end_ [iv] 0)). lia.
Qed.

Lemma count_minutes_before (start end_ : datetime)
    (l : list (datetime * datetime)) (total : Z) :
  Forall (fun iv => iv.2 <= start) l -> count_minutes start end_ l total = total.
Proof.
  induction 1 as [|[s e] l H _ IH]; cbn [count_minutes]; [done|].
  cbn [snd] in H. destruct (Z.ltb_spec (Z.max s start) (Z.min e end_)); [lia|done].
Qed.

Section CountingBack.
Context (cal : WorkingCalendar) (Hwf : well_formed cal).

Lemma subtract_minutes_counted (fuel : nat) (dt : datetime) (n : Z)
    (q : datetime) :
  0 <= n -> subtract_minutes fuel cal dt n = Ret q ->
  working_minutes_between cal q dt = Ret n.
Proof.
  intros Hn. unfold subtract_minutes.
  destruct (Z.eqb_spec n 0) as [->|Hn0].
  { intros H. inversion H. subst q. unfold working_minutes_between.
    by rewrite (proj2 (Z.geb_le dt dt)) by lia. }
  pose proof (date_of_bounds dt) as Hdt.
  rewrite (subtract_loop_flat cal Hwf) by lia.
  destruct (forget (subtract_scan (flat_back cal (date_of dt) fuel) n dt))
    as [q'|] eqn:E; [|done].
  intros H. inversion H. subst q'. apply forget_inl in E.
  assert (1 <= Z.of_nat fuel) as Hfuel.
  { destruct fuel; [discriminate E|lia]. }
  assert (0 < n) as Hn1 by lia.
  pose proof us_per_day_pos as Hday.
  rewrite (flat_back_rev cal) in E.
  set (lo := date_of dt + 1 - Z.of_nat fuel) in *.
  pose proof (between_chain cal Hwf lo (date_of dt + 1) ltac:(lia)) as Hch.
  pose proof (between_bounds cal Hwf lo (date_of dt + 1) ltac:(lia)) as Hb.
  destruct (subtract_scan_inl (rev (between cal lo (date_of dt + 1))) n dt q
              (lo * us_per_day)) as [Hlo Hlt]; [done|nia| |exact E|].
  { apply Forall_rev. eapply Forall_impl; [exact Hb|].
    intros [a b]; cbn [fst snd]. lia. }
  pose proof (date_of_bounds q) as Hq.
  assert (lo <= date_of q <= date_of dt) as Hd by nia.
  rewrite subtract_scan_mirror in E.
  destruct (add_scan _ n (- dt)) as [p|[? ?]] eqn:Ea; [|done].
  cbn [mirror_result] in E. injection E as Hp.
  assert (p = - q) as -> by lia. clear Hp.
  rewrite map_rev in Ea.
  apply chain_mirror in Hch.
  pose proof (count_minutes_add_scan _ _ _ _ _ _ 0 Hch Hn1 Ea) as Hc.
  rewrite <- map_rev, <- count_minutes_mirror, count_minutes_rev in Hc.
  unfold working_minutes_between.
  destruct (Z.geb_spec q dt) as [|_]; [lia|].
  rewrite (minutes_from_flat cal Hwf). f_equal.
  rewrite <- (between_flat cal).
  replace (date_of q + Z.of_nat (Z.to_nat (date_of dt - date_of q + 1)))
    with (date_of dt + 1) by lia.
  rewrite (between_split cal lo (date_of q)) in Hc by lia.
  rewrite count_minutes_app in Hc.
  rewrite (count_minutes_before _ _ (between cal lo (date_of q))) in Hc; [lia|].
  eapply Forall_impl; [apply (between_bounds cal Hwf); lia|].
  intros [a b]; cbn [fst snd]. lia.
Qed.

End CountingBack.

(** X6.  Let every date of the calendar resolve to ordered, non-overlapping
    intervals within the date.  The working minutes counted between the
    result of subtracting [n >= 0] working minutes from a datetime and
    that datetime are [n]. *)
Theorem subtract_minutes_then_count (cal : WorkingCalendar) (fuel : nat)
    (dt : datetime) (n : Z) (q : datetime) :
  well_formed cal -> 0 <= n ->
  subtract_minutes fuel cal dt n = Ret q ->
  working_minutes_between cal q dt = Ret n.
Proof. intros Hwf. by apply subtract_minutes_counted. Qed.

Lemma subtract_minutes_back :
  subtract_minutes 2 standard_calendar tuesday_0830 60 = Ret monday_1630.
Proof. vm_compute. reflexivity. Qed.

Lemma subtract_minutes_then_count_witness :
  well_formed standard_calendar /\ 0 <= 60 /\
  subtract_minutes 2 standard_calendar tuesday_0830 60 = Ret monday_1630 /\
  working_minutes_between standard_calendar monday_1630 tuesday_0830 = Ret 60.
Proof.
  assert (0 <= 60) as H by lia.
  exact (conj standard_calendar_well_formed (conj H (conj subtract_minutes_back
           (subtract_minutes_then_count standard_calendar 2 tuesday_0830 60
              monday_1630 standard_calendar_well_formed H
              subtract_minutes_back)))).
Defined.

(** ** Sorted periods *)

Section Ordered.
Context {A : Type} (leb : A -> A -> bool).
Hypothesis leb_total : forall x y, leb x y = false -> leb y x = true.

Lemma insert_sorted_ordered (x : A) (l : list A) :
  ordered leb l -> ordered leb (insert_sorted leb x l).
Proof.
  induction l as [|y l IH]; cbn [insert_sorted ordered]; [done|].
  intros [Hy Hl]. destruct (leb x y) eqn:E; cbn [ordered]; [done|].
  split; [|by apply IH].
  destruct l as [|z l]; cbn [insert_sorted]; [by apply leb_total|].
  destruct (leb x z); [by apply leb_total|done].
Qed.

Lemma stable_sort_ordered (l : list A) : ordered leb (stable_sort leb l).
Proof.
  induction l as [|x l IH]; cbn [stable_sort]; [done|].
  by apply insert_sorted_ordered.
Qed.

End Ordered.

Lemma stable_sort_id {A : Type} (leb : A -> A -> bool) (l : list A) :
  ordered leb l -> stable_sort leb l = l.
Proof.
  induction l as [|x l IH]; cbn [stable_sort ordered]; [done|].
  intros [Hx Hl]. rewrite IH by done.
  destruct l as [|y l]; cbn [insert_sorted]; [done|]. by rewrite Hx.
Qed.

Lemma ordered_weaken {A : Type} (leb1 leb2 : A -> A -> bool) (l : list A) :
  (forall x y, leb1 x y = true -> leb2 x y = true) ->
  ordered leb1 l -> ordered leb2 l.
Proof.
  intros Hw. induction l as [|x l IH]; cbn [ordered]; [done|].
  intros [Hx Hl]. split; [|by apply IH]. destruct l; [done|by apply Hw].
Qed.

Lemma by_start_total (p q : period) : by_start p q = false -> by_start q p = true.
Proof.
  unfold by_start, time_leb, time_ltb. destruct p as [[h1 m1] ?], q as [[h2 m2] ?].
  cbn [fst hour minute].
  destruct (Z.ltb_spec h1 h2), (Z.ltb_spec h2 h1), (Z.eqb_spec h1 h2),
    (Z.eqb_spec h2 h1), (Z.ltb_spec m1 m2), (Z.ltb_spec m2 m1);
    cbn; done || lia.
Qed.

Lemma by_start_end_total (p q : period) :
  by_start_end p q = false -> by_start_end q p = true.
Proof.
  unfold by_start_end, time_leb, time_ltb, time_eqb.
  destruct p as [[h1 m1] [h3 m3]], q as [[h2 m2] [h4 m4]].
  cbn [fst snd hour minute].
  destruct (Z.ltb_spec h1 h2), (Z.ltb_spec h2 h1), (Z.eqb_spec h1 h2),
    (Z.eqb_spec h2 h1), (Z.ltb_spec m1 m2), (Z.ltb_spec m2 m1),
    (Z.eqb_spec m1 m2), (Z.eqb_spec m2 m1); cbn; try (done || lia);
  destruct (Z.ltb_spec h3 h4), (Z.ltb_spec h4 h3), (Z.eqb_spec h3 h4),
    (Z.eqb_spec h4 h3), (Z.ltb_spec m3 m4), (Z.ltb_spec m4 m3);
    cbn; done || lia.
Qed.

Lemma by_start_end_by_start (p q : period) :
  by_start_end p q = true -> by_start p q = true.
Proof.
  unfold by_start_end, by_start, time_leb, time_ltb, time_eqb.
  destruct p as [[h1 m1] [h3 m3]], q as [[h2 m2] [h4 m4]].
  cbn [fst snd hour minute].
  destruct (Z.ltb_spec h1 h2), (Z.ltb_spec h2 h1), (Z.eqb_spec h1 h2),
    (Z.eqb_spec h2 h1), (Z.ltb_spec m1 m2), (Z.ltb_spec m2 m1),
    (Z.eqb_spec m1 m2), (Z.eqb_spec m2 m1); cbn; done || lia.
Qed.

Lemma _resolve_rules_ordered (cal : WorkingCalendar) (d : date) :
  ordered by_start (_resolve_rules cal d).
Proof.
  apply (ordered_weaken by_start_end); [apply by_start_end_by_start|].
  unfold _resolve_rules. apply stable_sort_ordered, by_start_end_total.
Qed.

(** X7.  The periods that [periods_for_date] returns are in the order of
    their start times, with or without exceptions on the date. *)
Theorem periods_for_date_sorted (cal : WorkingCalendar) (d : date) :
  match periods_for_date cal d with
  | Ret periods => ordered by_start periods
  | Raise _ => True
  | OutOfFuel => False
  end.
Proof.
  unfold periods_for_date. case_bool_decide as Hex.
  - unfold _resolve_exceptions. destruct Hex as [entries ->].
    destruct (existsb full_removal entries).
    + pose proof (append_working_spec entries []) as H.
      destruct (append_working [] entries) as [ps|e|]; cbn; [|done..].
      apply stable_sort_ordered, by_start_total.
    + pose proof (append_working_spec entries (_resolve_rules cal d)) as H.
      destruct (append_working _ entries) as [ps|e|]; cbn; [|done..].
      apply stable_sort_ordered, by_start_total.
  - apply _resolve_rules_ordered.
Qed.

Lemma append_working_ignored (entries : list entry) (periods : list period) :
  Forall ignored_entry entries -> append_working periods entries = Ret periods.
Proof.
  induction 1 as [|en entries [Hw _] _ IH]; cbn [append_working]; [done|].
  by rewrite Hw.
Qed.

Lemma existsb_full_removal_ignored (entries : list entry) :
  Forall ignored_entry entries -> existsb full_removal entries = false.
Proof.
  induction 1 as [|en entries [_ Hno] _ IH]; [done|].
  cbn [existsb]. by rewrite Hno.
Qed.

(** X8.  A removal with a time range is not applied: when no entry of the
    date's exception adds a period or clears the date, the date keeps the
    periods of the weekly rules. *)
Theorem timed_removal_ignored (cal : WorkingCalendar) (d : date)
    (entries : list entry) :
  _exceptions cal !! d = Some entries ->
  Forall ignored_entry entries ->
  periods_for_date cal d = Ret (_resolve_rules cal d).
Proof.
  intros Hd Hen. unfold periods_for_date, _resolve_exceptions. rewrite Hd.
  rewrite bool_decide_eq_true_2 by done.
  replace (existsb full_removal entries) with false.
  - rewrite append_working_ignored by done. cbn. f_equal.
    apply stable_sort_id, _resolve_rules_ordered.
  - symmetry. by apply existsb_full_removal_ignored.
Qed.

Lemma timed_removal_ignored_witness :
  _exceptions breakdown_calendar !! epoch_date
    = Some [mk_entry (Some false) (Some (mk_time 10 0)) (Some (mk_time 12 0))] /\
  Forall ignored_entry
    [mk_entry (Some false) (Some (mk_time 10 0)) (Some (mk_time 12 0))] /\
  periods_for_date breakdown_calendar epoch_date
    = Ret (_resolve_rules breakdown_calendar epoch_date).
Proof.
  assert (_exceptions breakdown_calendar !! epoch_date
    = Some [mk_entry (Some false) (Some (mk_time 10 0)) (Some (mk_time 12 0))])
    as H1 by (vm_compute; reflexivity).
  assert (Forall ignored_entry
    [mk_entry (Some false) (Some (mk_time 10 0)) (Some (mk_time 12 0))]) as H2.
  { repeat constructor. }
  exact (conj H1 (conj H2 (timed_removal_ignored _ _ _ H1 H2))).
Defined.

(** ** The working intervals of a range *)

Lemma clamp_intervals_chain (start end_ : datetime)
    (l : list (datetime * datetime)) : forall lo hi x,
  chain lo l hi -> x <= end_ -> x <= Z.max lo start ->
  chain x (clamp_intervals start end_ l) end_ /\
  Forall (fun iv => iv.1 < iv.2) (clamp_intervals start end_ l).
Proof.
  unfold clamp_intervals.
  induction l as [|[a b] l IH]; intros lo hi x Hch Hx Hlo;
    cbn [map List.filter fst snd chain] in *; [done|].
  destruct Hch as (Hla & Hab & Hch).
  destruct (Z.ltb_spec (Z.max a start) (Z.min b end_)) as [Hlt|Hge].
  - destruct (IH b hi (Z.min b end_) Hch ltac:(lia) ltac:(lia)) as [IH1 IH2].
    cbn [chain]. split; [|by constructor]. repeat split; [lia|lia|done].
  - apply (IH b hi); [done|done|lia].
Qed.

Section Range.
Context (cal : WorkingCalendar) (Hwf : well_formed cal).

Lemma intervals_from_flat (n : nat) (start end_ : datetime) : forall d,
  intervals_from n cal start end_ d
  = Ret (clamp_intervals start end_ (flat cal d n)).
Proof.
  induction n as [|n IH]; intros d; cbn [intervals_from flat]; [done|].
  rewrite (day_intervals_Ret cal Hwf). cbn. rewrite IH. cbn. f_equal.
  unfold clamp_intervals. by rewrite map_app, List.filter_app.
Qed.

Lemma working_intervals_ordered (start end_ : datetime) :
  start <= end_ ->
  exists intervals,
    working_intervals_in_range cal start end_ = Ret intervals /\
    chain start intervals end_ /\
    Forall (fun iv => iv.1 < iv.2) intervals.
Proof.
  intros Hse. unfold working_intervals_in_range. rewrite intervals_from_flat.
  eexists. split; [done|].
  apply (clamp_intervals_chain _ _ _ (date_of start * us_per_day)
           ((date_of start
             + Z.of_nat (Z.to_nat (date_of end_ - date_of start + 1)))
            * us_per_day));
    [by apply flat_chain|lia|lia].
Qed.

Lemma elem_of_flat (n : nat) (iv : datetime * datetime) : forall d,
  iv ∈ flat cal d n -> exists d', iv ∈ day_intervals cal d'.
Proof.
  induction n as [|n IH]; intros d; cbn [flat].
  { intros H. by apply elem_of_nil in H. }
  intros H. apply elem_of_app in H as [H|H]; [by exists d|by apply (IH (d + 1))].
Qed.

End Range.

(** X9.  Let every date of the calendar resolve to ordered, non-overlapping
    intervals within the date.  For a range that is not reversed,
    [working_intervals_in_range] returns; the intervals it yields are not
    empty, lie within the range, and are in ascending order without
    overlap. *)
Theorem working_intervals_in_range_ordered (cal : WorkingCalendar)
    (start end_ : datetime) :
  well_formed cal -> start <= end_ ->
  exists intervals,
    working_intervals_in_range cal start end_ = Ret intervals /\
    chain start intervals end_ /\
    Forall (fun iv => iv.1 < iv.2) intervals.
Proof. intros Hwf. by apply working_intervals_ordered. Qed.

Lemma working_intervals_in_range_ordered_witness :
  well_formed standard_calendar /\ monday_1600 <= tuesday_0830 /\
  exists intervals,
    working_intervals_in_range standard_calendar monday_1600 tuesday_0830
      = Ret intervals /\
    chain monday_1600 intervals tuesday_0830 /\
    Forall (fun iv => iv.1 < iv.2) intervals.
Proof.
  assert (monday_1600 <= tuesday_0830) as H by (vm_compute; discriminate).
  exact (conj standard_calendar_well_formed
           (conj H (working_intervals_in_range_ordered standard_calendar
                      monday_1600 tuesday_0830 standard_calendar_well_formed H))).
Defined.

(** ** Where the walks of the calendar end *)

Lemma add_scan_lands (l : list (datetime * datetime)) : forall r c p,
  0 < r -> add_scan l r c = inl p ->
  exists s e, (s, e) ∈ l /\ s < p <= e /\ c < p.
Proof.
  induction l as [|[s e] l IH]; intros r c p Hr; cbn [add_scan]; [done|].
  destruct (Z.leb_spec e c) as [Hec|Hec].
  { intros H. apply IH in H as (s' & e' & Hin & Hp); [|done].
    exists s', e'. split; [by right|done]. }
  destruct (Z.leb_spec (int_total_seconds (e - Z.max s c) / 60) 0) as [Ha|Ha].
  { intros H. apply IH in H as (s' & e' & Hin & Hp); [|done].
    exists s', e'. split; [by right|done]. }
  assert (Z.max s c < e) as Hlt.
  { destruct (Z.le_gt_cases e (Z.max s c)) as [Hge|]; [|done].
    pose proof (available_mono (e - Z.max s c) 0 ltac:(lia)) as Hm.
    change (int_total_seconds 0 / 60) with 0 in Hm. lia. }
  pose proof (available_le (e - Z.max s c) ltac:(lia)) as Hle.
  pose proof us_per_minute_pos as Hmin.
  destruct (Z.leb_spec r (int_total_seconds (e - Z.max s c) / 60)) as [Hra|Hra].
  - intros H. inversion H as [Hp]. exists s, e. split; [by left|].
    unfold timedelta_minutes. nia.
  - intros H. apply IH in H as (s' & e' & Hin & Hp & Hcp); [|lia].
    exists s', e'. split; [by right|]. split; [done|lia].
Qed.

Lemma subtract_scan_lands (l : list (datetime * datetime)) : forall r c q,
  0 < r -> subtract_scan l r c = inl q ->
  exists s e, (s, e) ∈ l /\ s <= q < e /\ q < c.
Proof.
  intros r c q Hr H. rewrite subtract_scan_mirror in H.
  destruct (add_scan (map mirror l) r (- c)) as [p|[? ?]] eqn:E; [|done].
  cbn [mirror_result] in H. inversion H; subst q.
  apply add_scan_lands in E as (s & e & Hin & Hp & Hc); [|done].
  apply list_elem_of_fmap in Hin as ([a b] & Heq & Hin).
  unfold mirror in Heq. cbn [fst snd] in Heq. inversion Heq; subst s e.
  exists a, b. split; [done|]. lia.
Qed.

Section Lands.
Context (cal : WorkingCalendar) (Hwf : well_formed cal).

Lemma elem_of_day_intervals (d : date) (s e : datetime) :
  (s, e) ∈ day_intervals cal d ->
  exists intervals, _datetime_intervals_for_date cal d = Ret intervals /\
                    (s, e) ∈ intervals.
Proof. intros H. exists (day_intervals cal d). by rewrite (day_intervals_Ret cal Hwf). Qed.

Lemma add_minutes_lands_after (fuel : nat) (dt : datetime) (n : Z) (p : datetime) :
  0 < n -> add_minutes fuel cal dt n = Ret p ->
  dt < p /\ after_working_time cal p.
Proof.
  intros Hn. unfold add_minutes.
  destruct (Z.eqb_spec n 0) as [|_]; [lia|].
  pose proof (date_of_bounds dt) as Hdt.
  rewrite (add_loop_flat cal Hwf) by lia.
  destruct (forget (add_scan (flat cal (date_of dt) fuel) n dt)) as [p'|] eqn:E;
    [|done].
  intros H. inversion H. subst p'. apply forget_inl in E.
  apply add_scan_lands in E as (s & e & Hin & Hp & Hc); [|done].
  split; [done|].
  apply elem_of_flat in Hin as (d' & Hin).
  apply elem_of_day_intervals in Hin as (ivs & Hivs & Hin).
  by exists d', ivs, s, e.
Qed.

Lemma elem_of_flat_back (n : nat) (iv : datetime * datetime) : forall d,
  iv ∈ flat_back cal d n -> exists d', iv ∈ day_intervals cal d'.
Proof.
  induction n as [|n IH]; intros d; cbn [flat_back].
  { intros H. by apply elem_of_nil in H. }
  intros H. apply elem_of_app in H as [H|H]; [|by apply (IH (d - 1))].
  exists d. apply list_elem_of_In, in_rev. by apply list_elem_of_In in H.
Qed.

Lemma subtract_minutes_lands_in (fuel : nat) (dt : datetime) (n : Z)
    (q : datetime) :
  0 < n -> subtract_minutes fuel cal dt n = Ret q ->
  q < dt /\ in_working_time cal q.
Proof.
  intros Hn. unfold subtract_minutes.
  destruct (Z.eqb_spec n 0) as [|_]; [lia|].
  pose proof (date_of_bounds dt) as Hdt.
  rewrite (subtract_loop_flat cal Hwf) by lia.
  destruct (forget (subtract_scan (flat_back cal (date_of dt) fuel) n dt))
    as [q'|] eqn:E; [|done].
  intros H. inversion H. subst q'. apply forget_inl in E.
  apply subtract_scan_lands in E as (s & e & Hin & Hq & Hc); [|done].
  split; [done|].
  apply elem_of_flat_back in Hin as (d' & Hin).
  apply elem_of_day_intervals in Hin as (ivs & Hivs & Hin).
  by exists d', ivs, s, e.
Qed.

End Lands.

(** X10.  Let every date of the calendar resolve to ordered, non-overlapping
    intervals within the date, and [n > 0].  What [add_minutes] returns
    is later than its start and lies in a working interval or at its
    end; what [subtract_minutes] returns is earlier than its end and
    lies in a working interval, possibly at its start. *)
Theorem walks_land_in_working_time (cal : WorkingCalendar) (fuel : nat)
    (dt : datetime) (n : Z) :
  well_formed cal -> 0 < n ->
  (forall p, add_minutes fuel cal dt n = Ret p ->
             dt < p /\ after_working_time cal p) /\
  (forall q, subtract_minutes fuel cal dt n = Ret q ->
             q < dt /\ in_working_time cal q).
Proof.
  intros Hwf Hn. split.
  - intros p. by apply add_minutes_lands_after.
  - intros q. by apply subtract_minutes_lands_in.
Qed.

Lemma walks_land_in_working_time_witness :
  well_formed standard_calendar /\ 0 < 60 /\
  (forall p, add_minutes 2 standard_calendar monday_1630 60 = Ret p ->
             monday_1630 < p /\ after_working_time standard_calendar p) /\
  (forall q, subtract_minutes 2 standard_calendar monday_1630 60 = Ret q ->
             q < monday_1630 /\ in_working_time standard_calendar q).
Proof.
  assert (0 < 60) as H by lia.
  exact (conj standard_calendar_well_formed
           (conj H (walks_land_in_working_time standard_calendar 2 monday_1630 60
                      standard_calendar_well_formed H))).
Defined.

(** ** [add_minutes] returns *)

Lemma add_scan_remaining (l : list (datetime * datetime)) : forall r c r' c',
  0 < r -> add_scan l r c = inr (r', c') -> 0 < r' <= r.
Proof.
  induction l as [|[s e] l IH]; intros r c r' c' Hr; cbn [add_scan].
  { intros H. inversion H. lia. }
  destruct (e <=? c); [by apply IH|].
  destruct (Z.leb_spec (int_total_seconds (e - Z.max s c) / 60) 0) as [Ha|Ha];
    [by apply IH|].
  destruct (Z.leb_spec r (int_total_seconds (e - Z.max s c) / 60)) as [Hra|Hra];
    [done|].
  intros Hs. apply IH in Hs; lia.
Qed.

Lemma add_scan_progress (l : list (datetime * datetime)) : forall r c p0 r' c',
  0 < r -> add_scan l 1 c = inl p0 -> add_scan l r c = inr (r', c') -> r' < r.
Proof.
  induction l as [|[s e] l IH]; intros r c p0 r' c' Hr; cbn [add_scan]; [done|].
  destruct (e <=? c); [by apply IH|].
  destruct (Z.leb_spec (int_total_seconds (e - Z.max s c) / 60) 0) as [Ha|Ha];
    [by apply IH|].
  destruct (Z.leb_spec r (int_total_seconds (e - Z.max s c) / 60)) as [Hra|Hra];
    [done|].
  intros _ Hs. apply add_scan_remaining in Hs; lia.
Qed.

Lemma add_loop_done (fuel : nat) (cal : WorkingCalendar) (r : Z) (d : date)
    (c : datetime) :
  r <= 0 -> add_loop fuel cal r d c = Ret c.
Proof.
  intros Hr. destruct fuel; cbn [add_loop];
    by destruct (Z.gtb_spec r 0); [lia|].
Qed.

Section Returns.
Context (cal : WorkingCalendar) (Hres : resolves cal).

(** From the midnight of [d], within [k + 1] dates the walk returns or
    has fewer minutes left, when the date [d + k] has a working
    minute. *)
Lemma add_loop_block (k : nat) : forall (d : date) (r : Z),
  0 < r -> offers_minute cal (d + Z.of_nat k) ->
  (exists p, forall fuel, (k + 1 <= fuel)%nat ->
     add_loop fuel cal r d (combine d midnight) = Ret p) \/
  (exists r' j, 0 < r' < r /\ (1 <= j <= k + 1)%nat /\
     forall fuel, add_loop (j + fuel) cal r d (combine d midnight)
                  = add_loop fuel cal r' (d + Z.of_nat j)
                             (combine (d + Z.of_nat j) midnight)).
Proof.
  induction k as [|k IH]; intros d r Hr Hoff.
  - destruct Hoff as (ivs & p0 & Hivs & H1).
    replace (d + Z.of_nat 0) with d in * by lia.
    destruct (add_scan ivs r (combine d midnight)) as [p|[r' c']] eqn:E.
    + left. exists p. intros fuel Hfuel. destruct fuel as [|fuel]; [lia|].
      cbn [add_loop]. destruct (Z.gtb_spec r 0); [|lia].
      rewrite Hivs. cbn. by rewrite E.
    + right. exists r', 1%nat.
      pose proof (add_scan_remaining _ _ _ _ _ Hr E).
      pose proof (add_scan_progress _ _ _ _ _ _ Hr H1 E).
      split; [lia|]. split; [lia|]. intros fuel.
      cbn [Nat.add add_loop]. destruct (Z.gtb_spec r 0); [|lia].
      rewrite Hivs. cbn. rewrite E. by replace (d + Z.of_nat 1) with (d + 1) by lia.
  - destruct (Hres d) as (ivs & Hivs).
    destruct (add_scan ivs r (combine d midnight)) as [p|[r' c']] eqn:E.
    + left. exists p. intros fuel Hfuel. destruct fuel as [|fuel]; [lia|].
      cbn [add_loop]. destruct (Z.gtb_spec r 0); [|lia].
      rewrite Hivs. cbn. by rewrite E.
    + pose proof (add_scan_remaining _ _ _ _ _ Hr E) as Hr'.
      assert (forall fuel, add_loop (S fuel) cal r d (combine d midnight)
                = add_loop fuel cal r' (d + 1) (combine (d + 1) midnight)) as Hstep.
      { intros fuel. cbn [add_loop]. destruct (Z.gtb_spec r 0); [|lia].
        rewrite Hivs. cbn. by rewrite E. }
      destruct (Z.eq_dec r' r) as [->|Hne].
      * destruct (IH (d + 1) r Hr) as [(p & Hp)|(r'' & j & Hr'' & Hj & Hrun)].
        { by replace (d + 1 + Z.of_nat k) with (d + Z.of_nat (S k)) by lia. }
        -- left. exists p. intros fuel Hfuel. destruct fuel as [|fuel]; [lia|].
           rewrite Hstep. apply Hp. lia.
        -- right. exists r'', (S j). split; [done|]. split; [lia|].
           intros fuel. cbn [Nat.add]. rewrite Hstep, Hrun.
           by replace (d + 1 + Z.of_nat j) with (d + Z.of_nat (S j)) by lia.
      * right. exists r', 1%nat. split; [lia|]. split; [lia|].
        intros fuel. cbn [Nat.add]. rewrite Hstep.
        by replace (d + Z.of_nat 1) with (d + 1) by lia.
Qed.

Context (K : nat).
Hypothesis Hoffers :
  forall d, exists k, (k < K)%nat /\ offers_minute cal (d + Z.of_nat k).

Lemma add_loop_returns (m : nat) : forall (r : Z) (d : date) (fuel : nat),
  r <= Z.of_nat m -> (K * m <= fuel)%nat ->
  exists p, add_loop fuel cal r d (combine d midnight) = Ret p.
Proof.
  induction m as [|m IH]; intros r d fuel Hr Hfuel.
  { eexists. apply add_loop_done. lia. }
  destruct (Z.le_gt_cases r 0) as [Hle|Hpos].
  { eexists. by apply add_loop_done. }
  destruct (Hoffers d) as (k & Hk & Hoff).
  destruct (add_loop_block k d r Hpos Hoff) as [(p & Hp)|(r' & j & Hr' & Hj & Hrun)].
  - exists p. apply Hp. nia.
  - replace fuel with (j + (fuel - j))%nat by nia. rewrite Hrun.
    apply IH; [lia|nia].
Qed.

Lemma add_minutes_total (dt : datetime) (n : Z) (fuel : nat) :
  0 <= n -> (K * Z.to_nat n + 1 <= fuel)%nat ->
  exists p, add_minutes fuel cal dt n = Ret p.
Proof.
  intros Hn Hfuel. unfold add_minutes.
  destruct (Z.eqb_spec n 0) as [|Hn0]; [by eexists|].
  destruct fuel as [|fuel]; [lia|]. cbn [add_loop].
  destruct (Z.gtb_spec n 0); [|lia].
  destruct (Hres (date_of dt)) as (ivs & ->). cbn.
  destruct (add_scan ivs n dt) as [p|[r' c']] eqn:E; [by eexists|].
  apply add_scan_remaining in E; [|lia].
  apply (add_loop_returns (Z.to_nat n)); [lia|lia].
Qed.

End Returns.

(** X11.  Let every date of the calendar resolve, and let every [K]
    consecutive dates hold a date with a working minute.  Then
    [add_minutes] returns for every start and every [n >= 0]: the loop
    over the dates ends within [K * n + 1] dates. *)
Theorem add_minutes_returns (cal : WorkingCalendar) (K : nat)
    (dt : datetime) (n : Z) (fuel : nat) :
  resolves cal ->
  (forall d, exists k, (k < K)%nat /\ offers_minute cal (d + Z.of_nat k)) ->
  0 <= n -> (K * Z.to_nat n + 1 <= fuel)%nat ->
  exists p, add_minutes fuel cal dt n = Ret p.
Proof. intros Hres Hoff. by apply add_minutes_total. Qed.

Lemma standard_calendar_resolves : resolves standard_calendar.
Proof. intros d. eexists. apply standard_intervals. Qed.

Lemma standard_offers_minute (d : date) :
  (weekday d <? 5) = true -> offers_minute standard_calendar d.
Proof.
  intros Hd. eexists. exists (combine d (mk_time 8 1)).
  split; [apply standard_intervals|]. rewrite Hd. cbn [add_scan].
  unfold combine, midnight, us_per_day, us_per_second. cbn [hour minute].
  destruct (Z.leb_spec (d * (86400 * 1000000) + (17 * 3600 + 0 * 60) * 1000000)
              (d * (86400 * 1000000) + (0 * 3600 + 0 * 60) * 1000000)); [lia|].
  rewrite Z.max_l by lia.
  replace (d * (86400 * 1000000) + (17 * 3600 + 0 * 60) * 1000000
           - (d * (86400 * 1000000) + (8 * 3600 + 0 * 60) * 1000000))
    with 32400000000 by lia.
  cbn. f_equal. unfold timedelta_minutes, us_per_minute, us_per_second. lia.
Qed.

Lemma standard_calendar_offers (d : date) :
  exists k, (k < 3)%nat /\ offers_minute standard_calendar (d + Z.of_nat k).
Proof.
  assert ((weekday d <? 5) = true \/ (weekday (d + 1) <? 5) = true
          \/ (weekday (d + 2) <? 5) = true) as H.
  { unfold weekday.
    destruct (Z.ltb_spec ((d + 6) mod 7) 5); [by left|].
    destruct (Z.ltb_spec ((d + 1 + 6) mod 7) 5); [by right; left|].
    destruct (Z.ltb_spec ((d + 2 + 6) mod 7) 5); [by right; right|].
    exfalso. Z.div_mod_to_equations. lia. }
  destruct H as [H|[H|H]].
  - exists 0%nat. split; [lia|]. replace (d + Z.of_nat 0) with d by lia.
    by apply standard_offers_minute.
  - exists 1%nat. split; [lia|]. by apply standard_offers_minute.
  - exists 2%nat. split; [lia|]. by apply standard_offers_minute.
Qed.

Lemma add_minutes_returns_witness :
  resolves standard_calendar /\
  (forall d, exists k, (k < 3)%nat /\
                       offers_minute standard_calendar (d + Z.of_nat k)) /\
  0 <= 60 /\ (3 * Z.to_nat 60 + 1 <= 181)%nat /\
  exists p, add_minutes 181 standard_calendar monday_1630 60 = Ret p.
Proof.
  assert (0 <= 60) as H1 by lia.
  assert (3 * Z.to_nat 60 + 1 <= 181)%nat as H2 by (cbn; lia).
  exact (conj standard_calendar_resolves (conj standard_calendar_offers
           (conj H1 (conj H2
              (add_minutes_returns standard_calendar 3 monday_1630 60 181
                 standard_calendar_resolves standard_calendar_offers H1 H2))))).
Defined.

(** ** Materialising the calendar *)

Lemma fill_intervals_spec (resolution : TimeResolution) (epoch : datetime)
    (bits_offset : Z) (intervals : list (datetime * datetime)) :
  forall bits bits',
  fill_intervals resolution epoch bits_offset intervals bits = Ret bits' ->
  length bits' = length bits /\
  forall k : nat, (k < length bits)%nat ->
    bits' !! k = if working_unit resolution epoch intervals
                                  (bits_offset + Z.of_nat k)
                 then Some 1 else bits !! k.
Proof.
  induction intervals as [|[s e] l IH]; intros bits bits';
    cbn [fill_intervals working_unit existsb fst snd].
  { intros H. by inversion H. }
  destruct (to_int resolution s epoch) as [a| |]; cbn; [|done..].
  destruct (to_int resolution e epoch) as [b| |]; cbn; [|done..].
  destruct (set_range_spec bits (Z.max 0 (a - bits_offset))
              (Z.min (len bits) (b - bits_offset)) 1) as (bits1 & -> & Hlen & H1);
    [lia|].
  intros Hf. apply IH in Hf as [Hlen' Hf]. split; [congruence|].
  intros k Hk. rewrite Hf by lia. rewrite H1.
  fold (working_unit resolution epoch l (bits_offset + Z.of_nat k)).
  unfold len in *.
  destruct (working_unit resolution epoch l (bits_offset + Z.of_nat k));
    [by rewrite orb_true_r|]. rewrite orb_false_r.
  destruct (Z.leb_spec a (bits_offset + Z.of_nat k)),
    (Z.ltb_spec (bits_offset + Z.of_nat k) b); cbn; case_decide; done || lia.
Qed.

Lemma _fill_bits_from_calendar_length (bits : list Z) (bits_offset : Z)
    (cal : WorkingCalendar) (resolution : TimeResolution) (epoch : datetime)
    (bits' : list Z) :
  _fill_bits_from_calendar bits bits_offset cal resolution epoch = Ret bits' ->
  length bits' = length bits.
Proof.
  unfold _fill_bits_from_calendar.
  destruct (working_intervals_in_range cal _ _) as [ivs| |]; cbn; [|done..].
  intros H. by apply fill_intervals_spec in H as [? _].
Qed.

Lemma bytearray_Ret (size : Z) (bits : list Z) :
  bytearray size = Ret bits -> 0 <= size /\ bits = replicate (Z.to_nat size) 0.
Proof.
  unfold bytearray. destruct (Z.ltb_spec size 0) as [|Hs]; [done|].
  intros Hb. inversion Hb. split; [lia|done].
Qed.

(** X12.  The bitmap that [from_calendar] returns starts at the integer of
    [horizon_start] and ends at the integer of [horizon_end], holds no
    allocation, and has bit 1 exactly at the units that lie in a working
    interval of the calendar between the two. *)
Theorem from_calendar_bits (cal : WorkingCalendar)
    (horizon_start horizon_end_ epoch : datetime) (resolution : TimeResolution)
    (bm : OccupancyBitmap) :
  from_calendar cal horizon_start horizon_end_ epoch resolution = Ret bm ->
  exists begin_int end_int intervals,
    to_int resolution horizon_start epoch = Ret begin_int /\
    to_int resolution horizon_end_ epoch = Ret end_int /\
    working_intervals_in_range cal (to_datetime resolution begin_int epoch)
      (to_datetime resolution end_int epoch) = Ret intervals /\
    begin_int <= end_int /\
    horizon_begin bm = begin_int /\ horizon_end bm = end_int /\
    _allocations bm = [] /\ resource_id bm = pattern_id cal /\
    forall j, begin_int <= j < end_int ->
      unit_bit bm j = Some (if working_unit resolution epoch intervals j
                            then 1 else 0).
Proof.
  unfold from_calendar.
  destruct (to_int resolution horizon_start epoch) as [a| |]; cbn; [|done..].
  destruct (to_int resolution horizon_end_ epoch) as [b| |]; cbn; [|done..].
  destruct (bytearray (b - a)) as [bits0| |] eqn:Eb; cbn; [|done..].
  apply bytearray_Ret in Eb as [Hab ->].
  unfold _fill_bits_from_calendar.
  assert (len (replicate (Z.to_nat (b - a)) 0) = b - a) as Hlen0.
  { unfold len. rewrite length_replicate. lia. }
  rewrite Hlen0. replace (a + (b - a)) with b by lia.
  destruct (working_intervals_in_range cal _ _) as [ivs| |] eqn:Ew; cbn;
    [|done..].
  destruct (fill_intervals resolution epoch a ivs _) as [bits'| |] eqn:Ef;
    cbn; [|done..].
  intros H. inversion H. subst bm. clear H.
  apply fill_intervals_spec in Ef as [Hlen Hbits].
  rewrite length_replicate in Hlen, Hbits.
  exists a, b, ivs. repeat split; try done; [lia| |].
  { unfold horizon_end, len. cbn. lia. }
  intros j Hj. unfold unit_bit, bit_at. cbn.
  destruct (Z.ltb_spec j a); [lia|].
  rewrite Hbits by lia. replace (a + Z.of_nat (Z.to_nat (j - a))) with j by lia.
  destruct (working_unit resolution epoch ivs j); [done|].
  apply lookup_replicate_2. lia.
Qed.

Lemma from_calendar_bits_witness :
  from_calendar standard_calendar EPOCH (EPOCH + 720 * us_per_minute) EPOCH HOUR
    = Ret morning /\
  exists begin_int end_int intervals,
    to_int HOUR EPOCH EPOCH = Ret begin_int /\
    to_int HOUR (EPOCH + 720 * us_per_minute) EPOCH = Ret end_int /\
    working_intervals_in_range standard_calendar (to_datetime HOUR begin_int EPOCH)
      (to_datetime HOUR end_int EPOCH) = Ret intervals /\
    begin_int <= end_int /\
    horizon_begin morning = begin_int /\ horizon_end morning = end_int /\
    _allocations morning = [] /\ resource_id morning = pattern_id standard_calendar /\
    forall j, begin_int <= j < end_int ->
      unit_bit morning j = Some (if working_unit HOUR EPOCH intervals j
                                 then 1 else 0).
Proof.
  split; [exact morning_bitmap_morning|].
  exact (from_calendar_bits _ _ _ _ _ _ morning_bitmap_morning).
Defined.

Lemma _extend_to_horizon_end (bm : OccupancyBitmap) (needed_end : Z)
    (bm' : OccupancyBitmap) :
  _extend_to bm needed_end = (Ret (), bm') ->
  needed_end <= horizon_end bm' /\
  horizon_end bm' =
    if needed_end <=? horizon_end bm then horizon_end bm
    else Z.max needed_end
           (horizon_end bm + 7 * 24 * 60 * 60 / unit_seconds (_resolution bm)).
Proof.
  unfold _extend_to. destruct (Z.leb_spec needed_end (horizon_end bm)) as [Hle|Hgt].
  { intros H. inversion H. subst bm'. split; [lia|done]. }
  destruct (unit_seconds (_resolution bm) =? 0); [done|].
  change (_DEFAULT_EXTEND_DAYS * 24 * 60 * 60) with (7 * 24 * 60 * 60).
  set (new_end := Z.max needed_end _).
  destruct (bytearray (new_end - horizon_end bm)) as [bits0| |] eqn:Eb;
    cbn; [|done..].
  apply bytearray_Ret in Eb as [Hsize ->].
  destruct (_fill_bits_from_calendar _ _ _ _ _) as [new_bits| |] eqn:Ef; [|done..].
  apply _fill_bits_from_calendar_length in Ef. rewrite length_replicate in Ef.
  intros H. inversion H. subst bm'.
  assert (horizon_end (set_bits bm (bits bm ++ new_bits)) = new_end) as ->.
  { unfold horizon_end, len in *. cbn. rewrite length_app. lia. }
  split; [lia|done].
Qed.

(** X13.  When [_extend_to] returns, the horizon covers [needed_end]; a horizon
    that was too short has grown by at least seven days of units, and
    the bits it had and the allocations are as before. *)
Theorem extend_to_covers (bm : OccupancyBitmap) (needed_end : Z)
    (bm' : OccupancyBitmap) :
  _extend_to bm needed_end = (Ret (), bm') ->
  extends bm bm' /\ needed_end <= horizon_end bm' /\
  horizon_end bm' =
    if needed_end <=? horizon_end bm then horizon_end bm
    else Z.max needed_end
           (horizon_end bm + 7 * 24 * 60 * 60 / unit_seconds (_resolution bm)).
Proof.
  intros H. split; [by eapply _extend_to_extends|].
  by apply _extend_to_horizon_end.
Qed.

Lemma extend_to_covers_witness :
  _extend_to morning 13 = (Ret (), (_extend_to morning 13).2) /\
  extends morning (_extend_to morning 13).2 /\
  13 <= horizon_end (_extend_to morning 13).2 /\
  horizon_end (_extend_to morning 13).2 =
    if 13 <=? horizon_end morning then horizon_end morning
    else Z.max 13
           (horizon_end morning
            + 7 * 24 * 60 * 60 / unit_seconds (_resolution morning)).
Proof.
  assert (_extend_to morning 13 = (Ret (), (_extend_to morning 13).2)) as H
    by (vm_compute; reflexivity).
  exact (conj H (extend_to_covers _ _ _ H)).
Defined.

(** ** The records that the walks return *)

Lemma scan_run_bounds (n : nat) : forall (bits : list Z) (hb w i : Z) rs rl s,
  0 < w -> run_position_ok hb w i rs rl ->
  scan_run n bits hb w i rs rl = Ret (Some s) ->
  default (i + hb) rs <= s /\ s + w <= i + hb + Z.of_nat n.
Proof.
  induction n as [|n IH]; intros bits hb w i rs rl s Hw Hinv H; [done|].
  cbn [scan_run] in H.
  destruct (getitem bits i) as [b| |]; cbn in H; [|done..].
  destruct (b =? 1).
  - destruct rs as [s0|]; cbn [from_option id].
    + destruct Hinv as (Hrl & Hlt).
      destruct (Z.geb_spec (rl + 1) w) as [Hge|Hlt'].
      * inversion H; subst s0. lia.
      * apply IH in H; [cbn [from_option id] in H; lia|done|]. cbn. lia.
    + destruct (Z.geb_spec 1 w) as [Hge|Hlt'].
      * inversion H; subst s. lia.
      * apply IH in H; [cbn [from_option id] in H; lia|done|]. cbn. lia.
  - apply IH in H; [|done|done]. cbn [from_option id] in H.
    destruct rs as [s0|]; cbn [from_option id]; [|lia].
    destruct Hinv as (Hrl & Hlt). lia.
Qed.

Lemma non_splittable_loop_bounds (fuel : nat) :
  forall (bm : OccupancyBitmap) oid op w deadline pos r bm',
  0 < w ->
  non_splittable_loop fuel bm oid op w deadline pos = (Ret r, bm') ->
  pos <= start r /\ finish r <= clip_end bm' deadline.
Proof.
  induction fuel as [|fuel IH]; intros bm oid op w deadline pos r bm' Hw H;
    [done|].
  cbn [non_splittable_loop] in H.
  set (ext1 := if pos + w >? horizon_end bm then _ else _) in H.
  assert (ext1.1 = Ret () -> pos + w <= horizon_end ext1.2) as Hx1.
  { subst ext1. destruct (Z.gtb_spec (pos + w) (horizon_end bm)); [|done].
    destruct (reached deadline pos); [done|].
    destruct (_extend_to _ _) as [[[]| |] b] eqn:E; cbn; [|done..].
    intros _. apply _extend_to_horizon_end in E. lia. }
  destruct ext1 as [[[]| |] bm1]; cbn in Hx1; [|done..].
  specialize (Hx1 eq_refl).
  destruct (scan_run _ _ _ _ _ _ _) as [[s|]| |] eqn:Escan in H; [| |done..].
  - inversion H; subst r bm'. cbn [start finish].
    apply scan_run_bounds in Escan; [|done|done]. cbn [from_option id] in Escan. lia.
  - destruct (reached deadline (clip_end bm1 deadline)) eqn:Er; [done|].
    apply clip_end_not_reached in Er.
    set (ext2 := if pos + w >? horizon_end bm1 then _ else _) in H.
    destruct ext2 as [[[]| |] bm2]; [|done..].
    apply IH in H; [|done]. lia.
Qed.

Lemma run_extent_bounds (n : nat) : forall (bits : list Z) (hb run_end re : Z),
  run_extent n bits hb run_end = Ret re ->
  run_end <= re <= run_end + Z.of_nat n.
Proof.
  induction n as [|n IH]; intros bits hb run_end re H; cbn [run_extent] in H.
  { inversion H. lia. }
  destruct (getitem bits (run_end - hb)) as [b| |]; cbn in H; [|done..].
  destruct (b =? 1); [apply IH in H; lia|inversion H; lia].
Qed.

Lemma run_extent_first (n : nat) (bits : list Z) (hb run_end re : Z) :
  getitem bits (run_end - hb) = Ret 1 ->
  run_extent (S n) bits hb run_end = Ret re -> run_end + 1 <= re.
Proof.
  intros Hg. cbn [run_extent]. rewrite Hg. cbn.
  intros H. apply run_extent_bounds in H. lia.
Qed.

Lemma span_units_app (l1 l2 : list span) :
  span_units (l1 ++ l2) = span_units l1 + span_units l2.
Proof.
  unfold span_units. induction l1 as [|s l1 IH]; cbn [foldr app]; [done|].
  rewrite IH. lia.
Qed.

Lemma split_inv_weaken (w ms lo : Z) (st : split_state) (b b' : Z) :
  b <= b' -> split_inv w ms lo st b -> split_inv w ms lo st b'.
Proof.
  intros Hb (H1 & H). split; [|done]. by apply (chain_weaken _ lo lo b b').
Qed.

Lemma split_scan_inv (w ms lo : Z) (n : nat) :
  forall (bits : list Z) (hb ee i : Z) st st',
  0 < s_remaining st -> i + hb <= ee ->
  split_inv w ms lo st (i + hb) ->
  split_scan n bits hb ee ms i st = Ret st' ->
  split_inv w ms lo st' ee.
Proof.
  induction n as [|n IH]; intros bits hb ee i st st' Hrem Hi Hinv H.
  { cbn [split_scan] in H. destruct (i <? ee - hb); [done|].
    inversion H; subst. by apply (split_inv_weaken _ _ _ _ (i + hb)). }
  cbn [split_scan] in H.
  destruct (Z.ltb_spec i (ee - hb)) as [Hlt|Hge];
    [|inversion H; subst; by apply (split_inv_weaken _ _ _ _ (i + hb))].
  destruct (getitem bits i) as [b| |] eqn:Eg; cbn in H; [|done..].
  destruct (Z.eqb_spec b 1) as [Hb|Hb].
  - subst b.
    destruct (run_extent _ bits hb (i + hb)) as [re| |] eqn:Ere; cbn in H;
      [|done..].
    pose proof (run_extent_bounds _ _ _ _ _ Ere) as Hre.
    assert (i + hb + 1 <= re) as Hre1.
    { replace (Z.to_nat (ee - (i + hb))) with (S (Z.to_nat (ee - (i + hb) - 1)))
        in Ere by lia.
      apply run_extent_first in Ere; [done|].
      by replace (i + hb - hb) with i by lia. }
    destruct (Z.ltb_spec (re - (i + hb)) ms) as [Hshort|Hlong].
    { apply IH in H; [done|done|lia|].
      replace (re - hb + hb) with re by lia.
      by apply (split_inv_weaken _ _ _ _ (i + hb)); [lia|]. }
    set (consume := Z.min (re - (i + hb)) (s_remaining st)) in H.
    assert (1 <= consume <= re - (i + hb)) as Hc by (subst consume; lia).
    assert (consume <= s_remaining st) as Hc' by (subst consume; lia).
    set (st1 := mk_split _ _ _) in H.
    assert (split_inv w ms lo st1 re) as Hinv1.
    { destruct Hinv as (Hch & Hpr & Hsum & Hnn & Hfs & Hms & Hrl).
      subst st1. unfold split_inv. cbn [s_spans s_first_start s_remaining].
      split.
      { apply chain_app. exists (i + hb). split; [done|]. cbn [chain]. lia. }
      split.
      { apply Forall_app. split; [done|]. apply Forall_singleton. cbn. lia. }
      split.
      { rewrite span_units_app. unfold span_units at 2. cbn. lia. }
      split; [lia|]. split.
      { rewrite Hfs. by destruct (s_spans st). }
      split.
      { intros Hpos. apply Forall_app. split; [by apply Hms|].
        apply Forall_singleton. cbn. subst consume. lia. }
      rewrite removelast_last. by apply Hms. }
    destruct (Z.leb_spec (s_remaining st - consume) 0) as [Hdone|Hmore].
    { inversion H; subst. by apply (split_inv_weaken _ _ _ _ re); [lia|]. }
    apply IH in H; [done|done|lia|].
    by replace (re - hb + hb) with re by lia.
  - apply IH in H; [done|done|lia|].
    apply (split_inv_weaken _ _ _ _ (i + hb)); [lia|done].
Qed.

Lemma splittable_loop_inv (w ms lo : Z) (fuel : nat) :
  forall (bm : OccupancyBitmap) op w0 deadline pos st st' bm',
  0 < s_remaining st -> split_inv w ms lo st pos ->
  splittable_loop fuel bm op w0 ms deadline pos st = (Ret st', bm') ->
  split_inv w ms lo st' (clip_end bm' deadline) /\ s_remaining st' = 0.
Proof.
  induction fuel as [|fuel IH];
    intros bm op w0 deadline pos st st' bm' Hrem Hinv H; cbn [splittable_loop] in H.
  { destruct (Z.gtb_spec (s_remaining st) 0); [done|lia]. }
  destruct (Z.gtb_spec (s_remaining st) 0) as [_|]; [|lia].
  set (ext1 := if pos >=? horizon_end bm then _ else _) in H.
  assert (ext1.1 = Ret () -> pos < horizon_end ext1.2) as Hx1.
  { subst ext1. destruct (Z.geb_spec pos (horizon_end bm)); [|cbn; lia].
    destruct (reached deadline pos); [done|].
    destruct (_extend_to _ _) as [[[]| |] b] eqn:E; cbn; [|done..].
    intros _. apply _extend_to_horizon_end in E.
    unfold _DEFAULT_EXTEND_DAYS in E. lia. }
  destruct ext1 as [[[]| |] bm1]; cbn in Hx1; [|done..].
  specialize (Hx1 eq_refl).
  destruct (split_scan _ _ _ _ _ _ _) as [st1| |] eqn:Escan in H; [|done..].
  destruct (Z.le_gt_cases pos (clip_end bm1 deadline)) as [Hle|Hgt].
  - apply (split_scan_inv w ms lo) in Escan; [|done|lia|].
    2:{ by replace (pos - horizon_begin bm1 + horizon_begin bm1) with pos by lia. }
    destruct (Z.gtb_spec (s_remaining st1) 0) as [Hrem1|Hrem1].
    + destruct (reached deadline (clip_end bm1 deadline)) eqn:Er; [done|].
      set (ext2 := if clip_end bm1 deadline >=? horizon_end bm1 then _ else _) in H.
      destruct ext2 as [[[]| |] bm2]; [|done..].
      by apply IH in H.
    + inversion H; subst st' bm'. split; [done|].
      destruct Escan as (_ & _ & _ & Hnn & _). lia.
  - assert (st1 = st) as ->.
    { destruct (Z.to_nat _) in Escan; cbn [split_scan] in Escan;
        destruct (Z.ltb_spec (pos - horizon_begin bm1)
                             (clip_end bm1 deadline - horizon_begin bm1));
        try lia; by inversion Escan. }
    destruct (Z.gtb_spec (s_remaining st) 0) as [_|]; [|lia].
    destruct (reached deadline (clip_end bm1 deadline)) eqn:Er; [done|].
    apply clip_end_not_reached in Er. lia.
Qed.

Lemma chain_tight (l : list span) : forall lo hi x y,
  chain lo l hi -> head l = Some x -> last l = Some y ->
  chain x.1 l y.2 /\ lo <= x.1 /\ y.2 <= hi.
Proof.
  induction l as [|[a b] l IH]; intros lo hi x y Hch Hx Hy; [done|].
  cbn in Hx. inversion Hx; subst x. cbn [fst]. cbn [chain] in Hch |- *.
  destruct Hch as (Hlo & Hab & Hch).
  destruct l as [|[c d] l].
  - cbn in Hy. inversion Hy; subst y. cbn [snd chain] in *. lia.
  - change (last ((a, b) :: (c, d) :: l)) with (last ((c, d) :: l)) in Hy.
    destruct (IH b hi (c, d) y Hch eq_refl Hy) as (Hch' & Hbc & Hyhi).
    cbn [fst] in Hch', Hbc. split; [|lia]. split; [lia|]. split; [lia|].
    apply (chain_weaken _ c b y.2 y.2); [lia|lia|done].
Qed.

(** What [walk] returns for a positive amount of work, in both modes. *)
Lemma walk_record (fuel : nat) (bm : OccupancyBitmap) oid op es w split ms
    deadline r bm' :
  0 < w ->
  walk fuel bm oid op es w split ms deadline = (Ret r, bm') ->
  work_units r = w /\ allow_split r = split /\ operation_id r = op /\
  span_units (spans r) = w /\
  chain (start r) (spans r) (finish r) /\ proper_spans r /\
  (fst <$> head (spans r)) = Some (start r) /\
  (snd <$> last (spans r)) = Some (finish r) /\
  Z.max es (horizon_begin bm) <= start r /\
  finish r <= clip_end bm' deadline /\
  (split = true ->
   Forall (fun s : span => ms <= s.2 - s.1) (removelast (spans r))).
Proof.
  intros Hw. unfold walk. destruct split.
  - unfold _walk_splittable.
    destruct (splittable_loop _ _ _ _ _ _ _ _) as [[st| |] bm1] eqn:E; [|done..].
    apply (splittable_loop_inv w ms (Z.max es (horizon_begin bm))) in E
      as [(Hch & Hpr & Hsum & Hnn & Hfs & Hms & Hrl) Hrem]; [|done|].
    2:{ unfold split_inv. cbn. repeat split; try done; lia. }
    destruct (last (s_spans st)) as [y|] eqn:Ey; [|done].
    intros H. inversion H; subst r bm'. clear H.
    cbn [work_units allow_split operation_id spans start finish].
    destruct (head (s_spans st)) as [x|] eqn:Ex.
    2:{ destruct (s_spans st); [done|discriminate Ex]. }
    destruct (chain_tight _ _ _ x y Hch Ex Ey) as (Hch' & Hlo & Hhi).
    rewrite Hfs, Ey. cbn [fmap option_fmap option_map from_option id].
    repeat split; try done. lia.
  - unfold _walk_non_splittable. intros H.
    pose proof (non_splittable_loop_bounds _ _ _ _ _ _ _ _ _ Hw H) as [Hlo Hhi].
    apply non_splittable_loop_sound in H as (_ & s & _ & -> & _); [|lia].
    cbn [work_units allow_split operation_id spans start finish] in *.
    unfold proper_spans, span_units. cbn.
    repeat split; try done; try lia.
    apply Forall_singleton. cbn. lia.
Qed.

Lemma walk_gapped :
  walk 1 gapped 0 "OP-1" 0 3 true 1 None
  = (Ret (mk_record 0 "OP-1" "standard" 8 12 3 true [(8, 9); (10, 12)]), gapped).
Proof. vm_compute. reflexivity. Qed.

Lemma walk_morning :
  walk 1 morning 0 "OP-1" 0 3 false 1 (Some 12)
  = (Ret (mk_record 0 "OP-1" "standard" 8 11 3 false [(8, 11)]), morning).
Proof. vm_compute. reflexivity. Qed.

(** X14.  For a positive amount of work, the record that [walk] returns keeps
    the invariants of [AllocationRecord]: its spans are not empty, in
    ascending order and disjoint, they hold [work_units] units in all,
    the first begins at [start] and the last ends at [finish]. *)
Theorem walk_record_invariants (fuel : nat) (bm : OccupancyBitmap) (oid : nat)
    (op : string) (es w : Z) (split : bool) (ms : Z) (deadline : option Z)
    (r : AllocationRecord) (bm' : OccupancyBitmap) :
  0 < w ->
  walk fuel bm oid op es w split ms deadline = (Ret r, bm') ->
  work_units r = w /\ span_units (spans r) = w /\
  proper_spans r /\ chain (start r) (spans r) (finish r) /\
  (fst <$> head (spans r)) = Some (start r) /\
  (snd <$> last (spans r)) = Some (finish r).
Proof.
  intros Hw H. apply walk_record in H; [|done]. tauto.
Qed.

Lemma walk_record_invariants_witness :
  0 < 3 /\
  walk 1 gapped 0 "OP-1" 0 3 true 1 None
    = (Ret (mk_record 0 "OP-1" "standard" 8 12 3 true [(8, 9); (10, 12)]),
       gapped) /\
  3 = 3 /\ span_units [(8, 9); (10, 12)] = 3 /\
  Forall (fun s : span => s.1 < s.2) [(8, 9); (10, 12)] /\
  chain 8 [(8, 9); (10, 12)] 12 /\
  (fst <$> head [(8, 9); (10, 12)]) = Some 8 /\
  (snd <$> last [(8, 9); (10, 12)]) = Some 12.
Proof.
  assert (0 < 3) as H by lia.
  exact (conj H (conj walk_gapped
           (walk_record_invariants 1 gapped 0 "OP-1" 0 3 true 1 None _ _
              H walk_gapped))).
Defined.

(** X15.  For a positive amount of work, the record that [walk] returns starts
    at or after [earliest_start] and the beginning of the horizon, and
    finishes within the horizon as the walk leaves it and not after the
    deadline. *)
Theorem walk_within_bounds (fuel : nat) (bm : OccupancyBitmap) (oid : nat)
    (op : string) (es w : Z) (split : bool) (ms : Z) (deadline : option Z)
    (r : AllocationRecord) (bm' : OccupancyBitmap) :
  0 < w ->
  walk fuel bm oid op es w split ms deadline = (Ret r, bm') ->
  es <= start r /\ horizon_begin bm <= start r /\ start r < finish r /\
  finish r <= horizon_end bm' /\
  forall d, deadline = Some d -> finish r <= d.
Proof.
  intros Hw H. apply walk_record in H
    as (_ & _ & _ & Hu & Hch & Hpr & Hhd & _ & Hlo & Hhi & _); [|done].
  assert (start r < finish r) as Hlt.
  { unfold proper_spans in Hpr. destruct (spans r) as [|[a b] l]; [done|].
    cbn in Hhd. inversion Hhd as [Ha]. cbn [chain] in Hch.
    destruct Hch as (_ & _ & Hch). apply chain_bounds in Hch as [Hb _].
    inversion Hpr as [|? ? Hab _]; subst. cbn [fst snd] in *. lia. }
  unfold clip_end in Hhi. repeat split; try lia.
  intros d ->. cbn in Hhi. lia.
Qed.

Lemma walk_within_bounds_witness :
  0 < 3 /\
  walk 1 morning 0 "OP-1" 0 3 false 1 (Some 12)
    = (Ret (mk_record 0 "OP-1" "standard" 8 11 3 false [(8, 11)]), morning) /\
  0 <= 8 /\ horizon_begin morning <= 8 /\ 8 < 11 /\
  11 <= horizon_end morning /\
  forall d, Some 12 = Some d -> 11 <= d.
Proof.
  assert (0 < 3) as H by lia.
  exact (conj H (conj walk_morning
           (walk_within_bounds 1 morning 0 "OP-1" 0 3 false 1 (Some 12) _ _
              H walk_morning))).
Defined.

(** X16.  Every span of a splittable walk but the last holds at least
    [min_split] units; the last may be shorter than [min_split]. *)
Theorem walk_min_split (fuel : nat) (bm : OccupancyBitmap) (oid : nat)
    (op : string) (es w ms : Z) (deadline : option Z)
    (r : AllocationRecord) (bm' : OccupancyBitmap) :
  0 < w ->
  walk fuel bm oid op es w true ms deadline = (Ret r, bm') ->
  Forall (fun s : span => ms <= s.2 - s.1) (removelast (spans r)).
Proof.
  intros Hw H. apply walk_record in H; [|done].
  by apply H.
Qed.

Lemma walk_min_split_witness :
  0 < 3 /\
  walk 1 gapped 0 "OP-1" 0 3 true 1 None
    = (Ret (mk_record 0 "OP-1" "standard" 8 12 3 true [(8, 9); (10, 12)]),
       gapped) /\
  Forall (fun s : span => 1 <= s.2 - s.1) (removelast [(8, 9); (10, 12)]).
Proof.
  assert (0 < 3) as H by lia.
  exact (conj H (conj walk_gapped
           (walk_min_split 1 gapped 0 "OP-1" 0 3 1 None _ _ H walk_gapped))).
Defined.

(** X17.  Whatever its outcome, [walk] leaves the allocations, the beginning
    of the horizon and every bit of the horizon as they were: it only
    appends bits. *)
Theorem walk_only_appends (fuel : nat) (bm : OccupancyBitmap) (oid : nat)
    (op : string) (es w : Z) (split : bool) (ms : Z) (deadline : option Z) :
  let bm' := (walk fuel bm oid op es w split ms deadline).2 in
  _allocations bm' = _allocations bm /\
  horizon_begin bm' = horizon_begin bm /\
  (exists ext, bits bm' = bits bm ++ ext) /\
  forall j v, unit_bit bm j = Some v -> unit_bit bm' j = Some v.
Proof.
  destruct (walk fuel bm oid op es w split ms deadline) as [o bm'] eqn:E.
  apply walk_extends in E. cbn.
  split; [by apply extends_allocations|].
  split; [by apply extends_horizon_begin|].
  split; [by apply extends_bits|].
  intros j v. by apply extends_unit_bit.
Qed.

Lemma walk_first_scan_earliest_witness :
  0 < 3 /\
  walk 1 morning 0 "OP-1" 0 3 false 1 (Some 12)
    = (Ret (mk_record 0 "OP-1" "standard" 8 11 3 false [(8, 11)]), morning) /\
  Z.max 0 (horizon_begin morning) <= 8 /\
  free_run morning 8 3 /\
  forall s', Z.max 0 (horizon_begin morning) <= s' < 8 -> ~ free_run morning s' 3.
Proof.
  assert (0 < 3) as H by lia.
  exact (conj H (conj walk_morning
           (walk_first_scan_earliest morning 0 "OP-1" 0 3 1 (Some 12) _ _
              H walk_morning))).
Defined.

Lemma span_units_chain (l : list span) : forall lo hi,
  chain lo l hi -> span_units l <= hi - lo.
Proof.
  unfold span_units.
  induction l as [|[a b] l IH]; intros lo hi; cbn [chain foldr fst snd]; [lia|].
  intros (Hlo & Hab & Hch). apply IH in Hch. lia.
Qed.

(** X27.  For a positive amount of work, the record that [walk] returns
    is complete for that amount, and its wall time is at least its work:
    the two are equal when the work may not be split. *)
Theorem walk_wall_time (fuel : nat) (bm : OccupancyBitmap) (oid : nat)
    (op : string) (es w : Z) (split : bool) (ms : Z) (deadline : option Z)
    (r : AllocationRecord) (bm' : OccupancyBitmap) :
  0 < w ->
  walk fuel bm oid op es w split ms deadline = (Ret r, bm') ->
  is_complete r w = true /\ work_units r <= wall_time r /\
  (split = false -> wall_time r = work_units r).
Proof.
  intros Hw H. pose proof H as H'.
  apply walk_record in H as (Hwu & _ & _ & Hu & Hch & _); [|done].
  unfold is_complete, wall_time. rewrite Hwu.
  split; [apply Z.geb_le; lia|]. split.
  - apply span_units_chain in Hch. lia.
  - intros ->. unfold walk, _walk_non_splittable in H'.
    apply non_splittable_loop_sound in H' as (_ & s & _ & -> & _); [|lia].
    cbn. lia.
Qed.

Lemma walk_wall_time_witness :
  0 < 3 /\
  walk 1 gapped 0 "OP-1" 0 3 true 1 None
    = (Ret (mk_record 0 "OP-1" "standard" 8 12 3 true [(8, 9); (10, 12)]),
       gapped) /\
  is_complete (mk_record 0 "OP-1" "standard" 8 12 3 true [(8, 9); (10, 12)]) 3
    = true /\
  3 <= wall_time (mk_record 0 "OP-1" "standard" 8 12 3 true [(8, 9); (10, 12)]) /\
  (true = false ->
   wall_time (mk_record 0 "OP-1" "standard" 8 12 3 true [(8, 9); (10, 12)]) = 3).
Proof.
  assert (0 < 3) as H by lia.
  exact (conj H (conj walk_gapped
           (walk_wall_time 1 gapped 0 "OP-1" 0 3 true 1 None _ _ H walk_gapped))).
Defined.

Lemma scan_run_none (n : nat) : forall (bits : list Z) (hb w i : Z),
  0 <= i -> i + Z.of_nat n <= len bits ->
  (forall j, i + hb <= j < i + hb + Z.of_nat n -> bit_at bits hb j <> Some 1) ->
  scan_run n bits hb w i None 0 = Ret None.
Proof.
  induction n as [|n IH]; intros bits hb w i Hi Hn Hbits; [done|].
  cbn [scan_run].
  destruct (getitem_Some bits i) as (b & Eb & ->); [lia|]. cbn.
  destruct (Z.eqb_spec b 1) as [->|_].
  - destruct (Hbits (i + hb)); [lia|]. by apply bit_at_lookup.
  - apply IH; [lia|lia|]. intros j Hj. apply Hbits. lia.
Qed.

Lemma non_splittable_loop_hangs (fuel : nat) :
  forall (bm : OccupancyBitmap) oid op w deadline pos,
  w <= 0 -> horizon_begin bm <= pos <= horizon_end bm ->
  reached deadline (horizon_end bm) = false ->
  (forall j, pos <= j < horizon_end bm -> unit_bit bm j <> Some 1) ->
  non_splittable_loop fuel bm oid op w deadline pos = (OutOfFuel, bm).
Proof.
  induction fuel as [|fuel IH]; intros bm oid op w deadline pos Hw Hpos Hd Hbits;
    [done|].
  cbn [non_splittable_loop].
  destruct (Z.gtb_spec (pos + w) (horizon_end bm)); [lia|].
  assert (clip_end bm deadline = horizon_end bm) as ->.
  { unfold clip_end, reached in *. destruct deadline as [d|]; cbn in *; [|lia].
    destruct (Z.geb_spec (horizon_end bm) d); [done|lia]. }
  rewrite scan_run_none.
  - rewrite Hd. lazy beta iota zeta.
    destruct (Z.gtb_spec (pos + w) (horizon_end bm)); [lia|].
    apply IH; [done|lia|done|]. intros j Hj. lia.
  - lia.
  - unfold horizon_end in *. lia.
  - intros j Hj. apply Hbits. unfold horizon_end in *. lia.
Qed.

(** X28.  A non-splittable walk for no work, or for a negative amount,
    does not end when no unit is free from its start to the end of the
    horizon and no deadline lies within the horizon: the loop
    [while True] neither extends the bitmap nor moves on, so that the
    walk is out of fuel whatever the fuel. *)
Theorem walk_without_work_hangs (fuel : nat) (bm : OccupancyBitmap) (oid : nat)
    (op : string) (es w ms : Z) (deadline : option Z) :
  w <= 0 -> Z.max es (horizon_begin bm) <= horizon_end bm ->
  reached deadline (horizon_end bm) = false ->
  (forall j, Z.max es (horizon_begin bm) <= j < horizon_end bm ->
             unit_bit bm j <> Some 1) ->
  walk fuel bm oid op es w false ms deadline = (OutOfFuel, bm).
Proof.
  intros Hw Hpos Hd Hbits. unfold walk, _walk_non_splittable.
  apply non_splittable_loop_hangs; [done|lia|done|done].
Qed.

Lemma walk_without_work_hangs_witness :
  0 <= 0 /\ Z.max 12 (horizon_begin morning) <= horizon_end morning /\
  reached None (horizon_end morning) = false /\
  (forall j, Z.max 12 (horizon_begin morning) <= j < horizon_end morning ->
             unit_bit morning j <> Some 1) /\
  walk 1000 morning 0 "OP-1" 12 0 false 1 None = (OutOfFuel, morning).
Proof.
  assert (0 <= 0) as H1 by lia.
  assert (Z.max 12 (horizon_begin morning) <= horizon_end morning) as H2
    by (vm_compute; discriminate).
  assert (reached None (horizon_end morning) = false) as H3 by reflexivity.
  assert (forall j, Z.max 12 (horizon_begin morning) <= j < horizon_end morning ->
                    unit_bit morning j <> Some 1) as H4.
  { intros j. change (horizon_end morning) with 12.
    change (horizon_begin morning) with 0. lia. }
  exact (conj H1 (conj H2 (conj H3 (conj H4
           (walk_without_work_hangs 1000 morning 0 "OP-1" 12 0 1 None
              H1 H2 H3 H4))))).
Defined.

(** ** A walk with a deadline ends *)

Lemma bind_ends {A B : Type} (m : outcome A) (f : A -> outcome B) :
  ends m -> (forall a, m = Ret a -> ends (f a)) -> ends (m ≫= f).
Proof.
  unfold ends. destruct m as [a| |]; cbn; [|done..]. intros _ H. by apply H.
Qed.

Lemma getitem_ends (bits : list Z) (i : Z) : ends (getitem bits i).
Proof.
  unfold ends, getitem. destruct (position bits i <? 0); [done|].
  by destruct (bits !! Z.to_nat (position bits i)).
Qed.

Lemma setitem_ends (bits : list Z) (i v : Z) : ends (setitem bits i v).
Proof.
  unfold ends, setitem. destruct (position bits i <? 0); [done|].
  by destruct (bits !! Z.to_nat (position bits i)).
Qed.

Lemma set_items_ends (n : nat) : forall (bits : list Z) (i v : Z),
  ends (set_items n bits i v).1.
Proof.
  induction n as [|n IH]; intros bits i v; cbn [set_items]; [done|].
  pose proof (setitem_ends bits i v) as H.
  destruct (setitem bits i v) as [bits'| |]; [apply IH|done|done].
Qed.

Lemma scan_run_ends (n : nat) : forall (bits : list Z) (hb w i : Z) rs rl,
  ends (scan_run n bits hb w i rs rl).
Proof.
  induction n as [|n IH]; intros bits hb w i rs rl; cbn [scan_run]; [done|].
  apply bind_ends; [apply getitem_ends|]. intros b _.
  destruct (b =? 1); [|apply IH].
  destruct rs as [s|]; [destruct (rl + 1 >=? w)|destruct (1 >=? w)];
    done || apply IH.
Qed.

Lemma run_extent_ends (n : nat) : forall (bits : list Z) (hb run_end : Z),
  ends (run_extent n bits hb run_end).
Proof.
  induction n as [|n IH]; intros bits hb run_end; cbn [run_extent]; [done|].
  apply bind_ends; [apply getitem_ends|]. intros b _.
  destruct (b =? 1); [apply IH|done].
Qed.

Lemma split_scan_ends (n : nat) :
  forall (bits : list Z) (hb ee ms i : Z) st,
  ee - hb - i <= Z.of_nat n -> ends (split_scan n bits hb ee ms i st).
Proof.
  induction n as [|n IH]; intros bits hb ee ms i st Hn; cbn [split_scan].
  { destruct (Z.ltb_spec i (ee - hb)); [lia|done]. }
  destruct (Z.ltb_spec i (ee - hb)) as [Hlt|]; [|done].
  destruct (getitem bits i) as [b| |] eqn:Eg; cbn; [|done|].
  2:{ by destruct (getitem_ends bits i). }
  destruct (Z.eqb_spec b 1) as [->|_]; [|apply IH; lia].
  pose proof (run_extent_ends (Z.to_nat (ee - (i + hb))) bits hb (i + hb)) as He.
  destruct (run_extent _ bits hb (i + hb)) as [re| |] eqn:Ere; cbn; [|done|done].
  assert (i + hb + 1 <= re) as Hre.
  { replace (Z.to_nat (ee - (i + hb))) with (S (Z.to_nat (ee - (i + hb) - 1)))
      in Ere by lia.
    apply run_extent_first in Ere; [done|].
    by replace (i + hb - hb) with i by lia. }
  destruct (re - (i + hb) <? ms); [apply IH; lia|].
  destruct (_ <=? 0); [done|]. apply IH. lia.
Qed.

Lemma periods_for_date_ends (cal : WorkingCalendar) (d : date) :
  ends (periods_for_date cal d).
Proof.
  unfold periods_for_date. case_bool_decide as Hex; [|done].
  unfold _resolve_exceptions. destruct Hex as [entries ->].
  destruct (existsb full_removal entries).
  - pose proof (append_working_spec entries []) as H.
    by destruct (append_working [] entries).
  - pose proof (append_working_spec entries (_resolve_rules cal d)) as H.
    by destruct (append_working _ entries).
Qed.

Lemma intervals_from_ends (n : nat) (cal : WorkingCalendar)
    (start end_ : datetime) : forall d,
  ends (intervals_from n cal start end_ d).
Proof.
  induction n as [|n IH]; intros d; cbn [intervals_from]; [done|].
  apply bind_ends.
  { unfold _datetime_intervals_for_date. apply bind_ends; [|done].
    apply periods_for_date_ends. }
  intros ivs _. apply bind_ends; [apply IH|done].
Qed.

Lemma to_int_ends (r : TimeResolution) (dt epoch : datetime) :
  ends (to_int r dt epoch).
Proof.
  unfold to_int. destruct (unit_seconds r =? 0); [done|].
  by destruct (negb _).
Qed.

Lemma fill_intervals_ends (r : TimeResolution) (epoch : datetime) (offset : Z)
    (intervals : list (datetime * datetime)) : forall bits,
  ends (fill_intervals r epoch offset intervals bits).
Proof.
  induction intervals as [|[s e] l IH]; intros bits; cbn [fill_intervals]; [done|].
  apply bind_ends; [apply to_int_ends|]. intros a _.
  apply bind_ends; [apply to_int_ends|]. intros b _.
  unfold set_range.
  pose proof (set_items_ends (Z.to_nat (Z.min (len bits) (b - offset)
                                        - Z.max 0 (a - offset)))
                bits (Z.max 0 (a - offset)) 1) as H.
  destruct (set_items _ bits _ 1) as [[[]| |] bits']; [apply IH|done|done].
Qed.

Lemma _extend_to_ends (bm : OccupancyBitmap) (needed_end : Z) :
  ends (_extend_to bm needed_end).1.
Proof.
  unfold _extend_to. destruct (needed_end <=? horizon_end bm); [done|].
  destruct (unit_seconds (_resolution bm) =? 0); [done|].
  set (size := Z.max needed_end _ - horizon_end bm).
  assert (ends (new_bits ← bytearray size;
                _fill_bits_from_calendar new_bits (horizon_end bm) (_calendar bm)
                  (_resolution bm) (_epoch bm))) as H.
  { apply bind_ends.
    { unfold bytearray. by destruct (size <? 0). }
    intros bits0 _. unfold _fill_bits_from_calendar.
    apply bind_ends; [apply intervals_from_ends|].
    intros ivs _. apply fill_intervals_ends. }
  by destruct (_ ≫= _).
Qed.

Lemma non_splittable_loop_ends (d : Z) (fuel : nat) :
  forall (bm : OccupancyBitmap) oid op w pos,
  0 < w -> (1 <= fuel)%nat -> d - pos < Z.of_nat fuel ->
  ends (non_splittable_loop fuel bm oid op w (Some d) pos).1.
Proof.
  induction fuel as [|fuel IH]; intros bm oid op w pos Hw Hfuel Hd; [lia|].
  cbn [non_splittable_loop].
  set (ext1 := if pos + w >? horizon_end bm then _ else _).
  assert (ends ext1.1 /\ (ext1.1 = Ret () -> pos + w <= horizon_end ext1.2))
    as [He1 Hx1].
  { subst ext1. destruct (Z.gtb_spec (pos + w) (horizon_end bm)); [|done].
    destruct (reached (Some d) pos); [done|].
    split; [apply _extend_to_ends|].
    destruct (_extend_to _ _) as [[[]| |] b] eqn:E; cbn; [|done..].
    intros _. apply _extend_to_horizon_end in E. lia. }
  destruct ext1 as [[[]| |] bm1]; cbn in He1, Hx1; [|done..].
  specialize (Hx1 eq_refl).
  pose proof (scan_run_ends
                (Z.to_nat (clip_end bm1 (Some d) - horizon_begin bm1
                           - (pos - horizon_begin bm1)))
                (bits bm1) (horizon_begin bm1) w (pos - horizon_begin bm1) None 0)
    as Hs.
  destruct (scan_run _ _ _ _ _ _ _) as [[s|]| |]; [done| |done|done].
  destruct (reached (Some d) (clip_end bm1 (Some d))) eqn:Er; [done|].
  apply clip_end_not_reached in Er as Hce.
  destruct (Z.gtb_spec (pos + w) (horizon_end bm1)); [lia|].
  rewrite Hce in Er |- *. cbn in Er.
  destruct (Z.geb_spec (horizon_end bm1) d); [done|].
  apply IH; [done|lia|lia].
Qed.

Lemma splittable_loop_ends (d : Z) (fuel : nat) :
  forall (bm : OccupancyBitmap) op w ms pos st,
  horizon_begin bm <= pos -> (1 <= fuel)%nat -> d - pos < Z.of_nat fuel ->
  ends (splittable_loop fuel bm op w ms (Some d) pos st).1.
Proof.
  induction fuel as [|fuel IH]; intros bm op w ms pos st Hhb Hfuel Hd; [lia|].
  cbn [splittable_loop]. destruct (s_remaining st >? 0); [|done].
  set (ext1 := if pos >=? horizon_end bm then _ else _).
  assert (ends ext1.1 /\ extends bm ext1.2 /\
          (ext1.1 = Ret () -> pos < horizon_end ext1.2)) as (He1 & Hx & Hx1).
  { subst ext1. destruct (Z.geb_spec pos (horizon_end bm));
      [|split; [done|split; [apply extends_refl|cbn; lia]]].
    destruct (reached (Some d) pos);
      [split; [done|split; [apply extends_refl|done]]|].
    split; [apply _extend_to_ends|].
    destruct (_extend_to _ _) as [o b] eqn:E.
    split; [by apply _extend_to_extends in E|].
    cbn. intros ->. apply _extend_to_horizon_end in E.
    unfold _DEFAULT_EXTEND_DAYS in E. lia. }
  destruct ext1 as [[[]| |] bm1]; cbn in He1, Hx, Hx1; [|done..].
  specialize (Hx1 eq_refl).
  pose proof (extends_horizon_begin _ _ Hx) as Hhb1.
  pose proof (split_scan_ends
                (Z.to_nat (clip_end bm1 (Some d) - horizon_begin bm1
                           - (pos - horizon_begin bm1)))
                (bits bm1) (horizon_begin bm1) (clip_end bm1 (Some d)) ms
                (pos - horizon_begin bm1) st ltac:(lia)) as Hs.
  destruct (split_scan _ _ _ _ _ _ _) as [st1| |]; [|done|done].
  destruct (s_remaining st1 >? 0); [|done].
  destruct (reached (Some d) (clip_end bm1 (Some d))) eqn:Er; [done|].
  apply clip_end_not_reached in Er as Hce.
  rewrite Hce in Er |- *. cbn in Er.
  destruct (Z.geb_spec (horizon_end bm1) d); [done|].
  set (ext2 := if horizon_end bm1 >=? horizon_end bm1 then _ else _).
  assert (ends ext2.1 /\ extends bm1 ext2.2) as (He2 & Hx2).
  { subst ext2. destruct (_ >=? _); [|split; [done|apply extends_refl]].
    split; [apply _extend_to_ends|].
    destruct (_extend_to _ _) as [o b] eqn:E. by apply _extend_to_extends in E. }
  destruct ext2 as [[[]| |] bm2]; cbn in He2, Hx2; [|done..].
  apply IH; [|lia|lia].
  rewrite (extends_horizon_begin _ _ Hx2). unfold horizon_end.
  pose proof (len_nonneg (bits bm1)). lia.
Qed.

(** X29.  A walk for a positive amount of work with a deadline ends, by
    returning a record or by raising: each pass of its outer loop moves
    the search on, and it stops at the deadline at the latest. *)
Theorem walk_with_deadline_ends (fuel : nat) (bm : OccupancyBitmap) (oid : nat)
    (op : string) (es w : Z) (split : bool) (ms : Z) (d : Z) :
  0 < w -> (1 <= fuel)%nat ->
  d - Z.max es (horizon_begin bm) < Z.of_nat fuel ->
  ends (walk fuel bm oid op es w split ms (Some d)).1.
Proof.
  intros Hw Hfuel Hd. unfold walk. destruct split.
  - unfold _walk_splittable.
    pose proof (splittable_loop_ends d fuel bm op w ms
                  (Z.max es (horizon_begin bm)) (mk_split [] None w)
                  ltac:(lia) Hfuel Hd) as H.
    destruct (splittable_loop _ _ _ _ _ _ _ _) as [[st| |] bm1]; [|done..].
    by destruct (last (s_spans st)).
  - unfold _walk_non_splittable. by apply non_splittable_loop_ends.
Qed.

Lemma walk_with_deadline_ends_witness :
  0 < 5 /\ (1 <= 15)%nat /\
  14 - Z.max 0 (horizon_begin morning) < Z.of_nat 15 /\
  ends (walk 15 morning 0 "OP-1" 0 5 false 1 (Some 14)).1.
Proof.
  assert (0 < 5) as H1 by lia.
  assert (1 <= 15)%nat as H2 by lia.
  assert (14 - Z.max 0 (horizon_begin morning) < Z.of_nat 15) as H3
    by (vm_compute; reflexivity).
  exact (conj H1 (conj H2 (conj H3
           (walk_with_deadline_ends 15 morning 0 "OP-1" 0 5 false 1 14
              H1 H2 H3)))).
Defined.

(** ** Committing an allocation *)

(** X19.  When [allocate] returns, it returns the record that [walk] finds,
    appends it to the allocations, and sets the bits of its spans to 0;
    every other bit is as the walk left it. *)
Theorem allocate_commits (fuel : nat) (bm : OccupancyBitmap) (oid : nat)
    (op : string) (es w : Z) (split : bool) (ms : Z) (deadline : option Z)
    (r : AllocationRecord) (bm' : OccupancyBitmap) :
  allocate fuel bm oid op es w split ms deadline = (Ret r, bm') ->
  exists bmw,
    walk fuel bm oid op es w split ms deadline = (Ret r, bmw) /\
    _allocations bm' = _allocations bm ++ [r] /\
    horizon_begin bm' = horizon_begin bm /\
    length (bits bm') = length (bits bmw) /\
    forall j, unit_bit bm' j
              = if decide (covers r j) then Some 0 else unit_bit bmw j.
Proof.
  intros H. unfold allocate in H.
  destruct (walk _ _ _ _ _ _ _ _ _) as [[r'| |] bmw] eqn:Ew; [|done..].
  exists bmw. pose proof Ew as Hs.
  apply walk_sound in Hs as (Hx & Hid & Hfree).
  destruct (mark_spans_bits_bit_at (spans r') (bits bmw) (horizon_begin bmw) 0)
    as (bits0 & E0 & Hlen0 & Hbit0); [by eapply Forall_span_filled_in_range|].
  unfold _mark_spans in H. rewrite E0 in H. inversion H; subst r' bm'. clear H.
  cbn. split; [done|].
  split; [by rewrite (extends_allocations _ _ Hx)|].
  split; [by apply extends_horizon_begin|]. split; [done|].
  intros j. unfold unit_bit. cbn. rewrite Hbit0. unfold covers.
  destruct (decide (in_spans (spans r) j)) as [Hj|]; [|done].
  by rewrite (in_spans_filled _ _ _ _ _ Hfree Hj).
Qed.

Lemma allocate_morning :
  allocate 1 morning 0 "OP-1" 0 3 false 1 (Some 12)
  = (Ret (mk_record 0 "OP-1" "standard" 8 11 3 false [(8, 11)]),
     mk_bitmap "standard" 0 (replicate 11%nat 0 ++ [1]) standard_calendar HOUR
               EPOCH [mk_record 0 "OP-1" "standard" 8 11 3 false [(8, 11)]]).
Proof. vm_compute. reflexivity. Qed.

Lemma allocate_commits_witness :
  allocate 1 morning 0 "OP-1" 0 3 false 1 (Some 12)
  = (Ret (mk_record 0 "OP-1" "standard" 8 11 3 false [(8, 11)]),
     mk_bitmap "standard" 0 (replicate 11%nat 0 ++ [1]) standard_calendar HOUR
               EPOCH [mk_record 0 "OP-1" "standard" 8 11 3 false [(8, 11)]]) /\
  exists bmw,
    walk 1 morning 0 "OP-1" 0 3 false 1 (Some 12)
      = (Ret (mk_record 0 "OP-1" "standard" 8 11 3 false [(8, 11)]), bmw) /\
    [mk_record 0 "OP-1" "standard" 8 11 3 false [(8, 11)]]
      = _allocations morning
        ++ [mk_record 0 "OP-1" "standard" 8 11 3 false [(8, 11)]] /\
    0 = horizon_begin morning /\
    length (replicate 11%nat 0 ++ [1]) = length (bits bmw) /\
    forall j,
      unit_bit
        (mk_bitmap "standard" 0 (replicate 11%nat 0 ++ [1]) standard_calendar
           HOUR EPOCH [mk_record 0 "OP-1" "standard" 8 11 3 false [(8, 11)]]) j
      = if decide (covers (mk_record 0 "OP-1" "standard" 8 11 3 false [(8, 11)]) j)
        then Some 0 else unit_bit bmw j.
Proof.
  exact (conj allocate_morning
           (allocate_commits 1 morning 0 "OP-1" 0 3 false 1 (Some 12) _ _
              allocate_morning)).
Defined.

(** X20.  When [allocate] raises, it raises what [walk] raises and commits
    nothing: the allocations and every bit of the horizon are as
    before. *)
Theorem allocate_raises_uncommitted (fuel : nat) (bm : OccupancyBitmap)
    (oid : nat) (op : string) (es w : Z) (split : bool) (ms : Z)
    (deadline : option Z) (e : exn) (bm' : OccupancyBitmap) :
  allocate fuel bm oid op es w split ms deadline = (Raise e, bm') ->
  walk fuel bm oid op es w split ms deadline = (Raise e, bm') /\
  _allocations bm' = _allocations bm /\
  forall j v, unit_bit bm j = Some v -> unit_bit bm' j = Some v.
Proof.
  intros H. unfold allocate in H.
  destruct (walk _ _ _ _ _ _ _ _ _) as [[r| |] bmw] eqn:Ew; [| |done].
  - apply walk_sound in Ew as (Hx & Hid & Hfree).
    destruct (mark_spans_bits_bit_at (spans r) (bits bmw) (horizon_begin bmw) 0)
      as (bits0 & E0 & _); [by eapply Forall_span_filled_in_range|].
    unfold _mark_spans in H. by rewrite E0 in H.
  - inversion H; subst. split; [done|]. apply walk_extends in Ew.
    split; [by apply extends_allocations|].
    intros j v. by apply extends_unit_bit.
Qed.

Lemma allocate_late :
  allocate 1 morning 0 "OP-1" 0 5 false 1 (Some 12)
  = (Raise (InfeasibleError "OP-1" 5 5 "deadline"), morning).
Proof. vm_compute. reflexivity. Qed.

Lemma allocate_raises_uncommitted_witness :
  allocate 1 morning 0 "OP-1" 0 5 false 1 (Some 12)
    = (Raise (InfeasibleError "OP-1" 5 5 "deadline"), morning) /\
  walk 1 morning 0 "OP-1" 0 5 false 1 (Some 12)
    = (Raise (InfeasibleError "OP-1" 5 5 "deadline"), morning) /\
  _allocations morning = _allocations morning /\
  forall j v, unit_bit morning j = Some v -> unit_bit morning j = Some v.
Proof.
  exact (conj allocate_late
           (allocate_raises_uncommitted 1 morning 0 "OP-1" 0 5 false 1 (Some 12)
              _ _ allocate_late)).
Defined.

(** X21.  From a bitmap without allocations, under calls that construct a new
    record for each allocation, release committed records, and remove
    capacity or add it over a range that meets no span of a committed
    record, no unit is held by two committed allocations, and no record is
    committed twice. *)
Theorem allocations_never_overlap (fuel : nat) (bm : OccupancyBitmap)
    (os : list operation) (bm' : OccupancyBitmap) :
  _allocations bm = [] ->
  admissible_run fuel bm os ->
  run_ops fuel bm os = Some bm' ->
  disjoint_allocations (_allocations bm') /\
  NoDup (map obj_id (_allocations bm')).
Proof.
  intros Hnil Ha H.
  assert (consistent bm') as (_ & Hnd & Hdis); [|done].
  apply (consistent_run_ops fuel os bm bm'); [|done..].
  unfold consistent, I2, disjoint_allocations. rewrite Hnil.
  split; [|split].
  - intros r Hr. by apply elem_of_nil in Hr.
  - constructor.
  - intros r1 r2 Hr. by apply elem_of_nil in Hr.
Qed.

Lemma allocations_never_overlap_witness :
  _allocations morning = [] /\
  admissible_run 1 morning two_jobs /\
  run_ops 1 morning two_jobs
    = Some (default empty_bitmap (run_ops 1 morning two_jobs)) /\
  disjoint_allocations
    (_allocations (default empty_bitmap (run_ops 1 morning two_jobs))) /\
  NoDup (map obj_id
           (_allocations (default empty_bitmap (run_ops 1 morning two_jobs)))).
Proof.
  assert (_allocations morning = []) as H1 by reflexivity.
  assert (admissible_run 1 morning two_jobs) as H2
    by (apply (bool_decide_eq_true_1 (admissible_run 1 morning two_jobs));
        vm_compute; reflexivity).
  assert (run_ops 1 morning two_jobs
          = Some (default empty_bitmap (run_ops 1 morning two_jobs))) as H3
    by (vm_compute; reflexivity).
  exact (conj H1 (conj H2 (conj H3
           (allocations_never_overlap 1 morning two_jobs _ H1 H2 H3)))).
Defined.

(** ** Snapshots *)

Lemma fields_with_id (oid : nat) (r : AllocationRecord) :
  fields (with_id oid r) = fields r.
Proof. done. Qed.

Lemma unpickle_fields (l : list AllocationRecord) : forall memo oid,
  map fields (unpickle memo oid l) = map fields l.
Proof.
  induction l as [|r l IH]; intros memo oid; cbn [unpickle map]; [done|].
  destruct (list_find _ memo) as [[? [? new]]|]; cbn [map];
    by rewrite fields_with_id, IH.
Qed.

Lemma unpickle_ids (oid0 : nat) (l : list AllocationRecord) : forall memo oid,
  (oid0 <= oid)%nat -> Forall (fun p : nat * nat => (oid0 <= p.2)%nat) memo ->
  Forall (fun r => (oid0 <= obj_id r)%nat) (unpickle memo oid l).
Proof.
  induction l as [|r l IH]; intros memo oid Hoid Hmemo; cbn [unpickle];
    [constructor|].
  destruct (list_find _ memo) as [[i [old new]]|] eqn:E.
  - apply list_find_Some in E as (Hi & _).
    pose proof (proj1 (Forall_lookup _ _) Hmemo _ _ Hi) as Hnew.
    constructor; [done|]. by apply IH.
  - constructor; [done|]. apply IH; [lia|]. constructor; [done|done].
Qed.

Lemma same_frame_refl (bm : OccupancyBitmap) : same_frame bm bm.
Proof. exists (bits bm), (_allocations bm). by destruct bm. Qed.

Lemma same_frame_set_bits (bm bm1 : OccupancyBitmap) (bits1 : list Z) :
  same_frame bm bm1 -> same_frame bm (set_bits bm1 bits1).
Proof. intros (b & a & ->). by exists bits1, a. Qed.

Lemma same_frame_set_allocations (bm bm1 : OccupancyBitmap)
    (allocations : list AllocationRecord) :
  same_frame bm bm1 -> same_frame bm (set_allocations bm1 allocations).
Proof. intros (b & a & ->). by exists b, allocations. Qed.

Lemma run_op_frame (fuel : nat) (bm : OccupancyBitmap) (o : operation)
    (bm' : OccupancyBitmap) :
  run_op fuel bm o = Some bm' -> same_frame bm bm'.
Proof.
  destruct o as [oid op es w split ms deadline|oid op es w split ms deadline
                 |record|b e iw]; cbn [run_op].
  - unfold allocate.
    destruct (walk _ _ _ _ _ _ _ _ _) as [[r| |] bmw] eqn:Ew;
      apply walk_extends in Ew as [ext ->]; try done.
    + unfold _mark_spans. cbn [bits horizon_begin set_bits].
      destruct (mark_spans_bits _ _ _ _) as [[[]| |] bits'];
        intros H; inversion H; subst bm';
        repeat (apply same_frame_set_allocations || apply same_frame_set_bits);
        apply same_frame_refl.
    + intros H; inversion H; subst bm'.
      apply same_frame_set_bits, same_frame_refl.
  - destruct (walk _ _ _ _ _ _ _ _ _) as [[r| |] bmw] eqn:Ew;
      apply walk_extends in Ew as [ext ->]; try done;
      intros H; inversion H; subst bm';
      apply same_frame_set_bits, same_frame_refl.
  - unfold deallocate, _mark_spans.
    destruct (mark_spans_bits _ _ _ _) as [[[]| |] bits'];
      intros H; inversion H; subst bm';
      repeat (apply same_frame_set_allocations || apply same_frame_set_bits);
      apply same_frame_refl.
  - unfold apply_dynamic_exception.
    destruct iw; destruct (set_range _ _ _ _) as [[[]| |] bits'];
      intros H; inversion H; subst bm';
      repeat (apply same_frame_set_allocations || apply same_frame_set_bits);
      apply same_frame_refl.
Qed.

Lemma run_ops_frame (fuel : nat) (os : list operation) :
  forall (bm bm' : OccupancyBitmap),
  run_ops fuel bm os = Some bm' -> same_frame bm bm'.
Proof.
  induction os as [|o os IH]; intros bm bm'; cbn [run_ops].
  { intros H. inversion H. apply same_frame_refl. }
  destruct (run_op fuel bm o) as [bm1|] eqn:E; [|done].
  apply run_op_frame in E as (b1 & a1 & ->).
  intros H. apply IH in H as (b2 & a2 & ->). by exists b2, a2.
Qed.

(** X22.  A snapshot taken before any calls is restored exactly: whatever the
    calls did to the bitmap, also when they extended it, [restore] gives
    it the bits and the length of the snapshot, and allocations with the
    fields of those of the snapshot, in their order. *)
Theorem restore_checkpoint (fuel : nat) (bm : OccupancyBitmap)
    (os : list operation) (bm' : OccupancyBitmap) (oid : nat) :
  run_ops fuel bm os = Some bm' ->
  restore bm' (checkpoint bm) oid
    = set_allocations bm (_allocations (restore bm' (checkpoint bm) oid)) /\
  bits (restore bm' (checkpoint bm) oid) = bits bm /\
  map fields (_allocations (restore bm' (checkpoint bm) oid))
    = map fields (_allocations bm).
Proof.
  intros H. apply run_ops_frame in H as (b & a & ->).
  unfold restore, checkpoint. cbn [fst snd].
  rewrite Z.ltb_irrefl. cbn. split; [by destruct bm|]. split; [done|].
  apply unpickle_fields.
Qed.

(** X23.  After [restore], [deallocate] does not find a record that was
    constructed before the restore: whatever it does to the bits, the
    list of allocations stays as restored. *)
Theorem restore_loses_identity (bm : OccupancyBitmap)
    (snap : list Z * list AllocationRecord) (oid : nat)
    (r : AllocationRecord) :
  (obj_id r < oid)%nat ->
  _allocations (deallocate (restore bm snap oid) r).2
  = _allocations (restore bm snap oid).
Proof.
  intros Hr. unfold deallocate.
  destruct (_mark_spans (restore bm snap oid) (spans r) 1) as [[[]| |] bm1] eqn:E;
    unfold _mark_spans in E;
    destruct (mark_spans_bits _ _ _ _) as [o bits'];
    inversion E; subst; cbn [snd _allocations set_bits set_allocations]; try done.
  apply filter_fresh.
  unfold restore. cbn [_allocations set_allocations].
  eapply Forall_impl; [apply (unpickle_ids oid); [lia|constructor]|].
  cbn. intros a Ha. lia.
Qed.

Lemma second_job_run :
  run_ops 1 one_job_done [Allocate 1 "OP-2" 8 2 false 1 None]
  = Some (mk_bitmap "standard" 0 (replicate 12%nat 0) standard_calendar HOUR
            EPOCH [first_job;
                   mk_record 1 "OP-2" "standard" 10 12 2 false [(10, 12)]]).
Proof. vm_compute. reflexivity. Qed.

Lemma restore_checkpoint_witness :
  run_ops 1 one_job_done [Allocate 1 "OP-2" 8 2 false 1 None]
  = Some (mk_bitmap "standard" 0 (replicate 12%nat 0) standard_calendar HOUR
            EPOCH [first_job;
                   mk_record 1 "OP-2" "standard" 10 12 2 false [(10, 12)]]) /\
  let bm' :=
    mk_bitmap "standard" 0 (replicate 12%nat 0) standard_calendar HOUR
      EPOCH [first_job;
             mk_record 1 "OP-2" "standard" 10 12 2 false [(10, 12)]] in
  restore bm' (checkpoint one_job_done) 2
    = set_allocations one_job_done
        (_allocations (restore bm' (checkpoint one_job_done) 2)) /\
  bits (restore bm' (checkpoint one_job_done) 2) = bits one_job_done /\
  map fields (_allocations (restore bm' (checkpoint one_job_done) 2))
    = map fields (_allocations one_job_done).
Proof.
  exact (conj second_job_run
           (restore_checkpoint 1 one_job_done _ _ 2 second_job_run)).
Defined.

Lemma restore_loses_identity_witness :
  (obj_id first_job < 2)%nat /\
  _allocations
    (deallocate (restore one_job_done (checkpoint one_job_done) 2) first_job).2
  = _allocations (restore one_job_done (checkpoint one_job_done) 2).
Proof.
  assert (obj_id first_job < 2)%nat as H by (cbn; lia).
  exact (conj H (restore_loses_identity one_job_done (checkpoint one_job_done)
                   2 first_job H)).
Defined.

(** ** The reference scheduler *)

Lemma walk_fields (fuel : nat) (bm : OccupancyBitmap) oid op es w split ms
    deadline r bm' :
  walk fuel bm oid op es w split ms deadline = (Ret r, bm') ->
  obj_id r = oid /\ operation_id r = op /\ work_units r = w /\
  allow_split r = split.
Proof.
  unfold walk. destruct split.
  - unfold _walk_splittable.
    destruct (splittable_loop _ _ _ _ _ _ _ _) as [[st| |] bm1]; [|done..].
    destruct (last (s_spans st)); [|done]. intros H. by inversion H.
  - unfold _walk_non_splittable. intros H.
    apply non_splittable_loop_sound in H as (_ & s & _ & -> & _); [done|lia].
Qed.

Lemma allocate_allocations (fuel : nat) (bm : OccupancyBitmap) oid op es w
    split ms deadline o bm' :
  allocate fuel bm oid op es w split ms deadline = (o, bm') ->
  match o with
  | Ret r => obj_id r = oid /\ operation_id r = op /\ work_units r = w /\
             allow_split r = split /\
             _allocations bm' = _allocations bm ++ [r]
  | _ => _allocations bm' = _allocations bm
  end.
Proof.
  unfold allocate.
  destruct (walk _ _ _ _ _ _ _ _ _) as [[r| |] bmw] eqn:Ew.
  - pose proof (walk_fields _ _ _ _ _ _ _ _ _ _ _ Ew) as (H1 & H2 & H3 & H4).
    apply walk_extends, extends_allocations in Ew.
    unfold _mark_spans. destruct (mark_spans_bits _ _ _ _) as [[[]| |] bits'];
      intros H; inversion H; subst; cbn; by rewrite ?Ew.
  - apply walk_extends, extends_allocations in Ew.
    intros H; by inversion H; subst.
  - apply walk_extends, extends_allocations in Ew.
    intros H; by inversion H; subst.
Qed.

Lemma greedy_loop_answers (fuel : nat) (operations : list Operation) :
  forall oid resources h results results' h',
  greedy_loop fuel oid operations resources h results = (Ret results', h') ->
  exists new, results' = results ++ new /\ Forall2 answers operations new.
Proof.
  induction operations as [|op ops IH];
    intros oid resources h results results' h'; cbn [greedy_loop].
  { intros H. inversion H. exists []. by rewrite app_nil_r. }
  destruct (resources !! op_resource_id op) as [l|]; [|done].
  destruct (allocate _ _ _ _ _ _ _ _ _) as [[r| |] bm] eqn:Ea; [|done..].
  apply allocate_allocations in Ea as (_ & H2 & H3 & H4 & _).
  intros H. apply IH in H as (new & -> & Hnew).
  exists (r :: new). split; [by rewrite <- app_assoc|].
  by constructor.
Qed.

(** X24.  When [greedy_schedule] returns, it returns one record for each
    operation, in the order of the operations, with the operation's
    [operation_id], [work_units] and [allow_split]. *)
Theorem greedy_schedule_answers (fuel : nat) (oid : nat)
    (operations : list Operation) (resources : gmap string nat) (h : store)
    (results : list AllocationRecord) (h' : store) :
  greedy_schedule fuel oid operations resources h = (Ret results, h') ->
  length results = length operations /\ Forall2 answers operations results.
Proof.
  intros H. apply greedy_loop_answers in H as (new & -> & H). cbn.
  split; [|done]. symmetry. by eapply Forall2_length.
Qed.

Lemma greedy_loop_app (fuel : nat) (ops1 ops2 : list Operation) :
  forall oid resources h results,
  greedy_loop fuel oid (ops1 ++ ops2) resources h results
  = match greedy_loop fuel oid ops1 resources h results with
    | (Ret results', h') =>
        greedy_loop fuel (oid + length ops1) ops2 resources h' results'
    | other => other
    end.
Proof.
  induction ops1 as [|op ops1 IH]; intros oid resources h results;
    cbn [greedy_loop app length].
  { by rewrite Nat.add_0_r. }
  destruct (resources !! op_resource_id op) as [l|]; [|done].
  destruct (allocate _ _ _ _ _ _ _ _ _) as [[r| |] bm]; [|done..].
  rewrite IH. by replace (S oid + length ops1)%nat with (oid + S (length ops1))%nat
    by lia.
Qed.

(** X25.  An operation for a resource that [resources] does not have raises
    [KeyError] when its turn comes; the allocations of the operations
    before it stay committed. *)
Theorem greedy_schedule_missing_resource (fuel : nat) (oid : nat)
    (before : list Operation) (op : Operation) (after : list Operation)
    (resources : gmap string nat) (h : store) :
  resources !! op_resource_id op = None ->
  greedy_schedule fuel oid (before ++ op :: after) resources h
  = match greedy_schedule fuel oid before resources h with
    | (Ret _, h') => (Raise KeyError, h')
    | other => other
    end.
Proof.
  intros Hop. unfold greedy_schedule. rewrite greedy_loop_app.
  destruct (greedy_loop fuel oid before resources h []) as [[results| |] h'];
    [|done..].
  cbn [greedy_loop]. by rewrite Hop.
Qed.

Lemma greedy_schedule_missing_resource_witness :
  one_machine !! op_resource_id stray_operation = None /\
  greedy_schedule 1 0 (two_operations ++ stray_operation :: []) one_machine
                  morning_store
  = match greedy_schedule 1 0 two_operations one_machine morning_store with
    | (Ret _, h') => (Raise KeyError, h')
    | other => other
    end.
Proof.
  assert (one_machine !! op_resource_id stray_operation = None) as H
    by (vm_compute; reflexivity).
  exact (conj H (greedy_schedule_missing_resource 1 0 two_operations
                   stray_operation [] one_machine morning_store H)).
Defined.

Lemma ids_below_allocate (fuel : nat) (oid : nat) (h : store) (l : nat)
    op es w split ms deadline o bm :
  ids_below oid h ->
  allocate fuel (h l) oid op es w split ms deadline = (o, bm) ->
  ids_below (S oid) (store_set h l bm).
Proof.
  intros Hh Ea l'. unfold store_set.
  destruct (Nat.eqb_spec l' l) as [->|_].
  - apply allocate_allocations in Ea.
    assert (Forall (fun r => (obj_id r < S oid)%nat) (_allocations (h l))) as Ho.
    { eapply Forall_impl; [apply Hh|]. cbn. lia. }
    destruct o as [r| |]; [|by rewrite Ea..].
    destruct Ea as (Hid & _ & _ & _ & ->). apply Forall_app. split; [done|].
    apply Forall_singleton. lia.
  - eapply Forall_impl; [apply Hh|]. cbn. lia.
Qed.

Lemma greedy_loop_consistent (fuel : nat) (operations : list Operation) :
  forall oid resources h results o h',
  (forall l, consistent (h l)) -> ids_below oid h ->
  greedy_loop fuel oid operations resources h results = (o, h') ->
  forall l, consistent (h' l).
Proof.
  induction operations as [|op ops IH];
    intros oid resources h results o h' Hc Hid; cbn [greedy_loop].
  { intros H. by inversion H; subst. }
  destruct (resources !! op_resource_id op) as [l|];
    [|intros H; by inversion H; subst].
  destruct (allocate _ _ _ _ _ _ _ _ _) as [o1 bm] eqn:Ea.
  assert (forall l', consistent (store_set h l bm l')) as Hc'.
  { intros l'. unfold store_set. destruct (Nat.eqb_spec l' l) as [->|_]; [|done].
    eapply consistent_allocate; [|apply Hc|exact Ea].
    unfold fresh. eapply Forall_impl; [apply Hid|]. cbn. lia. }
  pose proof (ids_below_allocate _ _ _ _ _ _ _ _ _ _ _ _ Hid Ea) as Hid'.
  destruct o1 as [r| |]; [|intros H; by inversion H; subst..].
  by apply IH.
Qed.

(** X26.  Let every bitmap of the store keep its allocations marked and
    disjoint, with identities below [oid].  Whether [greedy_schedule]
    returns or raises, every bitmap still keeps them so: each committed
    unit has bit 0 and no unit is held by two allocations, also when two
    resources share a bitmap. *)
Theorem greedy_schedule_consistent (fuel : nat) (oid : nat)
    (operations : list Operation) (resources : gmap string nat) (h : store)
    (o : outcome (list AllocationRecord)) (h' : store) :
  (forall l, consistent (h l)) -> ids_below oid h ->
  greedy_schedule fuel oid operations resources h = (o, h') ->
  forall l, I2 (h' l) /\ disjoint_allocations (_allocations (h' l)).
Proof.
  intros Hc Hid H l.
  assert (consistent (h' l)) as (HI & _ & Hd); [|done].
  by eapply greedy_loop_consistent.
Qed.

Lemma consistent_no_allocations (bm : OccupancyBitmap) :
  _allocations bm = [] -> consistent bm.
Proof.
  intros Hnil. unfold consistent, I2, disjoint_allocations. rewrite Hnil.
  split; [|split].
  - intros r Hr. by apply elem_of_nil in Hr.
  - constructor.
  - intros r1 r2 Hr. by apply elem_of_nil in Hr.
Qed.

Lemma greedy_two_operations :
  greedy_schedule 1 0 two_operations one_machine morning_store
  = (Ret [mk_record 0 "OP-1" "standard" 8 10 2 false [(8, 10)];
          mk_record 1 "OP-2" "standard" 10 12 2 false [(10, 12)]],
     (greedy_schedule 1 0 two_operations one_machine morning_store).2).
Proof. vm_compute. reflexivity. Qed.

Lemma greedy_schedule_answers_witness :
  greedy_schedule 1 0 two_operations one_machine morning_store
  = (Ret [mk_record 0 "OP-1" "standard" 8 10 2 false [(8, 10)];
          mk_record 1 "OP-2" "standard" 10 12 2 false [(10, 12)]],
     (greedy_schedule 1 0 two_operations one_machine morning_store).2) /\
  length [mk_record 0 "OP-1" "standard" 8 10 2 false [(8, 10)];
          mk_record 1 "OP-2" "standard" 10 12 2 false [(10, 12)]]
  = length two_operations /\
  Forall2 answers two_operations
    [mk_record 0 "OP-1" "standard" 8 10 2 false [(8, 10)];
     mk_record 1 "OP-2" "standard" 10 12 2 false [(10, 12)]].
Proof.
  exact (conj greedy_two_operations
           (greedy_schedule_answers 1 0 two_operations one_machine morning_store
              _ _ greedy_two_operations)).
Defined.

Lemma greedy_schedule_consistent_witness :
  (forall l, consistent (morning_store l)) /\ ids_below 0 morning_store /\
  greedy_schedule 1 0 two_operations one_machine morning_store
  = (Ret [mk_record 0 "OP-1" "standard" 8 10 2 false [(8, 10)];
          mk_record 1 "OP-2" "standard" 10 12 2 false [(10, 12)]],
     (greedy_schedule 1 0 two_operations one_machine morning_store).2) /\
  forall l,
    I2 ((greedy_schedule 1 0 two_operations one_machine morning_store).2 l) /\
    disjoint_allocations
      (_allocations
         ((greedy_schedule 1 0 two_operations one_machine morning_store).2 l)).
Proof.
  assert (forall l, consistent (morning_store l)) as H1.
  { intros l. by apply consistent_no_allocations. }
  assert (ids_below 0 morning_store) as H2.
  { intros l. constructor. }
  exact (conj H1 (conj H2 (conj greedy_two_operations
           (greedy_schedule_consistent 1 0 two_operations one_machine
              morning_store _ _ H1 H2 greedy_two_operations)))).
Defined.
